(** * TraceHub: a shallow embedding of the server-side data path

    The development follows the package layout of [src/tracehub]:
    [models.py] gives the records, [config.py] the process-wide tables,
    [db.py] the trace store, [adaptive.py] the HOT/WARM/COLD controller,
    [streaming.py] the subscriber broadcast and [endpoints.py] the request
    handlers.

    Conventions.
    - Clock readings ([time.time()], the [created_at] column) are integers
      counting milliseconds; [seconds n] is [n] seconds on that scale.
    - The [timestamp] of a trace is a Python float that comes from the
      request body: a number, or NaN.
    - A Python dict keyed by strings is a [gmap string _]; a Python list is a
      [list]; an [asyncio.Queue] object is a handle into a heap of queues,
      because buckets hold references and [list.remove] compares them by
      identity.
    - A handler that can raise returns a sum or an explicit outcome. *)

From Stdlib Require Import ZArith QArith Lia Bool Ascii String Sorted Permutation.
From stdpp Require Import base option list strings gmap fin_maps sorting pretty.

Open Scope Z_scope.

(** ** Time *)

Definition seconds (n : Z) : Z := 1000 * n.

(** [strftime('%s','now')]: the clock truncated to whole seconds. *)
Definition whole_seconds (now : Z) : Z := seconds (now / 1000).

(** ** models.py *)

Module Models.

(** A Python [float] as the store tells its values apart: a number
    (timestamps count milliseconds), or NaN, which compares equal to
    nothing and which SQLite binds as NULL. *)
Inductive float :=
| Num (z : Z)
| NaN.

#[export] Instance float_eq_dec : EqDecision float.
Proof. solve_decision. Defined.

Coercion Num : Z >-> float.

(** The number a float stands for.  NaN has none: the store tests for
    it before it binds a value. *)
Definition number (f : float) : Z :=
  match f with
  | Num z => z
  | NaN => 0
  end.

Definition is_nan (f : float) : bool :=
  match f with
  | Num _ => false
  | NaN => true
  end.

(** [a <= b] on floats: false as soon as one side is NaN. *)
Definition float_le (a b : float) : Prop :=
  match a, b with
  | Num x, Num y => x <= y
  | _, _ => False
  end.

(** [class TraceEntry(BaseModel)].  [timestamp: float] admits NaN;
    [data] is an optional dict whose values stay opaque; [raw_line] is
    an optional string. *)
Record TraceEntry := mkTraceEntry {
  source_id : string;
  correlation_id : string;
  timestamp : float;
  suffix : string;
  direction : string;
  operation : string;
  endpoint : string;
  data : option (list (string * string));
  hostname : string;
  raw_line : option string
}.

#[export] Instance TraceEntry_eq_dec : EqDecision TraceEntry.
Proof. solve_decision. Defined.

End Models.
Export Models.

(** ** config.py: process-wide tables *)

Module Config.

(** [_stats].  The four counters exist from start-up; [ingest_deduped]
    is created by [setdefault] on the first soft duplicate. *)
Record Stats := mkStats {
  ingest_total : Z;
  ingest_duplicates : Z;
  queries_total : Z;
  recent_requests : Z;
  started_at : Z;
  ingest_deduped : option Z
}.

Definition stats0 (boot : Z) : Stats :=
  mkStats 0 0 0 0 boot None.

(** [_stats.setdefault("ingest_deduped", 0); _stats["ingest_deduped"] += 1] *)
Definition bump_deduped (s : Stats) : Stats :=
  mkStats (ingest_total s) (ingest_duplicates s) (queries_total s)
          (recent_requests s) (started_at s)
          (Some (default 0 (ingest_deduped s) + 1)).

Definition bump_recent_requests (s : Stats) : Stats :=
  mkStats (ingest_total s) (ingest_duplicates s) (queries_total s)
          (recent_requests s + 1) (started_at s) (ingest_deduped s).

Definition add_ingest (inserted dups : Z) (s : Stats) : Stats :=
  mkStats (ingest_total s + inserted) (ingest_duplicates s + dups)
          (queries_total s) (recent_requests s) (started_at s)
          (ingest_deduped s).

End Config.
Export Config.

(** ** db.py: the trace store *)

Module Db.

(** One row of table [traces]. *)
Record Row := mkRow {
  r_id : Z;
  r_source_id : string;
  r_correlation_id : string;
  r_timestamp : Z;
  r_suffix : string;
  r_direction : string;
  r_operation : string;
  r_endpoint : string;
  r_data : option (list (string * string));
  r_hostname : string;
  r_raw_line : option string;
  r_created_at : Z
}.

#[export] Instance Row_eq_dec : EqDecision Row.
Proof. solve_decision. Defined.

(** The table in rowid order, and the AUTOINCREMENT sequence. *)
Record Table := mkTable {
  rows : list Row;
  last_id : Z
}.

Definition empty_table : Table := mkTable [] 0.

(** The key of [UNIQUE(correlation_id, timestamp, suffix)].  Column
    [timestamp] is [REAL NOT NULL]: a stored row holds a number, so no
    row has the identity of an entry whose timestamp is NaN. *)
Definition identity_of (r : Row) : string * float * string :=
  (r_correlation_id r, Num (r_timestamp r), r_suffix r).

Definition entry_identity (t : TraceEntry) : string * float * string :=
  (correlation_id t, timestamp t, suffix t).

Definition has_identity (k : string * float * string) (r : Row) : bool :=
  bool_decide (identity_of r = k).

(** The table satisfies its uniqueness constraint. *)
Definition unique_ok (rs : list Row) : bool :=
  bool_decide (NoDup (identity_of <$> rs)).

(** [WHERE source_id = ? AND correlation_id = ? AND endpoint = ? AND
    direction = ? AND created_at > ?] with the last parameter
    [now - 300]. *)
Definition soft_match (trace : TraceEntry) (now : Z) (r : Row) : bool :=
  bool_decide (r_source_id r = source_id trace)
  && bool_decide (r_correlation_id r = correlation_id trace)
  && bool_decide (r_endpoint r = endpoint trace)
  && bool_decide (r_direction r = direction trace)
  && bool_decide (now - seconds 300 < r_created_at r).

(** [SET timestamp = ?, created_at = ?], for a timestamp that is a
    number. *)
Definition refresh (trace : TraceEntry) (now : Z) (r : Row) : Row :=
  mkRow (r_id r) (r_source_id r) (r_correlation_id r)
        (number (timestamp trace))
        (r_suffix r) (r_direction r) (r_operation r) (r_endpoint r)
        (r_data r) (r_hostname r) (r_raw_line r) now.

Definition update_row (trace : TraceEntry) (now : Z) (r : Row) : Row :=
  if soft_match trace now r then refresh trace now r else r.

(** The UPDATE statement.  [Some (rows', rowcount)] when it succeeds;
    [None] when the driver raises IntegrityError and the statement is
    backed out: when it would leave two rows with one identity, and
    when it would write NULL, which a NaN is bound to, into column
    [timestamp] of a row. *)
Definition sql_update (trace : TraceEntry) (now : Z) (rs : list Row)
  : option (list Row * Z) :=
  let matched := filter (λ r, soft_match trace now r = true) rs in
  match timestamp trace with
  | NaN =>
      match matched with
      | [] => Some (rs, 0)
      | _ => None                                   (* NOT NULL *)
      end
  | Num _ =>
      let rs' := update_row trace now <$> rs in
      if unique_ok rs'
      then Some (rs', Z.of_nat (length matched))
      else None                                     (* UNIQUE *)
  end.

(** [json.dumps(trace.data) if trace.data else None]: an absent or empty
    dict is stored as NULL. *)
Definition stored_data (d : option (list (string * string)))
  : option (list (string * string)) :=
  match d with
  | Some (kv :: rest) => Some (kv :: rest)
  | _ => None
  end.

(** The row of the VALUES clause, for a timestamp that is a number. *)
Definition new_row (trace : TraceEntry) (now : Z) (id : Z) : Row :=
  mkRow id (source_id trace) (correlation_id trace) (number (timestamp trace))
        (suffix trace) (direction trace) (operation trace) (endpoint trace)
        (stored_data (data trace)) (hostname trace) (raw_line trace)
        (whole_seconds now).

(** [INSERT OR IGNORE]: returns the table and the number of rows
    changed.  [created_at] takes its column default.  The statement
    draws the next id of the AUTOINCREMENT sequence before it checks
    the constraints, so the sequence moves on also when the row is
    ignored: because a row of that identity is stored (UNIQUE), or
    because the timestamp is NaN (NOT NULL). *)
Definition sql_insert_or_ignore (trace : TraceEntry) (now : Z) (t : Table)
  : Table * Z :=
  let id := last_id t + 1 in
  if is_nan (timestamp trace)
     || existsb (has_identity (entry_identity trace)) (rows t)
  then (mkTable (rows t) id, 0)
  else (mkTable (rows t ++ [new_row trace now id]) id, 1).

(** [insert_trace].  A fresh connection is opened per call, so
    [db.total_changes] counts the changes of this call only: those of
    the UPDATE (zero when control reaches the INSERT) plus those of the
    INSERT. *)
Definition insert_trace (now : Z) (trace : TraceEntry) (t : Table) (s : Stats)
  : Table * Stats * bool :=
  match sql_update trace now (rows t) with
  | None => (t, s, false)                       (* except Exception *)
  | Some (rs', rowcount) =>
      if 0 <? rowcount
      then (mkTable rs' (last_id t), bump_deduped s, false)
      else
        let '(t', changed) := sql_insert_or_ignore trace now (mkTable rs' (last_id t)) in
        let total_changes := rowcount + changed in
        (t', s, 0 <? total_changes)
  end.

(** [TraceEntry(source_id=row["source_id"], ...)] *)
Definition row_to_entry (r : Row) : TraceEntry :=
  mkTraceEntry (r_source_id r) (r_correlation_id r) (Num (r_timestamp r))
               (r_suffix r) (r_direction r) (r_operation r) (r_endpoint r)
               (r_data r) (r_hostname r) (r_raw_line r).

(** [ORDER BY timestamp ASC].  SQLite reads the rows of one
    correlation id off the index of the UNIQUE constraint, so rows of
    equal timestamp come in the order of their suffixes, compared byte
    by byte. *)
Definition comes_before (r x : Row) : bool :=
  (r_timestamp r <? r_timestamp x)
  || ((r_timestamp r =? r_timestamp x) && String.leb (r_suffix r) (r_suffix x)).

Fixpoint insert_by_timestamp (r : Row) (l : list Row) : list Row :=
  match l with
  | [] => [r]
  | x :: l' =>
      if comes_before r x then r :: l
      else x :: insert_by_timestamp r l'
  end.

Definition order_by_timestamp (rs : list Row) : list Row :=
  foldr insert_by_timestamp [] rs.

(** Python truthiness of an optional string and of an optional float. *)
Definition truthy_str (o : option string) : option string :=
  match o with
  | Some s => if bool_decide (s = "") then None else Some s
  | None => None
  end.

Definition truthy_num (o : option Z) : option Z :=
  match o with
  | Some z => if bool_decide (z = 0) then None else Some z
  | None => None
  end.

(** [query_traces]. *)
Definition query_traces (correlation_id : string) (source_id : option string)
    (since_ts : option Z) (t : Table) : list TraceEntry :=
  let cond (r : Row) : bool :=
    bool_decide (r_correlation_id r = correlation_id)
    && match truthy_str source_id with
       | Some sid => bool_decide (r_source_id r = sid)
       | None => true
       end
    && match truthy_num since_ts with
       | Some ts => ts <? r_timestamp r
       | None => true
       end in
  row_to_entry <$> order_by_timestamp (filter (λ r, cond r = true) (rows t)).

(** Rows stored under an identity. *)
Definition rows_with (k : string * float * string) (t : Table) : list Row :=
  filter (λ r, has_identity k r = true) (rows t).

(** [cleanup_old_traces]: [DELETE FROM traces WHERE created_at < cutoff]
    with [cutoff = time.time() - TRACEHUB_RETENTION_HOURS * 3600];
    returns the table and [result.rowcount]. *)
Definition cleanup_old_traces (TRACEHUB_RETENTION_HOURS : Z) (now : Z) (t : Table)
  : Table * Z :=
  let cutoff := now - seconds (TRACEHUB_RETENTION_HOURS * 3600) in
  (mkTable (filter (λ r, ¬ r_created_at r < cutoff) (rows t)) (last_id t),
   Z.of_nat (length (filter (λ r, r_created_at r < cutoff) (rows t)))).

(** The WHERE clause of [query_traces] as a proposition on a row. *)
Definition query_matches (correlation_id : string) (source_id : option string)
    (since_ts : option Z) (r : Row) : Prop :=
  r_correlation_id r = correlation_id
  ∧ match truthy_str source_id with
    | Some sid => r_source_id r = sid
    | None => True
    end
  ∧ match truthy_num since_ts with
    | Some ts => ts < r_timestamp r
    | None => True
    end.

#[export] Instance query_matches_dec cid src since r :
  Decision (query_matches cid src since r).
Proof.
  unfold query_matches.
  destruct (truthy_str src), (truthy_num since); apply _.
Defined.

(** What the schema promises of the table: the uniqueness constraint
    holds, the rows are in ascending [id] order, and no [id] exceeds the
    AUTOINCREMENT sequence. *)
Definition table_ok (t : Table) : Prop :=
  unique_ok (rows t) = true
  ∧ StronglySorted Z.lt (r_id <$> rows t)
  ∧ Forall (λ r, r_id r <= last_id t) (rows t).

End Db.
Export Db.

(** ** adaptive.py: the HOT/WARM/COLD controller *)

Module Adaptive.

(** An element of [_adaptive_state]:
    [{"state": "hot"|"warm", "expires_at": float, "queried_at": float}]. *)
Record entry := mkEntry {
  state : string;
  expires_at : Z;
  queried_at : Z
}.

#[export] Instance entry_eq_dec : EqDecision entry.
Proof. solve_decision. Defined.

(** [_adaptive_state] and [_config_etag]. *)
Record Controller := mkController {
  adaptive_state : gmap string entry;
  config_etag : Z
}.

Definition controller0 : Controller := mkController ∅ 0.

Section WithSettings.

(** [ADAPTIVE_HOT_TTL], [ADAPTIVE_WARM_TTL]: read from the environment
    when the module loads, in seconds. *)
Variables (ADAPTIVE_HOT_TTL ADAPTIVE_WARM_TTL : Z).

Definition get_state (corr_id : string) (c : Controller) : string :=
  match adaptive_state c !! corr_id with
  | None => "cold"
  | Some e => state e
  end.

(** [mark_hot]: the new controller and the previous state. *)
Definition mark_hot (now : Z) (corr_id : string) (c : Controller)
  : Controller * string :=
  let prev := get_state corr_id c in
  (mkController
     (<[corr_id := mkEntry "hot" (now + seconds ADAPTIVE_HOT_TTL) now]>
        (adaptive_state c))
     (config_etag c + 1),
   prev).

(** The body of the loop of [cooldown_tick].  The accumulator is the
    dict (an expired HOT entry is rewritten in place), [changed] and
    [to_remove]. *)
Definition tick_step (now : Z)
    (acc : gmap string entry * bool * list string) (item : string * entry)
  : gmap string entry * bool * list string :=
  let '(m, changed, to_remove) := acc in
  let '(corr_id, e) := item in
  if now <? expires_at e then acc                           (* continue *)
  else if bool_decide (state e = "hot")
       then (<[corr_id := mkEntry "warm" (now + seconds ADAPTIVE_WARM_TTL)
                                  (queried_at e)]> m,
             true, to_remove)
  else if bool_decide (state e = "warm")
       then (m, true, to_remove ++ [corr_id])
  else acc.

(** [cooldown_tick]: one scan of [_adaptive_state.items()], then the
    deletions, then one step of the etag if [changed]. *)
Definition cooldown_tick (now : Z) (c : Controller) : Controller :=
  let '(m, changed, to_remove) :=
    foldl (tick_step now) (adaptive_state c, false, [])
          (map_to_list (adaptive_state c)) in
  mkController
    (foldl (λ m corr_id, delete corr_id m) m to_remove)
    (if changed then config_etag c + 1 else config_etag c).

(** What the tick does to one entry: [Some e'] is the entry it leaves
    in the dict, [None] means the id was removed. *)
Definition tick_entry (now : Z) (e : entry) : option entry :=
  if now <? expires_at e then Some e
  else if bool_decide (state e = "hot")
       then Some (mkEntry "warm" (now + seconds ADAPTIVE_WARM_TTL) (queried_at e))
  else if bool_decide (state e = "warm") then None
  else Some e.

(** Whether the tick sets [changed = True] on this entry. *)
Definition transitions (now : Z) (e : entry) : bool :=
  negb (now <? expires_at e)
  && (bool_decide (state e = "hot") || bool_decide (state e = "warm")).

(** [tracing_enable]: the controller and the reported previous state. *)
Definition tracing_enable (now : Z) (corr_id : string) (c : Controller)
  : Controller * string :=
  mark_hot now corr_id c.

(** [tracing_disable]. *)
Definition tracing_disable (corr_id : string) (c : Controller)
  : Controller * string :=
  let previous := get_state corr_id c in
  match adaptive_state c !! corr_id with
  | Some _ =>
      (mkController (delete corr_id (adaptive_state c)) (config_etag c + 1),
       previous)
  | None => (c, previous)
  end.

(** The maintenance loop calls [cooldown_tick] at successive clock
    readings. *)
Definition run_ticks (ticks : list Z) (c : Controller) : Controller :=
  foldl (λ c now, cooldown_tick now c) c ticks.

(** What a run of ticks does to the entry of one id. *)
Definition entry_after (ticks : list Z) (o : option entry) : option entry :=
  foldl (λ o now, o ≫= tick_entry now) o ticks.

End WithSettings.

(** The maintenance loop wakes at a fixed interval: ticks [period]
    apart, [t0 + period, ..., t0 + n * period]. *)
Definition every (period t0 : Z) (n : nat) : list Z :=
  (λ k, t0 + period * Z.of_nat k) <$> List.seq 1 n.

(** The double-quote character. *)
Definition dquote : ascii := ascii_of_nat 34.

(** [s.lstrip(c)] on the characters of a string. *)
Fixpoint lstrip (c : ascii) (l : list ascii) : list ascii :=
  match l with
  | d :: l' => if bool_decide (d = c) then lstrip c l' else l
  | [] => []
  end.

(** [s.strip(c)]: every leading and every trailing [c] goes. *)
Definition strip (c : ascii) (s : string) : string :=
  string_of_list_ascii
    (rev (lstrip c (rev (lstrip c (list_ascii_of_string s))))).

(** [f'"{etag_str}"'] *)
Definition quoted (s : string) : string :=
  String dquote (s +:+ String dquote EmptyString).

Record HotInfo := mkHotInfo {
  hi_rate : Q;
  hi_ttl : Z
}.

(** The JSON body of /tracing/config. *)
Record ConfigBody := mkConfigBody {
  cb_mode : string;
  cb_default_rate : Q;
  cb_warm_rate : Q;
  cb_hot_correlations : gmap string HotInfo;
  cb_etag : string
}.

(** A response of /tracing/config: the status, the [ETag] header and
    the body, which a 304 does not have. *)
Record ConfigResponse := mkConfigResponse {
  cr_status : Z;
  cr_etag_header : string;
  cr_body : option ConfigBody
}.

(** [max(0, int(entry["expires_at"] - now))]: whole seconds left,
    truncated towards zero. *)
Definition remaining_ttl (now : Z) (e : entry) : Z :=
  Z.max 0 (Z.quot (expires_at e - now) 1000).

Section WithRates.

(** [ADAPTIVE_WARM_RATE], [ADAPTIVE_COLD_RATE]. *)
Variables (ADAPTIVE_WARM_RATE ADAPTIVE_COLD_RATE : Q).

Definition get_trace_rate (corr_id : string) (c : Controller) : Q :=
  let state := get_state corr_id c in
  if bool_decide (state = "hot") then 1%Q
  else if bool_decide (state = "warm") then ADAPTIVE_WARM_RATE
  else ADAPTIVE_COLD_RATE.

(** [tracing_config]: [if_none_match] is the request header, absent or
    a string. *)
Definition tracing_config (now : Z) (if_none_match : option string)
    (c : Controller) : ConfigResponse :=
  let etag_str := pretty (config_etag c) in
  let matches :=
    match if_none_match with
    | Some h => bool_decide (strip dquote h = etag_str)
    | None => false
    end in
  if matches then mkConfigResponse 304 (quoted etag_str) None
  else
    let hot_correlations :=
      omap (λ e, if bool_decide (state e = "hot")
                 then Some (mkHotInfo 1%Q (remaining_ttl now e))
                 else None)
           (adaptive_state c) in
    mkConfigResponse 200 (quoted etag_str)
      (Some (mkConfigBody "adaptive" ADAPTIVE_COLD_RATE ADAPTIVE_WARM_RATE
                          hot_correlations etag_str)).

End WithRates.

End Adaptive.
Export Adaptive.

(** ** streaming.py: the subscriber broadcast *)

Module Streaming.

(** [asyncio.Queue(maxsize=100)]. *)
Definition maxsize : nat := 100.

(** [_subscribers], [_subscriber_timestamps], and the queue objects
    themselves: [queues] maps a handle to the items waiting in that
    queue, [next_queue] is the next handle to hand out. *)
Record Broadcast := mkBroadcast {
  subscribers : gmap string (list nat);
  subscriber_timestamps : gmap string Z;
  queues : gmap nat (list TraceEntry);
  next_queue : nat
}.

Definition broadcast0 : Broadcast := mkBroadcast ∅ ∅ ∅ 0.

(** [subscribe]: a new queue is appended to the bucket of the id. *)
Definition subscribe (now : Z) (correlation_id : string) (b : Broadcast)
  : Broadcast * nat :=
  let queue := next_queue b in
  let bucket := default [] (subscribers b !! correlation_id) in
  (mkBroadcast
     (<[correlation_id := bucket ++ [queue]]> (subscribers b))
     (<[correlation_id := now]> (subscriber_timestamps b))
     (<[queue := []]> (queues b))
     (S queue),
   queue).

(** [list.remove(x)]: drops the first occurrence; [None] is ValueError. *)
Fixpoint list_remove (x : nat) (l : list nat) : option (list nat) :=
  match l with
  | [] => None
  | y :: l' =>
      if bool_decide (y = x) then Some l'
      else cons y <$> list_remove x l'
  end.

(** [unsubscribe]. *)
Definition unsubscribe (correlation_id : string) (queue : nat) (b : Broadcast)
  : Broadcast :=
  match subscribers b !! correlation_id with
  | None => b
  | Some bucket =>
      match list_remove queue bucket with
      | None => b                                   (* except ValueError: pass *)
      | Some [] =>
          mkBroadcast (delete correlation_id (subscribers b))
                      (subscriber_timestamps b) (queues b) (next_queue b)
      | Some bucket' =>
          mkBroadcast (<[correlation_id := bucket']> (subscribers b))
                      (subscriber_timestamps b) (queues b) (next_queue b)
      end
  end.

(** [queue.put_nowait(item)]: [None] when the queue is full (QueueFull)
    or the handle names no queue. *)
Definition put_nowait (queue : nat) (item : TraceEntry)
    (qs : gmap nat (list TraceEntry)) : option (gmap nat (list TraceEntry)) :=
  match qs !! queue with
  | None => None
  | Some items =>
      if (maxsize <=? length items)%nat then None
      else Some (<[queue := items ++ [item]]> qs)
  end.

(** The fan-out loop of [notify_subscribers]: the queues after the pass
    and [dead_queues]. *)
Fixpoint fan_out (trace : TraceEntry) (bucket : list nat)
    (qs : gmap nat (list TraceEntry)) (dead_queues : list nat)
  : gmap nat (list TraceEntry) * list nat :=
  match bucket with
  | [] => (qs, dead_queues)
  | queue :: rest =>
      match put_nowait queue trace qs with
      | Some qs' => fan_out trace rest qs' dead_queues
      | None => fan_out trace rest qs (dead_queues ++ [queue])
      end
  end.

(** [for q in dead_queues: try: bucket.remove(q) except ValueError: pass] *)
Fixpoint prune (dead_queues : list nat) (bucket : list nat) : list nat :=
  match dead_queues with
  | [] => bucket
  | q :: rest => prune rest (default bucket (list_remove q bucket))
  end.

(** [notify_subscribers]. *)
Definition notify_subscribers (trace : TraceEntry) (b : Broadcast) : Broadcast :=
  let corr_id := correlation_id trace in
  match subscribers b !! corr_id with
  | None => b
  | Some bucket =>
      let '(qs, dead_queues) := fan_out trace bucket (queues b) [] in
      match prune dead_queues bucket with
      | [] =>
          mkBroadcast (delete corr_id (subscribers b))
                      (delete corr_id (subscriber_timestamps b))
                      qs (next_queue b)
      | bucket' =>
          mkBroadcast (<[corr_id := bucket']> (subscribers b))
                      (subscriber_timestamps b) qs (next_queue b)
      end
  end.

(** [cleanup_stale_subscribers]: [stale] lists the ids whose activity
    timestamp is older than the cutoff; their buckets and timestamps
    go. *)
Definition is_stale (cutoff : Z) (b : Broadcast) (cid : string) : bool :=
  match subscriber_timestamps b !! cid with
  | Some ts => bool_decide (ts < cutoff)
  | None => false
  end.

Definition cleanup_stale_subscribers (now : Z) (b : Broadcast) : Broadcast :=
  let cutoff := now - seconds 300 in
  mkBroadcast
    (filter (λ kv, is_stale cutoff b kv.1 = false) (subscribers b))
    (filter (λ kv, is_stale cutoff b kv.1 = false) (subscriber_timestamps b))
    (queues b) (next_queue b).

(** [queue.get()] when an item is waiting. *)
Definition queue_get (queue : nat) (b : Broadcast)
  : option (TraceEntry * Broadcast) :=
  match queues b !! queue with
  | Some (item :: items) =>
      Some (item, mkBroadcast (subscribers b) (subscriber_timestamps b)
                              (<[queue := items]> (queues b)) (next_queue b))
  | _ => None
  end.

(** The handles registered under an id. *)
Definition bucket_of (cid : string) (b : Broadcast) : list nat :=
  default [] (subscribers b !! cid).

(** The items waiting in a queue. *)
Definition waiting (queue : nat) (b : Broadcast) : list TraceEntry :=
  default [] (queues b !! queue).

(** [queue.full()] for a handle of the heap. *)
Definition is_full (qs : gmap nat (list TraceEntry)) (queue : nat) : bool :=
  (maxsize <=? length (default [] (qs !! queue)))%nat.

(** Registrations as [subscribe] creates them: a bucket lists a handle
    once, two buckets share none, every registered handle names a queue
    and is older than [next_queue]. *)
Record well_formed (b : Broadcast) : Prop := mkWf {
  wf_nodup : ∀ cid bucket,
    subscribers b !! cid = Some bucket → NoDup bucket;
  wf_disjoint : ∀ cid1 cid2 bucket1 bucket2 q,
    subscribers b !! cid1 = Some bucket1 →
    subscribers b !! cid2 = Some bucket2 →
    q ∈ bucket1 → q ∈ bucket2 → cid1 = cid2;
  wf_alloc : ∀ cid bucket q,
    subscribers b !! cid = Some bucket → q ∈ bucket →
    (q < next_queue b)%nat ∧ is_Some (queues b !! q)
}.

(** [b'] keeps the queue objects and the handle counter of [b], and its
    buckets are what is left of the buckets of [b] after removals. *)
Definition shrinks (b b' : Broadcast) : Prop :=
  next_queue b' = next_queue b
  ∧ (∀ q, is_Some (queues b !! q) → is_Some (queues b' !! q))
  ∧ (∀ cid bucket', subscribers b' !! cid = Some bucket' →
       ∃ bucket, subscribers b !! cid = Some bucket
                 ∧ bucket' `sublist_of` bucket).

(** The handle [queue] was handed out for [cid]: no other bucket holds
    it. *)
Definition held (cid : string) (queue : nat) (b : Broadcast) : Prop :=
  well_formed b
  ∧ (queue < next_queue b)%nat
  ∧ ∀ cid' bucket, subscribers b !! cid' = Some bucket → queue ∈ bucket →
                   cid' = cid.

(** No queue holds more than [maxsize] items. *)
Definition bounded (b : Broadcast) : Prop :=
  ∀ q items, queues b !! q = Some items → (length items ≤ maxsize)%nat.

(** [notify_subscribers] called once per trace, in order. *)
Definition notify_all (traces : list TraceEntry) (b : Broadcast) : Broadcast :=
  foldl (λ b trace, notify_subscribers trace b) b traces.

(** Up to [n] successive [queue.get()] calls on one queue, stopping at
    the first that finds it empty: the items obtained, oldest first. *)
Fixpoint drain (n : nat) (queue : nat) (b : Broadcast)
  : list TraceEntry * Broadcast :=
  match n with
  | O => ([], b)
  | S k =>
      match queue_get queue b with
      | Some (item, b') =>
          let '(items, b'') := drain k queue b' in (item :: items, b'')
      | None => ([], b)
      end
  end.

End Streaming.
Export Streaming.

(** ** endpoints.py: the request handlers *)

Module Endpoints.

(** The tables of [config.py] together with the store: what the
    handlers read and write. *)
Record State := mkState {
  table : Table;
  stats : Stats;
  recent_rate_window : list Z;
  source_ingest_window : gmap string (list Z);
  source_ingest_totals : gmap string Z;
  broadcast : Broadcast
}.

Definition state0 (boot : Z) : State :=
  mkState empty_table (stats0 boot) [] ∅ ∅ broadcast0.

Record HTTPException := mkHTTPException {
  status_code : Z;
  detail : string
}.

(** *** POST /ingest and POST /ingest/single *)

Record IngestResponse := mkIngestResponse {
  accepted : Z;
  inserted : Z;
  duplicates : Z
}.

(** The loop of [ingest_traces].  [now] is the clock read once before
    the loop; each trace comes with the clock reading of its own
    [insert_trace] call. *)
Fixpoint ingest_loop (now : Z) (traces : list (Z * TraceEntry)) (st : State)
    (inserted : Z) : State * Z :=
  match traces with
  | [] => (st, inserted)
  | (at_insert, trace) :: rest =>
      let '(t', s', ok) := insert_trace at_insert trace (table st) (stats st) in
      let b' := if ok then notify_subscribers trace (broadcast st)
                else broadcast st in
      let inserted' := if ok then inserted + 1 else inserted in
      let sid := source_id trace in
      let window' :=
        <[sid := default [] (source_ingest_window st !! sid) ++ [now]]>
          (source_ingest_window st) in
      let totals' :=
        <[sid := default 0 (source_ingest_totals st !! sid) + 1]>
          (source_ingest_totals st) in
      ingest_loop now rest
        (mkState t' s' (recent_rate_window st) window' totals' b') inserted'
  end.

Definition ingest_traces (now : Z) (traces : list (Z * TraceEntry)) (st : State)
  : State * IngestResponse :=
  let '(st', inserted) := ingest_loop now traces st 0 in
  let n := Z.of_nat (length traces) in
  (mkState (table st') (add_ingest inserted (n - inserted) (stats st'))
           (recent_rate_window st') (source_ingest_window st')
           (source_ingest_totals st') (broadcast st'),
   mkIngestResponse n inserted (n - inserted)).

(** [ingest_single_trace]: the state and the [inserted] flag of the
    response. *)
Definition ingest_single_trace (now : Z) (trace : TraceEntry) (st : State)
  : State * bool :=
  let '(t', s', inserted) := insert_trace now trace (table st) (stats st) in
  let b' := if inserted then notify_subscribers trace (broadcast st)
            else broadcast st in
  (mkState t' s' (recent_rate_window st) (source_ingest_window st)
           (source_ingest_totals st) b',
   inserted).

(** *** GET /recent *)

(** SQLite's [LIKE] on the UTF-8 bytes of two strings: [%] matches
    any run of characters, [_] any one character, which may take
    several bytes, and ASCII letters match without regard to case. *)
Definition fold_case (c : ascii) : ascii :=
  let n := nat_of_ascii c in
  if ((97 <=? n) && (n <=? 122))%nat then ascii_of_nat (n - 32) else c.

(** The first byte of a character of several bytes, and the bytes that
    follow it. *)
Definition lead (d : ascii) : bool := (192 <=? nat_of_ascii d)%nat.

Definition continuation (d : ascii) : bool :=
  ((128 <=? nat_of_ascii d) && (nat_of_ascii d <? 192))%nat.

Fixpoint skip_continuation (s : list ascii) : list ascii :=
  match s with
  | d :: s' => if continuation d then skip_continuation s' else s
  | [] => []
  end.

(** What follows the character that begins with byte [d]. *)
Definition after_char (d : ascii) (s' : list ascii) : list ascii :=
  if lead d then skip_continuation s' else s'.

Fixpoint like_chars (p s : list ascii) {struct p} : bool :=
  match p with
  | [] => match s with [] => true | _ => false end
  | c :: p' =>
      if bool_decide (c = "%"%char)
      then (fix any (s : list ascii) (inside : bool) {struct s} : bool :=
              match s with
              | [] => like_chars p' []
              | d :: s' =>
                  if inside && continuation d then any s' true
                  else like_chars p' s || any s' (lead d)
              end) s false
      else match s with
           | [] => false
           | d :: s' =>
               if bool_decide (c = "_"%char)
               then like_chars p' (after_char d s')
               else bool_decide (fold_case c = fold_case d)
                    && like_chars p' s'
           end
  end.

Definition sql_like (value pattern : string) : bool :=
  like_chars (list_ascii_of_string pattern) (list_ascii_of_string value).

Record RecentItem := mkRecentItem {
  ri_id : Z;
  ri_source_id : string;
  ri_correlation_id : string;
  ri_timestamp : Z;
  ri_direction : string;
  ri_operation : string;
  ri_endpoint : string;
  ri_data : option (list (string * string))
}.

Definition recent_item (r : Row) : RecentItem :=
  mkRecentItem (r_id r) (r_source_id r) (r_correlation_id r) (r_timestamp r)
               (r_direction r) (r_operation r) (r_endpoint r) (r_data r).

Record RecentResponse := mkRecentResponse {
  traces : list RecentItem;
  count : Z
}.

(** The SELECT of [get_recent_traces] and the reversal of its page.
    The table is kept in rowid order, so [ORDER BY id DESC] reads it
    backwards; a negative LIMIT is no limit. *)
Definition select_recent (limit : Z) (since_id : option Z)
    (source : option string) (t : Table) : list RecentItem :=
  let cond (r : Row) : bool :=
    match since_id with Some i => i <? r_id r | None => true end
    && match truthy_str source with
       | Some src => sql_like (r_source_id r) (src ++ "%")
       | None => true
       end
    && negb (bool_decide (r_correlation_id r = "-")) in
  let newest_first := rev (filter (λ r, cond r = true) (rows t)) in
  let page := if limit <? 0 then newest_first
              else take (Z.to_nat limit) newest_first in
  rev (recent_item <$> page).

(** The WHERE clause of [get_recent_traces] as a proposition on a row. *)
Definition recent_matches (since_id : option Z) (source : option string)
    (r : Row) : Prop :=
  match since_id with Some i => i < r_id r | None => True end
  ∧ match truthy_str source with
    | Some src => sql_like (r_source_id r) (src ++ "%") = true
    | None => True
    end
  ∧ r_correlation_id r ≠ "-".

#[export] Instance recent_matches_dec since_id source r :
  Decision (recent_matches since_id source r).
Proof.
  unfold recent_matches.
  destruct since_id, (truthy_str source); apply _.
Defined.

(** [sum(1 for t in window if now - t < 60)] *)
Definition count_within (now horizon : Z) (window : list Z) : Z :=
  Z.of_nat (length (filter (λ t, now - t < horizon) window)).

(** [HTTPException(status_code=429, detail=...)] *)
Definition too_many_requests : HTTPException :=
  mkHTTPException 429 "Rate limit exceeded: max 30 requests/minute".

(** [get_recent_traces]. *)
Definition get_recent_traces (now : Z) (limit : Z) (since_id : option Z)
    (source : option string) (st : State)
  : State * (HTTPException + RecentResponse) :=
  let window := recent_rate_window st ++ [now] in
  let st' := mkState (table st) (bump_recent_requests (stats st)) window
                     (source_ingest_window st) (source_ingest_totals st)
                     (broadcast st) in
  let recent_count := count_within now (seconds 60) window in
  if 30 <? recent_count
  then (st', inl too_many_requests)
  else
    let found := select_recent limit since_id source (table st') in
    (st', inr (mkRecentResponse found (Z.of_nat (length found)))).

(** A call to /recent: its clock reading and its query parameters. *)
Record RecentCall := mkRecentCall {
  rc_now : Z;
  rc_limit : Z;
  rc_since_id : option Z;
  rc_source : option string
}.

Definition call_recent (c : RecentCall) (st : State)
  : State * (HTTPException + RecentResponse) :=
  get_recent_traces (rc_now c) (rc_limit c) (rc_since_id c) (rc_source c) st.

(** A sequence of calls, each on the state the previous one left. *)
Fixpoint serve_recent (calls : list RecentCall) (st : State)
  : State * list (HTTPException + RecentResponse) :=
  match calls with
  | [] => (st, [])
  | c :: rest =>
      let '(st1, r) := call_recent c st in
      let '(st2, rs) := serve_recent rest st1 in
      (st2, r :: rs)
  end.

Definition is_rate_limited (r : HTTPException + RecentResponse) : bool :=
  match r with
  | inl e => bool_decide (status_code e = 429)
  | inr _ => false
  end.

(** *** GET /traces/{correlation_id}/stream *)

(** What the generator yields: a [data:] event carrying a trace, the
    [: keepalive] comment, and the final [data: {"type": "timeout"}]. *)
Inductive Event :=
| Data (trace : TraceEntry)
| Keepalive
| TimeoutMarker.

#[export] Instance Event_eq_dec : EqDecision Event.
Proof. solve_decision. Defined.

(** How a run of the generator ends. *)
Inductive Exit :=
| Completed      (* ran off its end *)
| Raised         (* an exception left it *)
| Closed         (* closed by the consumer at a yield: client disconnect *)
| Suspended.     (* still waiting when the script ends *)

#[export] Instance Exit_eq_dec : EqDecision Exit.
Proof. solve_decision. Defined.

(** What other tasks may do to the broadcast tables while the
    generator is suspended. *)
Inductive Other :=
| OtherNotify (trace : TraceEntry)
| OtherSubscribe (now : Z) (correlation_id : string)
| OtherUnsubscribe (correlation_id : string) (queue : nat)
| OtherSweep (now : Z).

Definition run_other (o : Other) (b : Broadcast) : Broadcast :=
  match o with
  | OtherNotify trace => notify_subscribers trace b
  | OtherSubscribe now cid => (subscribe now cid b).1
  | OtherUnsubscribe cid q => unsubscribe cid q b
  | OtherSweep now => cleanup_stale_subscribers now b
  end.

Definition run_others (os : list Other) (b : Broadcast) : Broadcast :=
  foldl (λ b o, run_other o b) b os.

(** One pass through the [while] loop as the environment drives it. *)
Record Turn := mkTurn {
  turn_now : Z;               (* the clock read by the loop test *)
  turn_others : list Other;   (* other tasks running during the wait *)
  turn_fault : bool;          (* the wait raises, and not TimeoutError *)
  turn_close : bool           (* the consumer closes at the yield *)
}.

Record Script := mkScript {
  query_fault : bool;         (* [query_traces] raises *)
  replay_close : option nat;  (* the consumer closes at that replayed event *)
  subscribe_now : Z;          (* the clock inside [subscribe] *)
  start_now : Z;              (* the clock read for [deadline] *)
  turns : list Turn
}.

Record Outcome := mkOutcome {
  emitted : list Event;
  exit : Exit;
  handle : option nat;        (* the queue [subscribe] returned, if reached *)
  final : Broadcast
}.

(** The body of [try: ... finally: unsubscribe(...)] followed by the
    last [yield]. *)
Fixpoint stream_loop (correlation_id : string) (queue : nat) (deadline : Z)
    (ts : list Turn) (b : Broadcast) (out : list Event) : Outcome :=
  match ts with
  | [] => mkOutcome out Suspended (Some queue) b
  | tn :: rest =>
      if turn_now tn <? deadline then
        let b1 := run_others (turn_others tn) b in
        if turn_fault tn
        then mkOutcome out Raised (Some queue)
                       (unsubscribe correlation_id queue b1)
        else
          match queue_get queue b1 with
          | Some (trace, b2) =>
              let out' := out ++ [Data trace] in
              if turn_close tn
              then mkOutcome out' Closed (Some queue)
                             (unsubscribe correlation_id queue b2)
              else stream_loop correlation_id queue deadline rest b2 out'
          | None =>                                   (* asyncio.TimeoutError *)
              let out' := out ++ [Keepalive] in
              if turn_close tn
              then mkOutcome out' Closed (Some queue)
                             (unsubscribe correlation_id queue b1)
              else stream_loop correlation_id queue deadline rest b1 out'
          end
      else
        mkOutcome (out ++ [TimeoutMarker]) Completed (Some queue)
                  (unsubscribe correlation_id queue b)
  end.

(** [event_generator] of [stream_traces].  The replay runs before
    [subscribe]: a run that ends there holds no registration. *)
Definition event_generator (correlation_id : string) (timeout : Z)
    (sc : Script) (st : State) : Outcome :=
  if query_fault sc then mkOutcome [] Raised None (broadcast st)
  else
    let existing := query_traces correlation_id None None (table st) in
    let closed_in_replay :=
      match replay_close sc with
      | Some n => if (n <? length existing)%nat then Some n else None
      | None => None
      end in
    match closed_in_replay with
    | Some n =>
        mkOutcome (Data <$> take (S n) existing) Closed None (broadcast st)
    | None =>
        let '(b, queue) := subscribe (subscribe_now sc) correlation_id
                                     (broadcast st) in
        let deadline := start_now sc + seconds timeout in
        stream_loop correlation_id queue deadline (turns sc) b
                    (Data <$> existing)
    end.

(** The handle is registered under no id. *)
Definition unregistered (queue : nat) (b : Broadcast) : Prop :=
  ∀ cid bucket, subscribers b !! cid = Some bucket → queue ∉ bucket.

(** *** GET /traces/{correlation_id} *)

Record AdaptiveHint := mkAdaptiveHint {
  ah_previous_state : string;
  ah_current_state : string;
  ah_message : string;
  ah_retry_after_seconds : Z
}.

(** [TraceQueryResponse.model_dump()] with the optional
    ["adaptive_hint"] key. *)
Record TracesResponse := mkTracesResponse {
  tr_correlation_id : string;
  tr_traces : list TraceEntry;
  tr_count : Z;
  tr_complete : bool;
  tr_adaptive_hint : option AdaptiveHint
}.

(** [sum(1 for t in traces if t.direction == d)] *)
Definition count_direction (d : string) (traces : list TraceEntry) : Z :=
  Z.of_nat (length (filter (λ t, direction t = d) traces)).

(** [get_traces]: reads the store, writes the controller. *)
Definition get_traces (ADAPTIVE_HOT_TTL : Z) (now : Z) (correlation_id : string)
    (source : option string) (c : Controller) (t : Table)
  : Controller * TracesResponse :=
  let previous_state := get_state correlation_id c in
  let c' := (mark_hot ADAPTIVE_HOT_TTL now correlation_id c).1 in
  let traces := query_traces correlation_id source None t in
  let entries := count_direction "->" traces in
  let exits := count_direction "<-" traces in
  let complete := (0 <? entries) && (entries =? exits) in
  let hint :=
    if bool_decide (previous_state = "cold")
    then Some (mkAdaptiveHint "cold" "hot"
                 "Tracing activated. Previous traces may be incomplete (COLD mode). Full recording started."
                 45)
    else None in
  (c', mkTracesResponse correlation_id traces (Z.of_nat (length traces))
                        complete hint).

(** *** GET /stats/sources *)

(** A stable insertion sort: [a] is placed in front of the first
    element [x] with [before a x]. *)
Fixpoint insert_sorted {A} (before : A → A → bool) (a : A) (l : list A)
  : list A :=
  match l with
  | [] => [a]
  | x :: l' => if before a x then a :: l else x :: insert_sorted before a l'
  end.

Definition stable_sort {A} (before : A → A → bool) (l : list A) : list A :=
  foldr (insert_sorted before) [] l.

Record SourceStat := mkSourceStat {
  ss_source_id : string;
  ss_total : Z;
  ss_rpm : Z;
  ss_rp5m : Z
}.

(** [sorted(set(list(totals.keys()) + list(window.keys())))] *)
Definition source_ids (st : State) : list string :=
  stable_sort String.leb
    (elements (dom (source_ingest_totals st) ∪ dom (source_ingest_window st))).

Definition source_stat (now : Z) (st : State) (sid : string) : SourceStat :=
  let window := default [] (source_ingest_window st !! sid) in
  mkSourceStat sid (default 0 (source_ingest_totals st !! sid))
               (count_within now (seconds 60) window)
               (Z.of_nat (length window)).

(** [stats_sources]: the ["sources"] list; [sort(key=rpm, reverse=True)]
    is stable, so sources of equal rpm stay in name order. *)
Definition stats_sources (now : Z) (st : State) : list SourceStat :=
  stable_sort (λ a x, ss_rpm x <=? ss_rpm a)
              (source_stat now st <$> source_ids st).

(** *** DELETE /cleanup *)

Definition force_cleanup (TRACEHUB_RETENTION_HOURS : Z) (now : Z) (st : State)
  : State * Z :=
  let '(t', deleted) := cleanup_old_traces TRACEHUB_RETENTION_HOURS now (table st) in
  (mkState t' (stats st) (recent_rate_window st) (source_ingest_window st)
           (source_ingest_totals st) (broadcast st),
   deleted).

End Endpoints.
Export Endpoints.

(** ** app.py: the maintenance loop *)

Module App.

(** Everything the process holds: the tables of [config.py] and the
    store, and the controller of [adaptive.py]. *)
Record Server := mkServer {
  sv_state : State;
  sv_controller : Controller
}.

(** The clock as each step of one wake-up of [cleanup_loop] reads it. *)
Record Wake := mkWake {
  wake_cooldown : Z;        (* inside [cooldown_tick] *)
  wake_sweep : Z;           (* inside [cleanup_stale_subscribers] *)
  wake_trim : Z;            (* [now = time.time()] before the trims *)
  wake_reap : Z             (* inside [cleanup_old_traces] *)
}.

(** [_recent_rate_window[:] = [t for t in ... if now - t < 60]] *)
Definition trim_rate_window (now : Z) (window : list Z) : list Z :=
  filter (λ t, now - t < seconds 60) window.

(** The loop over [list(_source_ingest_window)]: each list keeps its
    last five minutes, and a list left empty is deleted. *)
Definition trim_source_windows (now : Z) (windows : gmap string (list Z))
  : gmap string (list Z) :=
  omap (λ w, match filter (λ t, now - t < seconds 300) w with
             | [] => None
             | w' => Some w'
             end) windows.

Section WithSettings.

Variables (ADAPTIVE_WARM_TTL TRACEHUB_RETENTION_HOURS : Z).

(** The body of [while True] after the sleep, [tick] already
    incremented. *)
Definition maintenance (tick : Z) (w : Wake) (sv : Server) : Server :=
  let c1 := cooldown_tick ADAPTIVE_WARM_TTL (wake_cooldown w) (sv_controller sv) in
  let st := sv_state sv in
  let st1 :=
    if bool_decide (tick `mod` 6 = 0)
    then mkState (table st) (stats st)
                 (trim_rate_window (wake_trim w) (recent_rate_window st))
                 (trim_source_windows (wake_trim w) (source_ingest_window st))
                 (source_ingest_totals st)
                 (cleanup_stale_subscribers (wake_sweep w) (broadcast st))
    else st in
  let st2 :=
    if bool_decide (tick `mod` 360 = 0)
    then mkState (cleanup_old_traces TRACEHUB_RETENTION_HOURS (wake_reap w)
                                     (table st1)).1
                 (stats st1) (recent_rate_window st1) (source_ingest_window st1)
                 (source_ingest_totals st1) (broadcast st1)
    else st1 in
  mkServer st2 c1.


End WithSettings.

End App.
Export App.

(** ** client.py: the producer-side sender *)

Module Client.

(** What one POST of a batch comes to: a response with a status code,
    or an exception from the HTTP client. *)
Inductive Reply :=
| Status (code : Z)
| Raises.

(** What [_send_batch] does, in order. *)
Inductive Act :=
| Post
| Sleep (ms : Z)
| PrintAuthFailed (code : Z)
| PrintIngestFailed (code : Z)
| PrintGaveUp.

#[export] Instance Act_eq_dec : EqDecision Act.
Proof. solve_decision. Defined.

(** The [for attempt in range(retry_count + 1)] loop with [remaining]
    rounds to go; [reply k] answers the POST of attempt [k]. *)
Fixpoint attempts (retry_count : Z) (reply : nat → Reply)
    (remaining : nat) (attempt : nat) : list Act :=
  match remaining with
  | O => []
  | S k =>
      Post ::
      match reply attempt with
      | Status code =>
          if bool_decide (code = 200) then []
          else if bool_decide (code = 401 ∨ code = 403)
               then [PrintAuthFailed code]
          else PrintIngestFailed code
               :: attempts retry_count reply k (S attempt)
      | Raises =>
          if bool_decide (Z.of_nat attempt = retry_count)
          then PrintGaveUp :: attempts retry_count reply k (S attempt)
          else Sleep (100 * (Z.of_nat attempt + 1))
               :: attempts retry_count reply k (S attempt)
      end
  end.

(** [TraceHubClient._send_batch]. *)
Definition send_batch (retry_count : Z) (reply : nat → Reply)
    (batch : list TraceEntry) : list Act :=
  match batch with
  | [] => []
  | _ => attempts retry_count reply (Z.to_nat (retry_count + 1)) 0
  end.

(** One turn of the [while] loop of [_sender_loop]: what
    [queue.get(timeout=0.1)] gave and the clock read after it. *)
Record Spin := mkSpin {
  spin_item : option TraceEntry;
  spin_now : Z
}.

(** [_sender_loop] from a given [batch] and [last_flush]: the batches
    handed to [_send_batch], in order.  The list of spins ends when the
    loop condition fails; the final flush follows. *)
Fixpoint sender_loop_from (batch_size flush_interval : Z) (spins : list Spin)
    (batch : list TraceEntry) (last_flush : Z) : list (list TraceEntry) :=
  match spins with
  | [] => match batch with [] => [] | _ => [batch] end
  | sp :: rest =>
      let batch1 := match spin_item sp with
                    | Some entry => batch ++ [entry]
                    | None => batch
                    end in
      let nonempty := match batch1 with [] => false | _ => true end in
      let should_flush :=
        (batch_size <=? Z.of_nat (length batch1))
        || (nonempty && (flush_interval <=? spin_now sp - last_flush)) in
      if should_flush && nonempty
      then batch1 :: sender_loop_from batch_size flush_interval rest [] (spin_now sp)
      else sender_loop_from batch_size flush_interval rest batch1 last_flush
  end.

(** [TraceHubClient._sender_loop]: [started] is the clock read before
    the loop. *)
Definition sender_loop (batch_size flush_interval : Z) (started : Z)
    (spins : list Spin) : list (list TraceEntry) :=
  sender_loop_from batch_size flush_interval spins [] started.

(** The number of POST requests in a run of [_send_batch]. *)
Definition posts (acts : list Act) : nat :=
  length (filter (λ a, a = Post) acts).

End Client.
Export Client.

(** ** The properties under study, as predicates on runs *)

Module Properties.

(** Submitting [e] at [now1] and again at [now2]: the table after both
    calls and the flag the second call returns. *)
Definition submit_twice (now1 now2 : Z) (e : TraceEntry) (t : Table) (s : Stats)
  : Table * bool :=
  let '(t1, s1, _) := insert_trace now1 e t s in
  let '(t2, _, inserted2) := insert_trace now2 e t1 s1 in
  (t2, inserted2).

(** One row under the identity of [e], and the second call reports
    [inserted = false]. *)
Definition idempotent_at (now1 now2 : Z) (e : TraceEntry) (t : Table) (s : Stats)
  : Prop :=
  (submit_twice now1 now2 e t s).2 = false
  ∧ length (rows_with (entry_identity e) (submit_twice now1 now2 e t s).1) = 1%nat.

(** The submission was absorbed as a soft duplicate: the UPDATE
    refreshed at least one row, and the dedup counter moved. *)
Definition absorbed (now : Z) (e : TraceEntry) (t : Table) (s : Stats) : Prop :=
  (insert_trace now e t s).1.2 = bump_deduped s.

(** The two entries are announcements of one event. *)
Definition same_soft_key (e1 e2 : TraceEntry) : Prop :=
  source_id e1 = source_id e2 ∧ correlation_id e1 = correlation_id e2
  ∧ endpoint e1 = endpoint e2 ∧ direction e1 = direction e2.

(** Submitting [e1] at [now1] then [e2] at [now2] adds one row in all,
    that row carries [stamp], the second call reports
    [inserted = false] and the dedup counter moves by one. *)
Definition collapses_with (stamp : Z) (now1 now2 : Z) (e1 e2 : TraceEntry)
    (t : Table) (s : Stats) : Prop :=
  let '(t1, s1, _) := insert_trace now1 e1 t s in
  let '(t2, s2, inserted2) := insert_trace now2 e2 t1 s1 in
  (∃ r, rows t2 = rows t ++ [r] ∧ r_timestamp r = stamp)
  ∧ inserted2 = false
  ∧ ingest_deduped s2 = Some (default 0 (ingest_deduped s1) + 1).

(** The cooldown ticks that have fired by time [T]. *)
Definition ticks_until (T : Z) (ticks : list Z) : list Z :=
  filter (λ tk, tk <= T) ticks.

(** The state at time [T] of an id marked HOT at [t0], with HOT TTL
    300 s and WARM TTL 1500 s, under a schedule of ticks. *)
Definition state_at (ticks : list Z) (t0 : Z) (cid : string) (c : Controller)
    (T : Z) : string :=
  get_state cid (run_ticks 1500 (ticks_until T ticks) (mark_hot 300 t0 cid c).1).

(** The schedule counted from the mark: HOT before [t0 + 300 s], WARM
    from the first tick at or after that through [t0 + 1799 s], absent
    from [t0 + 1800 s] on. *)
Definition decays_by_1800 (ticks : list Z) (t0 : Z) (cid : string)
    (c : Controller) : Prop :=
  (∀ T, T < t0 + seconds 300 → state_at ticks t0 cid c T = "hot")
  ∧ (∀ T tk, tk ∈ ticks → t0 + seconds 300 <= tk <= T →
             T <= t0 + seconds 1799 → state_at ticks t0 cid c T = "warm")
  ∧ (∀ T, t0 + seconds 1800 <= T → state_at ticks t0 cid c T = "cold").

(** If the /recent call is rejected, the rate window, the counters and
    the stored traces are as they were. *)
Definition no_mutation_if_rejected (now limit : Z) (since_id : option Z)
    (source : option string) (st : State) : Prop :=
  let '(st', r) := get_recent_traces now limit since_id source st in
  is_rate_limited r = true →
  recent_rate_window st' = recent_rate_window st
  ∧ stats st' = stats st
  ∧ table st' = table st.

(** The number of traces of a batch that come from [sid]. *)
Definition count_source (sid : string) (traces : list (Z * TraceEntry)) : nat :=
  length (filter (λ p, source_id p.2 = sid) traces).

(** The handler let go of its queue, and what it emitted ends with the
    terminal marker. *)
Definition cleaned_up (o : Outcome) : Prop :=
  ∀ q, handle o = Some q → unregistered q (final o).

Definition ends_with_marker (o : Outcome) : Prop :=
  last (emitted o) = Some TimeoutMarker.

(** The event carries no trace of another correlation id. *)
Definition for_id (cid : string) (ev : Event) : Prop :=
  match ev with
  | Data trace => correlation_id trace = cid
  | _ => True
  end.

End Properties.
Export Properties.

(** ** Sample data *)

Module Samples.

(** The ENTRY event of the end-to-end scenario. *)
Definition e0 : TraceEntry :=
  mkTraceEntry "WK" "c1" 1000 "a" "->" "RPC" "/foo" None "unknown" None.

(** The same event announced again: later stamp, other suffix. *)
Definition e1 : TraceEntry :=
  mkTraceEntry "WK" "c1" 2000 "b" "->" "RPC" "/foo" None "unknown" None.

(** An announcement of the same event whose timestamp is NaN. *)
Definition e_nan : TraceEntry :=
  mkTraceEntry "WK" "c1" NaN "n" "->" "RPC" "/foo" None "unknown" None.

(** The store after [e0] arrived at clock 0. *)
Definition stored_e0 : Table := (insert_trace 0 e0 empty_table (stats0 0)).1.1.

(** Two listeners on "c1" (handles 0 and 1), one on "c2" (handle 2). *)
Definition three_listeners : Broadcast :=
  (subscribe 30 "c2" (subscribe 20 "c1" (subscribe 10 "c1" broadcast0).1).1).1.

(** The same registrations with the queue of handle 0 saturated. *)
Definition saturated : Broadcast :=
  mkBroadcast (subscribers three_listeners)
              (subscriber_timestamps three_listeners)
              (<[0%nat := replicate 100 e0]> (queues three_listeners))
              (next_queue three_listeners).

(** Thirty /recent requests on record, all at clock 0. *)
Definition busy : State :=
  mkState empty_table (stats0 0) (replicate 30 0) ∅ ∅ broadcast0.

(** Thirty-one calls one second apart, from 0 s to 30 s. *)
Definition burst : list RecentCall :=
  (λ k, mkRecentCall (seconds (Z.of_nat k)) 200 None None) <$> List.seq 0 31.

(** A stream whose wait is cancelled on the first pass through the
    loop. *)
Definition cancelled : Script :=
  mkScript false None 0 0 [mkTurn 1000 [] true false].

(** A stream whose client goes away at the first keepalive. *)
Definition disconnected : Script :=
  mkScript false None 0 0 [mkTurn 1000 [] false true].

(** A stream that sees one trace arrive, idles for a second and finds
    its 60 s over. *)
Definition quiet_minute : Script :=
  mkScript false None 0 0
    [mkTurn 1000 [OtherNotify e0] false false;
     mkTurn 2000 [] false false;
     mkTurn 60000 [] false false].

End Samples.

(** * Facts *)

Lemma whole_seconds_le now : whole_seconds now <= now.
Proof. unfold whole_seconds, seconds. pose proof (Z.mul_div_le now 1000). lia. Qed.

Lemma whole_seconds_gt now : now - seconds 1 < whole_seconds now.
Proof.
  unfold whole_seconds, seconds.
  pose proof (Z.mod_pos_bound now 1000). pose proof (Z.div_mod now 1000). lia.
Qed.

(** *** Facts about the store *)

Section DbFacts.

Implicit Types (trace e : TraceEntry) (r : Row) (rs : list Row) (t : Table)
  (s : Stats).

Lemma unique_ok_NoDup rs : unique_ok rs = true ↔ NoDup (identity_of <$> rs).
Proof. unfold unique_ok. apply bool_decide_eq_true. Qed.

Lemma has_identity_true k r : has_identity k r = true ↔ identity_of r = k.
Proof. unfold has_identity. apply bool_decide_eq_true. Qed.

Lemma existsb_has_identity k rs :
  existsb (has_identity k) rs = true ↔ k ∈ identity_of <$> rs.
Proof.
  rewrite existsb_exists, list_elem_of_fmap. split.
  - intros (r & Hin & Hk). exists r. apply has_identity_true in Hk.
    split; [done | by apply list_elem_of_In].
  - intros (r & -> & Hin). exists r.
    split; [by apply list_elem_of_In | by apply has_identity_true].
Qed.



(** A float that is not NaN is the number it stands for. *)
Lemma number_spec (f : float) : is_nan f = false → f = Num (number f).
Proof. by destruct f. Qed.



(** A row that is no soft duplicate now is none later either. *)
Lemma soft_match_mono trace now1 now2 r :
  now1 <= now2 → soft_match trace now1 r = false →
  soft_match trace now2 r = false.
Proof.
  unfold soft_match. intros Hle.
  rewrite !andb_false_iff, !bool_decide_eq_false. intros H.
  destruct H as [[[[H|H]|H]|H]|H]; auto 6.
  right. lia.
Qed.

Lemma update_row_no_match trace now rs :
  Forall (λ r, soft_match trace now r = false) rs →
  update_row trace now <$> rs = rs.
Proof.
  induction 1 as [|r rs Hr _ IH]; [done|].
  rewrite fmap_cons, IH. unfold update_row. by rewrite Hr.
Qed.

Lemma filter_no_match trace now rs :
  Forall (λ r, soft_match trace now r = false) rs →
  filter (λ r, soft_match trace now r = true) rs = [].
Proof.
  induction 1 as [|r rs Hr _ IH]; [done|].
  rewrite filter_cons, decide_False by congruence. done.
Qed.

Lemma filter_no_match_inv trace now rs :
  filter (λ r, soft_match trace now r = true) rs = [] →
  Forall (λ r, soft_match trace now r = false) rs.
Proof.
  induction rs as [|r rs IH]; [constructor|].
  rewrite filter_cons. destruct (soft_match trace now r) eqn:Hr.
  - rewrite decide_True by done. discriminate.
  - rewrite decide_False by congruence. intros H. constructor; auto.
Qed.

Lemma sql_update_no_match trace now rs :
  Forall (λ r, soft_match trace now r = false) rs →
  unique_ok rs = true →
  sql_update trace now rs = Some (rs, 0).
Proof.
  intros Hno Hu. unfold sql_update.
  rewrite (update_row_no_match _ _ _ Hno), Hu, (filter_no_match _ _ _ Hno).
  by destruct (timestamp trace).
Qed.

(** The UPDATE with a timestamp that is a number. *)
Lemma sql_update_number trace now rs :
  is_nan (timestamp trace) = false →
  sql_update trace now rs
  = if unique_ok (update_row trace now <$> rs)
    then Some (update_row trace now <$> rs,
               Z.of_nat (length (filter (λ r, soft_match trace now r = true) rs)))
    else None.
Proof. unfold sql_update. by destruct (timestamp trace). Qed.

(** Only the last row is a soft duplicate. *)
Lemma sql_update_last trace now rs n :
  is_nan (timestamp trace) = false →
  Forall (λ r, soft_match trace now r = false) rs →
  soft_match trace now n = true →
  sql_update trace now (rs ++ [n])
  = if unique_ok (rs ++ [refresh trace now n])
    then Some (rs ++ [refresh trace now n], 1) else None.
Proof.
  intros Hnum Hno Hn. rewrite (sql_update_number _ _ _ Hnum).
  rewrite fmap_app, (update_row_no_match _ _ _ Hno).
  cbn [fmap list_fmap]. unfold update_row. rewrite Hn.
  rewrite filter_app, (filter_no_match _ _ _ Hno).
  rewrite filter_cons, decide_True by done.
  rewrite filter_nil. done.
Qed.

(** [insert_trace] when no stored row is a soft duplicate: the hard
    insert decides, and draws an id whether or not it stores a row. *)
Lemma insert_trace_no_match now trace t s :
  Forall (λ r, soft_match trace now r = false) (rows t) →
  unique_ok (rows t) = true →
  insert_trace now trace t s
  = if is_nan (timestamp trace)
       || existsb (has_identity (entry_identity trace)) (rows t)
    then (mkTable (rows t) (last_id t + 1), s, false)
    else (mkTable (rows t ++ [new_row trace now (last_id t + 1)]) (last_id t + 1),
          s, true).
Proof.
  intros Hno Hu. unfold insert_trace.
  rewrite (sql_update_no_match _ _ _ Hno Hu). cbn [Z.ltb Z.compare].
  unfold sql_insert_or_ignore. cbn [rows last_id].
  by destruct (is_nan _ || existsb _ (rows t)).
Qed.

(** A submission reported as inserted met no soft duplicate and no row
    of its identity, and appended its row. *)
Lemma insert_trace_true now trace t s t' s' :
  insert_trace now trace t s = (t', s', true) →
  Forall (λ r, soft_match trace now r = false) (rows t)
  ∧ existsb (has_identity (entry_identity trace)) (rows t) = false
  ∧ t' = mkTable (rows t ++ [new_row trace now (last_id t + 1)]) (last_id t + 1)
  ∧ s' = s.
Proof.
  unfold insert_trace. intros Hcall.
  destruct (sql_update trace now (rows t)) as [[rs' rowcount]|] eqn:Hup;
    [|discriminate].
  destruct (0 <? rowcount) eqn:Hc; [discriminate|].
  apply Z.ltb_ge in Hc.
  assert (Hf : filter (λ r, soft_match trace now r = true) (rows t) = []
               ∧ rs' = rows t ∧ rowcount = 0).
  { revert Hup. unfold sql_update.
    destruct (timestamp trace).
    - destruct (unique_ok _); [|discriminate]. intros [= <- <-].
      destruct (filter _ (rows t)) eqn:Hf; [|cbn [length] in Hc; lia].
      split; [done|]. split; [|done].
      apply update_row_no_match. by apply filter_no_match_inv.
    - destruct (filter _ (rows t)); [|discriminate]. by intros [= <- <-]. }
  destruct Hf as (Hf & -> & ->).
  revert Hcall. unfold sql_insert_or_ignore. cbn [rows last_id].
  destruct (is_nan (timestamp trace)); [cbn; intros [=]|]. cbn [orb].
  destruct (existsb _ (rows t)) eqn:Hex.
  - cbn. intros [=].
  - cbn. intros [= <- <-]. split; [by apply filter_no_match_inv|done].
Qed.

(** Only an entry whose timestamp is a number is ever inserted. *)
Lemma insert_trace_true_number now trace t s :
  (insert_trace now trace t s).2 = true → is_nan (timestamp trace) = false.
Proof.
  unfold insert_trace.
  destruct (sql_update trace now (rows t)) as [[rs' rowcount]|] eqn:Hup;
    [|discriminate].
  destruct (0 <? rowcount) eqn:Hc; [discriminate|].
  unfold sql_insert_or_ignore.
  destruct (is_nan (timestamp trace)); [|done].
  cbn. apply Z.ltb_ge in Hc. intros H. apply Z.ltb_lt in H. lia.
Qed.

(** An entry whose timestamp is NaN is refused: nothing is stored,
    nothing is refreshed, no counter moves. *)
Lemma insert_trace_nan now trace t s :
  is_nan (timestamp trace) = true →
  rows (insert_trace now trace t s).1.1 = rows t
  ∧ (insert_trace now trace t s).1.2 = s
  ∧ (insert_trace now trace t s).2 = false.
Proof.
  intros Hnan. unfold insert_trace, sql_update, sql_insert_or_ignore.
  destruct (timestamp trace); [discriminate|].
  by destruct (filter _ (rows t)).
Qed.

Lemma new_row_identity trace now id :
  is_nan (timestamp trace) = false →
  identity_of (new_row trace now id) = entry_identity trace.
Proof.
  intros Hnum. unfold identity_of, entry_identity, new_row. cbn.
  by rewrite <- (number_spec _ Hnum).
Qed.

Lemma new_row_soft_match trace trace' now now' id :
  soft_match trace' now' (new_row trace now id)
  = bool_decide (source_id trace = source_id trace')
    && bool_decide (correlation_id trace = correlation_id trace')
    && bool_decide (endpoint trace = endpoint trace')
    && bool_decide (direction trace = direction trace')
    && bool_decide (now' - seconds 300 < whole_seconds now).
Proof. done. Qed.

Lemma unique_ok_snoc_new rs e now id :
  is_nan (timestamp e) = false →
  unique_ok rs = true →
  existsb (has_identity (entry_identity e)) rs = false →
  unique_ok (rs ++ [new_row e now id]) = true.
Proof.
  rewrite !unique_ok_NoDup. intros Hnum Hnd Hex.
  rewrite fmap_app. cbn [fmap list_fmap]. rewrite new_row_identity by done.
  apply NoDup_app. split; [done|]. split; [|apply NoDup_singleton].
  intros k Hk ->%list_elem_of_singleton.
  apply existsb_has_identity in Hk. congruence.
Qed.

(** The uniqueness constraint after [insert_trace]. *)
Lemma insert_trace_unique now e t s :
  unique_ok (rows t) = true →
  unique_ok (rows (insert_trace now e t s).1.1) = true.
Proof.
  intros Hu. unfold insert_trace.
  destruct (sql_update e now (rows t)) as [[rs' rowcount]|] eqn:Hup; [|done].
  assert (Hu' : unique_ok rs' = true).
  { revert Hup. unfold sql_update. destruct (timestamp e).
    - destruct (unique_ok (update_row e now <$> rows t)) eqn:Hu'; [|discriminate].
      by intros [= <- _].
    - destruct (filter _ (rows t)); [|discriminate]. by intros [= <- _]. }
  destruct (0 <? rowcount); [done|].
  unfold sql_insert_or_ignore. cbn [rows last_id].
  destruct (is_nan (timestamp e)) eqn:Hnan; [done|]. cbn [orb].
  destruct (existsb _ rs') eqn:Hex; cbn [fst snd rows]; [done|].
  by apply unique_ok_snoc_new.
Qed.

(** A soft duplicate that moves the dedup counter changes the counters. *)
Lemma bump_deduped_neq s : bump_deduped s ≠ s.
Proof.
  intros H. apply (f_equal ingest_deduped) in H. cbn in H.
  destruct (ingest_deduped s) as [k|]; [|discriminate].
  injection H as H. cbn in H. lia.
Qed.

(** What an absorbed submission does. *)
Lemma absorbed_spec now e t s :
  absorbed now e t s →
  is_nan (timestamp e) = false
  ∧ unique_ok (update_row e now <$> rows t) = true
  ∧ (∃ r, r ∈ rows t ∧ soft_match e now r = true)
  ∧ insert_trace now e t s
    = (mkTable (update_row e now <$> rows t) (last_id t), bump_deduped s, false).
Proof.
  unfold absorbed, insert_trace. intros Habs.
  destruct (is_nan (timestamp e)) eqn:Hnan.
  { destruct (insert_trace_nan now e t s Hnan) as (_ & Hs & _).
    unfold insert_trace in Hs. rewrite Hs in Habs.
    by destruct (bump_deduped_neq s). }
  revert Habs. rewrite (sql_update_number _ _ _ Hnan).
  destruct (unique_ok _) eqn:Hu.
  2:{ cbn. intros H. by destruct (bump_deduped_neq s). }
  destruct (0 <? _) eqn:Hc.
  - intros _. split; [done|]. split; [done|]. split; [|done].
    apply Z.ltb_lt in Hc.
    destruct (filter _ (rows t)) as [|r l] eqn:Hf; [cbn in Hc; lia|].
    assert (Hin : r ∈ filter (λ r, soft_match e now r = true) (rows t))
      by (rewrite Hf; left).
    apply list_elem_of_filter in Hin as [Hm Hr]. by exists r.
  - unfold sql_insert_or_ignore.
    destruct (_ || _); cbn; intros H; by destruct (bump_deduped_neq s).
Qed.




End DbFacts.

(** * The store: idempotence and soft de-duplication *)

Module DbExamples.

Example insert_fresh :
  insert_trace 5500 Samples.e0 empty_table (stats0 0)
  = (mkTable [new_row Samples.e0 5500 1] 1, stats0 0, true).
Proof. vm_compute. reflexivity. Qed.

Example insert_again_fresh :
  insert_trace 6000 Samples.e0 (mkTable [new_row Samples.e0 5500 1] 1) (stats0 0)
  = (mkTable [refresh Samples.e0 6000 (new_row Samples.e0 5500 1)] 1,
     bump_deduped (stats0 0), false).
Proof. vm_compute. reflexivity. Qed.

(** An ignored hard duplicate stores nothing and uses up an id. *)
Example insert_again_stale :
  insert_trace (5500 + seconds 301) Samples.e0
    (mkTable [new_row Samples.e0 5500 1] 1) (stats0 0)
  = (mkTable [new_row Samples.e0 5500 1] 2, stats0 0, false).
Proof. vm_compute. reflexivity. Qed.

(** A soft duplicate refreshes the stored row and leaves no row under
    its own identity. *)
Example soft_duplicate_has_no_row :
  let t := (insert_trace (seconds 10) Samples.e1 Samples.stored_e0 (stats0 0)).1.1 in
  rows t = [refresh Samples.e1 (seconds 10) (new_row Samples.e0 0 1)]
  ∧ rows_with (entry_identity Samples.e1) t = [].
Proof. vm_compute. split; reflexivity. Qed.

(** A NaN timestamp is bound as NULL.  On a store without a live row
    of the key the INSERT is ignored, and draws an id; against a live
    row the UPDATE is refused, and the row keeps its timestamp and its
    storage time. *)
Example nan_is_refused :
  insert_trace 5500 Samples.e_nan empty_table (stats0 0)
  = (mkTable [] 1, stats0 0, false)
  ∧ insert_trace (seconds 10) Samples.e_nan Samples.stored_e0 (stats0 0)
    = (Samples.stored_e0, stats0 0, false).
Proof. vm_compute. split; reflexivity. Qed.

End DbExamples.

Section StoreClaims.

Implicit Types (e : TraceEntry) (t : Table) (s : Stats).


Lemma unique_ok_stored_e0 : unique_ok (rows Samples.stored_e0) = true.
Proof. vm_compute. reflexivity. Qed.



(** It fails as well for a NaN timestamp: neither submission stores a
    row. *)
Example nan_is_not_idempotent :
  ¬ idempotent_at 5500 7500 Samples.e_nan empty_table (stats0 0).
Proof. vm_compute. intros [_ H]. discriminate H. Qed.

Lemma soft_match_same_key e1 e2 now r :
  same_soft_key e1 e2 → soft_match e2 now r = soft_match e1 now r.
Proof. intros (Hs & Hc & He & Hd). unfold soft_match. by rewrite Hs, Hc, He, Hd. Qed.

Lemma soft_match_refreshed e1 e2 now1 now2 r :
  same_soft_key e1 e2 → soft_match e1 now1 r = true → now2 - seconds 300 < now1 →
  soft_match e2 now2 (refresh e1 now1 r) = true.
Proof.
  intros Hkey Hm Hfresh. rewrite (soft_match_same_key _ _ _ _ Hkey).
  revert Hm. unfold soft_match, refresh. cbn.
  rewrite !andb_true_iff, !bool_decide_eq_true. intros [[[[? ?] ?] ?] _].
  by repeat split.
Qed.

(** C2 (amended).  Let [e1] and [e2] agree on (source_id,
    correlation_id, endpoint, direction) and let the timestamp of [e2]
    be a number.  Let the first submission be stored: inserted as a new
    row, or absorbed by refreshing stored rows; let the second come
    less than 300 s after the storage time the first left (the clock
    of the first call, cut to whole seconds when the row was
    inserted); and let the refresh by the second not make two rows
    share (correlation_id, timestamp, suffix).  Then the second
    submission adds no row and draws no id: it sets the timestamp of
    every live row of the key to its own, whether or not that is the
    later of the two, and their storage time to its clock; there is
    such a row; it returns [inserted = false] and the dedup counter
    grows by one.  When the first was inserted and the clock has not
    gone back, the two submissions have added a single row in all. *)
Theorem C2_soft_dedup_collapses now1 now2 e1 e2 t s :
  same_soft_key e1 e2 →
  is_nan (timestamp e2) = false →
  ((insert_trace now1 e1 t s).2 = true
   ∧ now2 - seconds 300 < whole_seconds now1)
  ∨ (absorbed now1 e1 t s ∧ now2 - seconds 300 < now1) →
  unique_ok (update_row e2 now2 <$> rows (insert_trace now1 e1 t s).1.1) = true →
  let first := insert_trace now1 e1 t s in
  let second := insert_trace now2 e2 first.1.1 first.1.2 in
  second.2 = false
  ∧ ingest_deduped second.1.2 = Some (default 0 (ingest_deduped first.1.2) + 1)
  ∧ rows second.1.1 = update_row e2 now2 <$> rows first.1.1
  ∧ last_id second.1.1 = last_id first.1.1
  ∧ (∃ r, r ∈ rows second.1.1 ∧ soft_match e2 now2 r = true)
  ∧ (∀ r, r ∈ rows second.1.1 → soft_match e2 now2 r = true →
          r_timestamp r = number (timestamp e2) ∧ r_created_at r = now2)
  ∧ (first.2 = true → now1 <= now2 →
     collapses_with (number (timestamp e2)) now1 now2 e1 e2 t s).
Proof.
  intros Hkey Hnum Hstored Hclash first second.
  (* a live row of the key is there after the first call *)
  assert (Hlive : ∃ r, r ∈ rows first.1.1 ∧ soft_match e2 now2 r = true).
  { destruct Hstored as [[Hins Hfresh]|[Habs Hfresh]].
    - unfold first. destruct (insert_trace now1 e1 t s) as [[t1 s1] b1] eqn:H1.
      cbn [fst snd] in *. subst b1.
      apply insert_trace_true in H1 as (_ & _ & -> & _).
      exists (new_row e1 now1 (last_id t + 1)). split.
      + cbn [rows]. apply elem_of_app. right. by left.
      + rewrite new_row_soft_match. destruct Hkey as (Hs & Hc & He & Hd).
        by rewrite !bool_decide_eq_true_2.
    - apply absorbed_spec in Habs as (_ & _ & (r & Hr & Hm) & Hcall).
      unfold first. rewrite Hcall. cbn [fst rows].
      exists (update_row e1 now1 r). split; [by apply list_elem_of_fmap_2|].
      unfold update_row. rewrite Hm. by apply soft_match_refreshed. }
  (* so the second call is absorbed *)
  assert (Hsecond : second
            = (mkTable (update_row e2 now2 <$> rows first.1.1) (last_id first.1.1),
               bump_deduped first.1.2, false)).
  { unfold second, insert_trace. fold first in Hclash.
    rewrite (sql_update_number _ _ _ Hnum), Hclash.
    destruct Hlive as (r & Hr & Hm).
    assert (Hin : r ∈ filter (λ r, soft_match e2 now2 r = true) (rows first.1.1))
      by by apply list_elem_of_filter.
    destruct (filter _ (rows first.1.1)) as [|r0 l]; [by apply elem_of_nil in Hin|].
    done. }
  assert (Hrefreshed : ∀ r, r ∈ rows first.1.1 → soft_match e2 now2 r = true →
            soft_match e2 now2 (update_row e2 now2 r) = true).
  { intros r _ Hm. unfold update_row. rewrite Hm.
    apply (soft_match_refreshed e2 e2); [by repeat split|done|].
    unfold seconds. lia. }
  rewrite Hsecond. cbn [fst snd rows last_id ingest_deduped bump_deduped].
  split; [done|]. split; [done|]. split; [done|]. split; [done|].
  split; [|split].
  - destruct Hlive as (r & Hr & Hm). exists (update_row e2 now2 r).
    split; [by apply list_elem_of_fmap_2 | by apply Hrefreshed].
  - intros r' (r & -> & Hr)%list_elem_of_fmap. unfold update_row.
    destruct (soft_match e2 now2 r) eqn:Hm; [done|]. congruence.
  - intros Hins Hle. unfold collapses_with. clear Hlive Hrefreshed.
    subst second first.
    destruct (insert_trace now1 e1 t s) as [[t1 s1] b1] eqn:H1.
    cbn [fst snd] in *. subst b1. rewrite Hsecond. clear Hsecond Hclash.
    apply insert_trace_true in H1 as (Hno & _ & -> & ->).
    destruct Hstored as [[_ Hfresh]|[Habs _]].
    2:{ apply absorbed_spec in Habs as (_ & _ & (r & Hr & Hm) & _).
        rewrite Forall_forall in Hno. rewrite (Hno r Hr) in Hm. discriminate. }
    cbn [rows]. split; [|done].
    assert (Hno2 : Forall (λ r, soft_match e2 now2 r = false) (rows t)).
    { eapply Forall_impl; [exact Hno|]. intros r Hr.
      rewrite (soft_match_same_key _ _ _ _ Hkey). by eapply soft_match_mono. }
    rewrite fmap_app, (update_row_no_match _ _ _ Hno2). cbn [fmap list_fmap].
    eexists. split; [reflexivity|].
    unfold update_row. rewrite new_row_soft_match.
    destruct Hkey as (Hs & Hc & He & Hd).
    by rewrite !bool_decide_eq_true_2.
Qed.

(** The theorem at work on the store that holds [e0]: [e1] at 10 s is
    absorbed, and [e0], sent again at 20 s, is absorbed in turn and
    takes the row back to its own stamp. *)
Lemma C2_soft_dedup_collapses_witness :
  (insert_trace (seconds 20) Samples.e0
     (insert_trace (seconds 10) Samples.e1 Samples.stored_e0 (stats0 0)).1.1
     (insert_trace (seconds 10) Samples.e1 Samples.stored_e0 (stats0 0)).1.2).2
  = false
  ∧ ingest_deduped
      (insert_trace (seconds 20) Samples.e0
         (insert_trace (seconds 10) Samples.e1 Samples.stored_e0 (stats0 0)).1.1
         (insert_trace (seconds 10) Samples.e1 Samples.stored_e0 (stats0 0)).1.2).1.2
    = Some 2.
Proof.
  destruct (C2_soft_dedup_collapses (seconds 10) (seconds 20)
              Samples.e1 Samples.e0 Samples.stored_e0 (stats0 0))
    as (H1 & H2 & _).
  - vm_compute. auto.
  - vm_compute. reflexivity.
  - right. split; [vm_compute; reflexivity | vm_compute; reflexivity].
  - vm_compute. reflexivity.
  - split; [exact H1 | exact H2].
Defined.

(** On the empty store: [e0] at 5.5 s, its re-announcement [e1] half a
    second later, one row in all. *)
Example collapse_on_empty_store :
  collapses_with 2000 5500 6000 Samples.e0 Samples.e1 empty_table (stats0 0).
Proof. vm_compute. split; [by eexists|done]. Qed.

(** C2 as stated fails when the second announcement carries the
    earlier stamp: [e1] (stamp 2000) then [e0] (stamp 1000) ten seconds
    later leave one row whose stamp is 1000, not the later 2000. *)
Lemma C2_counterexample :
  ¬ collapses_with (Z.max (number (timestamp Samples.e1))
                          (number (timestamp Samples.e0)))
      (seconds 10) (seconds 20) Samples.e1 Samples.e0
      empty_table (stats0 0).
Proof.
  vm_compute. intros [(r & Hr & Hstamp) _].
  injection Hr as <-. discriminate Hstamp.
Qed.

(** Within the freshness window the row refreshed is found whatever
    the sub-second part of the first clock reading was. *)
Lemma fresh_within_299_seconds now1 now2 :
  now2 - now1 <= seconds 299 → now2 - seconds 300 < whole_seconds now1.
Proof. pose proof (whole_seconds_gt now1). unfold seconds in *. lia. Qed.

(** In the last second of the window it may be missed: stored at
    1000.7 s the row has storage time 1000 s, and a re-announcement at
    1300.5 s, 299.8 s later, is stored as a second row. *)
Example soft_dedup_missed_in_last_second :
  insert_trace 1300500 Samples.e1
    (insert_trace 1000700 Samples.e0 empty_table (stats0 0)).1.1 (stats0 0)
  = (mkTable [new_row Samples.e0 1000700 1; new_row Samples.e1 1300500 2] 2,
     stats0 0, true).
Proof. vm_compute. reflexivity. Qed.

(** A second announcement whose timestamp is NaN refreshes nothing:
    the UPDATE is refused, the row keeps its stamp and the dedup
    counter stays. *)
Example nan_second_is_refused :
  insert_trace 6000 Samples.e_nan
    (insert_trace 5500 Samples.e0 empty_table (stats0 0)).1.1 (stats0 0)
  = (mkTable [new_row Samples.e0 5500 1] 1, stats0 0, false).
Proof. vm_compute. reflexivity. Qed.

(** A refresh that would give two rows one identity is refused as a
    whole: a row of (c1, 2000, a) is stored and stale, the live row of
    [e0] has suffix a, and [e1] would move it to stamp 2000. *)
Example clash_is_refused :
  let stale := mkRow 1 "MA" "c1" 2000 "a" "<-" "RPC" "/bar" None "unknown" None 0 in
  let live := new_row Samples.e0 (seconds 400) 2 in
  insert_trace (seconds 410) Samples.e1 (mkTable [stale; live] 2) (stats0 0)
  = (mkTable [stale; live] 2, stats0 0, false).
Proof. vm_compute. reflexivity. Qed.

End StoreClaims.

(** * The controller: decay schedule and etag *)

Section ControllerFacts.

Variables (hot_ttl warm_ttl : Z).

Implicit Types (c : Controller) (e : entry) (o : option entry).

Lemma foldl_delete_lookup (rm : list string) (m : gmap string entry) k :
  foldl (λ m corr_id, delete corr_id m) m rm !! k
  = if decide (k ∈ rm) then None else m !! k.
Proof.
  revert m. induction rm as [|k0 rm IH]; intros m; cbn [foldl].
  - rewrite decide_False; [done|]. apply not_elem_of_nil.
  - rewrite IH. destruct (decide (k ∈ rm)) as [Hin|Hnin].
    + rewrite decide_True; [done|]. by right.
    + destruct (decide (k = k0)) as [->|Hne].
      * rewrite decide_True by left. apply lookup_delete_eq.
      * rewrite decide_False.
        -- by apply lookup_delete_ne.
        -- intros [?|?]%elem_of_cons; done.
Qed.

(** The loop body in terms of what the tick does to the entry. *)
Lemma tick_step_cases now m changed to_remove k e :
  tick_step warm_ttl now (m, changed, to_remove) (k, e)
  = match tick_entry warm_ttl now e with
    | None => (m, true, to_remove ++ [k])
    | Some e' =>
        if transitions now e then (<[k := e']> m, true, to_remove)
        else (m, changed, to_remove)
    end.
Proof.
  unfold tick_step, tick_entry, transitions.
  destruct (now <? expires_at e); cbn [negb andb]; [done|].
  destruct (bool_decide (state e = "hot")); cbn [orb]; [done|].
  by destruct (bool_decide (state e = "warm")).
Qed.

Lemma tick_entry_None now e :
  tick_entry warm_ttl now e = None → transitions now e = true.
Proof.
  unfold tick_entry, transitions.
  destruct (now <? expires_at e); cbn [negb andb]; [done|].
  destruct (bool_decide (state e = "hot")); cbn [orb]; [done|].
  by destruct (bool_decide (state e = "warm")).
Qed.

(** The scan over a list of items with distinct keys: [changed] is set
    when some item transitions, the keys of the expired WARM items go
    on [to_remove], and the expired HOT items are rewritten. *)
Lemma tick_loop_spec now (l : list (string * entry)) m changed to_remove :
  NoDup l.*1 →
  (foldl (tick_step warm_ttl now) (m, changed, to_remove) l).1.2
  = changed || existsb (λ kv, transitions now kv.2) l
  ∧ (∀ k, k ∈ (foldl (tick_step warm_ttl now) (m, changed, to_remove) l).2 ↔
          k ∈ to_remove
          ∨ ∃ e, (k, e) ∈ l ∧ tick_entry warm_ttl now e = None)
  ∧ (∀ k, (foldl (tick_step warm_ttl now) (m, changed, to_remove) l).1.1 !! k
          = match (list_to_map l : gmap string entry) !! k with
            | Some e =>
                match tick_entry warm_ttl now e with
                | Some e' => if transitions now e then Some e' else m !! k
                | None => m !! k
                end
            | None => m !! k
            end).
Proof.
  revert m changed to_remove.
  induction l as [|[k0 e0] l IH]; intros m changed to_remove Hnd.
  - cbn. split; [by rewrite orb_false_r|]. split; [|done].
    intros k. split; [auto|]. intros [?|(e & He & _)]; [done|].
    by apply elem_of_nil in He.
  - cbn [fmap list_fmap fst] in Hnd. apply NoDup_cons in Hnd as [Hk0 Hnd].
    assert (Hnone : (list_to_map l : gmap string entry) !! k0 = None).
    { by apply not_elem_of_list_to_map_1. }
    assert (Hlk : ∀ k, (list_to_map ((k0, e0) :: l) : gmap string entry) !! k
                       = if decide (k = k0) then Some e0
                         else (list_to_map l : gmap string entry) !! k).
    { intros k. cbn [list_to_map foldr]. destruct (decide (k = k0)) as [->|Hne].
      - by rewrite lookup_insert_eq.
      - by rewrite lookup_insert_ne. }
    assert (Hin : ∀ k (P : entry → Prop),
               (∃ e, (k, e) ∈ (k0, e0) :: l ∧ P e)
               ↔ (k = k0 ∧ P e0) ∨ ∃ e, (k, e) ∈ l ∧ P e).
    { intros k P. split.
      - intros (e & [[= -> ->]|He]%elem_of_cons & HP); [by left|].
        right. by exists e.
      - intros [[-> HP]|(e & He & HP)].
        + exists e0. split; [left | done].
        + exists e. split; [by right | done]. }
    cbn [foldl existsb snd]. rewrite tick_step_cases.
    destruct (tick_entry warm_ttl now e0) as [e0'|] eqn:Ht.
    + destruct (transitions now e0) eqn:Htr; cbn [orb].
      * destruct (IH (<[k0 := e0']> m) true to_remove Hnd) as (Hch & Hrm & Hm).
        split; [rewrite Hch; by rewrite orb_true_r|]. split.
        -- intros k. rewrite Hrm, Hin. split; [tauto|].
           intros [?|[[-> Hn]|?]]; [tauto|congruence|tauto].
        -- intros k. rewrite Hm, Hlk. destruct (decide (k = k0)) as [->|Hne].
           ++ rewrite Hnone, Ht, Htr. apply lookup_insert_eq.
           ++ rewrite lookup_insert_ne by done. done.
      * destruct (IH m changed to_remove Hnd) as (Hch & Hrm & Hm).
        split; [exact Hch|]. split.
        -- intros k. rewrite Hrm, Hin. split; [tauto|].
           intros [?|[[-> Hn]|?]]; [tauto|congruence|tauto].
        -- intros k. rewrite Hm, Hlk. destruct (decide (k = k0)) as [->|Hne].
           ++ by rewrite Hnone, Ht, Htr.
           ++ done.
    + rewrite (tick_entry_None _ _ Ht). cbn [orb].
      destruct (IH m true (to_remove ++ [k0]) Hnd) as (Hch & Hrm & Hm).
      split; [rewrite Hch; by rewrite orb_true_r|]. split.
      * intros k. rewrite Hrm, Hin, elem_of_app, list_elem_of_singleton.
        split; [tauto|]. intros [?|[[-> Hn]|?]]; tauto.
      * intros k. rewrite Hm, Hlk. destruct (decide (k = k0)) as [->|Hne].
        -- by rewrite Hnone, Ht.
        -- done.
Qed.

Lemma tick_entry_fixed_aux now e :
  transitions now e = false → tick_entry warm_ttl now e = Some e.
Proof.
  unfold tick_entry, transitions.
  destruct (now <? expires_at e); cbn [negb andb]; [done|].
  destruct (bool_decide (state e = "hot")); cbn [orb]; [done|].
  by destruct (bool_decide (state e = "warm")).
Qed.

(** The tick as a whole: every entry goes through [tick_entry], and the
    etag moves once if some entry transitions. *)
Lemma cooldown_tick_omap now c :
  cooldown_tick warm_ttl now c
  = mkController
      (omap (tick_entry warm_ttl now) (adaptive_state c))
      (if existsb (λ kv, transitions now kv.2) (map_to_list (adaptive_state c))
       then config_etag c + 1 else config_etag c).
Proof.
  unfold cooldown_tick.
  destruct (tick_loop_spec now (map_to_list (adaptive_state c))
              (adaptive_state c) false [] (NoDup_fst_map_to_list _))
    as (Hch & Hrm & Hm).
  destruct (foldl _ _ _) as [[m changed] to_remove].
  cbn [fst snd orb] in Hch, Hrm, Hm. subst changed. f_equal.
  apply map_eq. intros k. rewrite foldl_delete_lookup, lookup_omap.
  rewrite Hm, list_to_map_to_list.
  destruct (adaptive_state c !! k) as [e|] eqn:Hk; cbn [mbind option_bind].
  - destruct (decide (k ∈ to_remove)) as [Hin|Hnin].
    + apply Hrm in Hin as [Hin|(e' & He' & Hn)]; [by apply elem_of_nil in Hin|].
      apply elem_of_map_to_list in He'. congruence.
    + destruct (tick_entry warm_ttl now e) as [e'|] eqn:Ht.
      * destruct (transitions now e) eqn:Htr; [done|].
        apply tick_entry_fixed_aux in Htr. congruence.
      * destruct Hnin. apply Hrm. right. exists e.
        split; [by apply elem_of_map_to_list | done].
  - rewrite decide_False; [done|].
    intros [Hin|(e' & He' & _)]%Hrm; [by apply elem_of_nil in Hin|].
    apply elem_of_map_to_list in He'. congruence.
Qed.

(** An entry is left as it was exactly when the loop body does not set
    [changed]. *)
Lemma tick_entry_fixed now e :
  tick_entry warm_ttl now e = Some e ↔ transitions now e = false.
Proof.
  unfold tick_entry, transitions.
  destruct (now <? expires_at e); cbn [negb andb]; [done|].
  destruct (bool_decide_reflect (state e = "hot")) as [Hh|Hh]; cbn [orb].
  - split; [|done]. intros [= He]. rewrite <- He in Hh. discriminate Hh.
  - destruct (bool_decide_reflect (state e = "warm")); split; done.
Qed.

Lemma changed_spec now (m : gmap string entry) :
  existsb (λ kv, transitions now kv.2) (map_to_list m) = true
  ↔ ∃ k e, m !! k = Some e ∧ transitions now e = true.
Proof.
  rewrite existsb_exists. split.
  - intros ([k e] & Hin & Ht). exists k, e. split; [|done].
    by apply elem_of_map_to_list, list_elem_of_In.
  - intros (k & e & Hk & Ht). exists (k, e). split; [|done].
    by apply list_elem_of_In, elem_of_map_to_list.
Qed.

Lemma omap_tick_fixed now (m : gmap string entry) :
  omap (tick_entry warm_ttl now) m = m
  ↔ ∀ k e, m !! k = Some e → transitions now e = false.
Proof.
  split.
  - intros Heq k e Hk. apply tick_entry_fixed.
    assert (H : omap (tick_entry warm_ttl now) m !! k = m !! k) by by rewrite Heq.
    rewrite lookup_omap, Hk in H. exact H.
  - intros Hall. apply map_eq. intros k. rewrite lookup_omap.
    destruct (m !! k) as [e|] eqn:Hk; [|done]. cbn.
    apply tick_entry_fixed. by eapply Hall.
Qed.

(** The etag after a tick: one more when the state map changed, the
    same when it did not. *)
Lemma cooldown_tick_etag now c :
  config_etag (cooldown_tick warm_ttl now c)
  = if decide (adaptive_state (cooldown_tick warm_ttl now c) = adaptive_state c)
    then config_etag c else config_etag c + 1.
Proof.
  rewrite cooldown_tick_omap. cbn [adaptive_state config_etag].
  destruct (existsb _ _) eqn:Hch.
  - apply changed_spec in Hch as (k & e & Hk & Ht).
    rewrite decide_False; [done|].
    intros Heq. rewrite omap_tick_fixed in Heq.
    specialize (Heq k e Hk). congruence.
  - rewrite decide_True; [done|]. apply omap_tick_fixed.
    intros k e Hk. destruct (transitions now e) eqn:Ht; [|done].
    assert (existsb (λ kv, transitions now kv.2)
              (map_to_list (adaptive_state c)) = true) as Hex; [|congruence].
    apply changed_spec. eauto.
Qed.

Lemma tracing_disable_etag cid c :
  config_etag (tracing_disable cid c).1
  = if decide (adaptive_state (tracing_disable cid c).1 = adaptive_state c)
    then config_etag c else config_etag c + 1.
Proof.
  unfold tracing_disable.
  destruct (adaptive_state c !! cid) as [e|] eqn:Hk; cbn.
  - rewrite decide_False; [done|]. intros Heq.
    assert (H : delete cid (adaptive_state c) !! cid = adaptive_state c !! cid)
      by by rewrite Heq.
    rewrite lookup_delete_eq, Hk in H. discriminate H.
  - by rewrite decide_True.
Qed.

Lemma run_ticks_lookup ticks c cid :
  adaptive_state (run_ticks warm_ttl ticks c) !! cid
  = entry_after warm_ttl ticks (adaptive_state c !! cid).
Proof.
  revert c. induction ticks as [|now ticks IH]; intros c; [done|].
  cbn [run_ticks entry_after foldl]. unfold run_ticks in IH. rewrite IH.
  rewrite cooldown_tick_omap. cbn [adaptive_state]. by rewrite lookup_omap.
Qed.

Lemma entry_after_app ticks1 ticks2 o :
  entry_after warm_ttl (ticks1 ++ ticks2) o
  = entry_after warm_ttl ticks2 (entry_after warm_ttl ticks1 o).
Proof. apply foldl_app. Qed.

Lemma entry_after_None ticks : entry_after warm_ttl ticks None = None.
Proof. induction ticks; [done|]. cbn. exact IHticks. Qed.

(** Ticks before the expiry leave the entry alone. *)
Lemma entry_after_early ticks e :
  Forall (λ t, t < expires_at e) ticks →
  entry_after warm_ttl ticks (Some e) = Some e.
Proof.
  induction 1 as [|now ticks Hnow _ IH]; [done|].
  cbn [entry_after foldl]. cbn. unfold tick_entry.
  apply Z.ltb_lt in Hnow. rewrite Hnow. exact IH.
Qed.

Lemma tick_hot_expired now exp q :
  exp <= now →
  tick_entry warm_ttl now (mkEntry "hot" exp q)
  = Some (mkEntry "warm" (now + seconds warm_ttl) q).
Proof.
  intros Hle. unfold tick_entry. cbn.
  apply Z.ltb_ge in Hle. by rewrite Hle.
Qed.

Lemma tick_warm_expired now exp q :
  exp <= now → tick_entry warm_ttl now (mkEntry "warm" exp q) = None.
Proof.
  intros Hle. unfold tick_entry. cbn.
  apply Z.ltb_ge in Hle. by rewrite Hle.
Qed.

Lemma mark_hot_lookup now cid c :
  adaptive_state (mark_hot hot_ttl now cid c).1 !! cid
  = Some (mkEntry "hot" (now + seconds hot_ttl) now).
Proof. unfold mark_hot. cbn. apply lookup_insert_eq. Qed.

Lemma get_state_lookup cid c e :
  adaptive_state c !! cid = Some e → get_state cid c = state e.
Proof. unfold get_state. by intros ->. Qed.

(** The life of an id marked HOT at [t0] under any schedule of ticks:
    [pre] before the HOT expiry, [t1] the first tick at or after it,
    [mid] before the WARM expiry [t1 + warm_ttl], [t2] at or after it. *)
Lemma decay_schedule c cid t0 pre t1 mid t2 post :
  Forall (λ t, t < t0 + seconds hot_ttl) pre →
  t0 + seconds hot_ttl <= t1 →
  Forall (λ t, t < t1 + seconds warm_ttl) mid →
  t1 + seconds warm_ttl <= t2 →
  let c0 := (mark_hot hot_ttl t0 cid c).1 in
  adaptive_state (run_ticks warm_ttl pre c0) !! cid
  = Some (mkEntry "hot" (t0 + seconds hot_ttl) t0)
  ∧ adaptive_state (run_ticks warm_ttl (pre ++ [t1]) c0) !! cid
    = Some (mkEntry "warm" (t1 + seconds warm_ttl) t0)
  ∧ adaptive_state (run_ticks warm_ttl (pre ++ t1 :: mid) c0) !! cid
    = Some (mkEntry "warm" (t1 + seconds warm_ttl) t0)
  ∧ adaptive_state (run_ticks warm_ttl (pre ++ t1 :: mid ++ t2 :: post) c0) !! cid
    = None.
Proof.
  intros Hpre Ht1 Hmid Ht2 c0. unfold c0.
  rewrite !run_ticks_lookup, mark_hot_lookup.
  assert (H1 : entry_after warm_ttl pre (Some (mkEntry "hot" (t0 + seconds hot_ttl) t0))
               = Some (mkEntry "hot" (t0 + seconds hot_ttl) t0))
    by by apply entry_after_early.
  assert (H2 : ∀ rest,
             entry_after warm_ttl (pre ++ t1 :: rest)
               (Some (mkEntry "hot" (t0 + seconds hot_ttl) t0))
             = entry_after warm_ttl rest
                 (Some (mkEntry "warm" (t1 + seconds warm_ttl) t0))).
  { intros rest. rewrite entry_after_app, H1. cbn [entry_after foldl].
    cbn [mbind option_bind]. by rewrite tick_hot_expired. }
  assert (H3 : entry_after warm_ttl mid (Some (mkEntry "warm" (t1 + seconds warm_ttl) t0))
               = Some (mkEntry "warm" (t1 + seconds warm_ttl) t0))
    by by apply entry_after_early.
  split; [exact H1|]. split; [by rewrite H2|]. split; [by rewrite H2|].
  rewrite H2, entry_after_app, H3. cbn [entry_after foldl].
  cbn [mbind option_bind]. rewrite tick_warm_expired by done.
  apply entry_after_None.
Qed.

End ControllerFacts.

Section ControllerClaims.

Implicit Types (c : Controller).

Lemma get_state_absent cid c :
  adaptive_state c !! cid = None → get_state cid c = "cold".
Proof. unfold get_state. by intros ->. Qed.

Lemma Forall_every (P : Z → Prop) period t0 a len :
  (∀ k, (a ≤ k < a + len)%nat → P (t0 + period * Z.of_nat k)) →
  Forall P ((λ k, t0 + period * Z.of_nat k) <$> List.seq a len).
Proof.
  intros H. apply Forall_fmap, Forall_forall. intros k Hk.
  apply H. apply list_elem_of_In, in_seq in Hk. lia.
Qed.

Lemma every_from period t0 a n :
  (1 ≤ a ≤ n)%nat →
  every period t0 n
  = every period t0 (a - 1)
    ++ (t0 + period * Z.of_nat a)
    :: ((λ k, t0 + period * Z.of_nat k) <$> List.seq (S a) (n - a)).
Proof.
  intros Hn. unfold every.
  replace n with ((a - 1) + S (n - a))%nat at 1 by lia.
  rewrite seq_app, fmap_app. replace (1 + (a - 1))%nat with a by lia. done.
Qed.

Lemma seq_from period t0 a b n :
  (1 ≤ b)%nat → (a + b ≤ n)%nat →
  (λ k, t0 + period * Z.of_nat k) <$> List.seq (S a) (n - a)
  = ((λ k, t0 + period * Z.of_nat k) <$> List.seq (S a) (b - 1))
    ++ (t0 + period * Z.of_nat (a + b))
    :: ((λ k, t0 + period * Z.of_nat k) <$> List.seq (S (a + b)) (n - (a + b))).
Proof.
  intros Hb Hn.
  replace (n - a)%nat with ((b - 1) + S (n - (a + b)))%nat by lia.
  rewrite seq_app, fmap_app. replace (S a + (b - 1))%nat with (a + b)%nat by lia.
  done.
Qed.

(** Ticks at a fixed interval that divides both TTLs, counted from the
    moment the id was marked: with [a] intervals to the HOT TTL and [b]
    to the WARM TTL the id is HOT before the [a]-th tick, WARM from
    the [a]-th on and gone from the [(a+b)]-th on. *)
Lemma periodic_states hot_ttl warm_ttl period a b c cid t0 n :
  0 < period → (1 ≤ a)%nat → (1 ≤ b)%nat →
  seconds hot_ttl = period * Z.of_nat a →
  seconds warm_ttl = period * Z.of_nat b →
  get_state cid (run_ticks warm_ttl (every period t0 n)
                   (mark_hot hot_ttl t0 cid c).1)
  = if (n <? a)%nat then "hot"
    else if (n <? a + b)%nat then "warm" else "cold".
Proof.
  intros Hp Ha Hb Hhot Hwarm.
  assert (Hpre : ∀ m, (m < a)%nat →
            Forall (λ t, t < t0 + seconds hot_ttl) (every period t0 m)).
  { intros m Hm. apply Forall_every. intros k Hk. rewrite Hhot. nia. }
  destruct (Nat.ltb_spec n a) as [Hn|Hn].
  - destruct (decay_schedule hot_ttl warm_ttl c cid t0 (every period t0 n)
                (t0 + seconds hot_ttl) []
                (t0 + seconds hot_ttl + seconds warm_ttl) [] (Hpre n Hn))
      as (H & _); [lia|constructor|lia|].
    by rewrite (get_state_lookup _ _ _ H).
  - rewrite (every_from period t0 a n) by lia.
    assert (Ht1 : t0 + period * Z.of_nat a = t0 + seconds hot_ttl) by lia.
    destruct (Nat.ltb_spec n (a + b)) as [Hm|Hm].
    + destruct (decay_schedule hot_ttl warm_ttl c cid t0
                  (every period t0 (a - 1)) (t0 + period * Z.of_nat a)
                  ((λ k, t0 + period * Z.of_nat k) <$> List.seq (S a) (n - a))
                  (t0 + period * Z.of_nat a + seconds warm_ttl) []
                  (Hpre (a - 1)%nat ltac:(lia)))
        as (_ & _ & H & _); [lia| |lia|].
      { apply Forall_every. intros k Hk. rewrite Hwarm. nia. }
      by rewrite (get_state_lookup _ _ _ H).
    + rewrite (seq_from period t0 a b n) by lia.
      destruct (decay_schedule hot_ttl warm_ttl c cid t0
                  (every period t0 (a - 1)) (t0 + period * Z.of_nat a)
                  ((λ k, t0 + period * Z.of_nat k) <$> List.seq (S a) (b - 1))
                  (t0 + period * Z.of_nat (a + b))
                  ((λ k, t0 + period * Z.of_nat k)
                     <$> List.seq (S (a + b)) (n - (a + b)))
                  (Hpre (a - 1)%nat ltac:(lia)))
        as (_ & _ & _ & H); [lia| |rewrite Hwarm; nia|].
      { apply Forall_every. intros k Hk. rewrite Hwarm. nia. }
      by apply get_state_absent.
Qed.

(** Ticks at a fixed interval that divides the WARM TTL, whatever
    their phase: when the [a]-th tick is the first at or after the HOT
    expiry and the WARM TTL takes [b] intervals, the id is HOT before
    the [a]-th tick, WARM from the [a]-th on and gone from the
    [(a+b)]-th on. *)
Lemma periodic_states_from hot_ttl warm_ttl period a b c cid s0 t0 n :
  0 < period → (1 ≤ a)%nat → (1 ≤ b)%nat →
  s0 + period * (Z.of_nat a - 1) < t0 + seconds hot_ttl →
  t0 + seconds hot_ttl <= s0 + period * Z.of_nat a →
  seconds warm_ttl = period * Z.of_nat b →
  get_state cid (run_ticks warm_ttl (every period s0 n)
                   (mark_hot hot_ttl t0 cid c).1)
  = if (n <? a)%nat then "hot"
    else if (n <? a + b)%nat then "warm" else "cold".
Proof.
  intros Hp Ha Hb Hearly Hdue Hwarm.
  assert (Hpre : ∀ m, (m < a)%nat →
            Forall (λ t, t < t0 + seconds hot_ttl) (every period s0 m)).
  { intros m Hm. apply Forall_every. intros k Hk. nia. }
  destruct (Nat.ltb_spec n a) as [Hn|Hn].
  - destruct (decay_schedule hot_ttl warm_ttl c cid t0 (every period s0 n)
                (t0 + seconds hot_ttl) []
                (t0 + seconds hot_ttl + seconds warm_ttl) [] (Hpre n Hn))
      as (H & _); [lia|constructor|lia|].
    by rewrite (get_state_lookup _ _ _ H).
  - rewrite (every_from period s0 a n) by lia.
    destruct (Nat.ltb_spec n (a + b)) as [Hm|Hm].
    + destruct (decay_schedule hot_ttl warm_ttl c cid t0
                  (every period s0 (a - 1)) (s0 + period * Z.of_nat a)
                  ((λ k, s0 + period * Z.of_nat k) <$> List.seq (S a) (n - a))
                  (s0 + period * Z.of_nat a + seconds warm_ttl) []
                  (Hpre (a - 1)%nat ltac:(lia)))
        as (_ & _ & H & _); [lia| |lia|].
      { apply Forall_every. intros k Hk. rewrite Hwarm. nia. }
      by rewrite (get_state_lookup _ _ _ H).
    + rewrite (seq_from period s0 a b n) by lia.
      destruct (decay_schedule hot_ttl warm_ttl c cid t0
                  (every period s0 (a - 1)) (s0 + period * Z.of_nat a)
                  ((λ k, s0 + period * Z.of_nat k) <$> List.seq (S a) (b - 1))
                  (s0 + period * Z.of_nat (a + b))
                  ((λ k, s0 + period * Z.of_nat k)
                     <$> List.seq (S (a + b)) (n - (a + b)))
                  (Hpre (a - 1)%nat ltac:(lia)))
        as (_ & _ & _ & H); [lia| |rewrite Hwarm; nia|].
      { apply Forall_every. intros k Hk. rewrite Hwarm. nia. }
      by apply get_state_absent.
Qed.

(** C3 (amended).  With HOT TTL 300 s and WARM TTL 1500 s, mark an id
    HOT at [t0] and let only cooldown ticks follow.  After any ticks
    [pre] earlier than [t0 + 300 s] the id is still HOT; the first
    tick [t1] at or after [t0 + 300 s] makes it WARM, expiring at
    [t1 + 1500 s]: the WARM TTL counts from that tick, not from the
    mark.  It stays WARM under further ticks [mid] earlier than that
    expiry, which covers every tick up to [t0 + 1799 s]; once a tick
    [t2] at or after [t1 + 1500 s] has fired the id is absent,
    whatever ticks follow.  So the id is absent from [t0 + 1800 s]
    only when a tick fires at [t0 + 300 s]: with ticks each second or
    each 10 s counted from [t0] it is HOT at every tick before
    [t0 + 300 s], WARM at the ticks from [t0 + 300 s] through
    [t0 + 1799 s] and absent from the tick at [t0 + 1800 s] on.  With
    ticks each 10 s that are not in step with the mark (the mark falls
    strictly between two ticks) the id turns WARM at the 31st tick
    after the mark and is removed at the 181st, which comes less than
    10 s after [t0 + 1800 s]; until then it is WARM. *)
Theorem C3_hot_warm_cold_schedule c cid t0 pre t1 mid t2 post :
  Forall (λ t, t < t0 + seconds 300) pre →
  t0 + seconds 300 <= t1 →
  Forall (λ t, t < t1 + seconds 1500) mid →
  t1 + seconds 1500 <= t2 →
  let c0 := (mark_hot 300 t0 cid c).1 in
  get_state cid (run_ticks 1500 pre c0) = "hot"
  ∧ adaptive_state (run_ticks 1500 (pre ++ [t1]) c0) !! cid
    = Some (mkEntry "warm" (t1 + seconds 1500) t0)
  ∧ get_state cid (run_ticks 1500 (pre ++ t1 :: mid) c0) = "warm"
  ∧ t0 + seconds 1799 < t1 + seconds 1500
  ∧ adaptive_state (run_ticks 1500 (pre ++ t1 :: mid ++ t2 :: post) c0) !! cid
    = None
  ∧ (∀ n, get_state cid (run_ticks 1500 (every (seconds 1) t0 n) c0)
          = if (n <? 300)%nat then "hot"
            else if (n <? 1800)%nat then "warm" else "cold")
  ∧ (∀ n, get_state cid (run_ticks 1500 (every (seconds 10) t0 n) c0)
          = if (n <? 30)%nat then "hot"
            else if (n <? 180)%nat then "warm" else "cold")
  ∧ (∀ s0 n, s0 < t0 < s0 + seconds 10 →
        get_state cid (run_ticks 1500 (every (seconds 10) s0 n) c0)
        = (if (n <? 31)%nat then "hot"
           else if (n <? 181)%nat then "warm" else "cold")
        ∧ t0 + seconds 1800 < s0 + seconds 10 * 181 < t0 + seconds 1810).
Proof.
  intros Hpre Ht1 Hmid Ht2 c0.
  destruct (decay_schedule 300 1500 c cid t0 pre t1 mid t2 post
              Hpre Ht1 Hmid Ht2) as (H1 & H2 & H3 & H4).
  fold c0 in H1, H2, H3, H4.
  split; [by rewrite (get_state_lookup _ _ _ H1)|].
  split; [exact H2|].
  split; [by rewrite (get_state_lookup _ _ _ H3)|].
  split; [unfold seconds in *; lia|].
  split; [exact H4|].
  split; [|split].
  - intros n. apply (periodic_states 300 1500 (seconds 1) 300 1500);
      unfold seconds; lia.
  - intros n. apply (periodic_states 300 1500 (seconds 10) 30 150);
      unfold seconds; lia.
  - intros s0 n Hphase. split; [|unfold seconds in *; lia].
    apply (periodic_states_from 300 1500 (seconds 10) 31 150);
      unfold seconds in *; lia.
Qed.

(** The theorem at work: ticks at 10 s and 299 s, the first late tick
    at 305 s, ticks at 1799 s and 1800 s, and one at 1805 s. *)
Lemma C3_hot_warm_cold_schedule_witness :
  get_state "c1"
    (run_ticks 1500 [seconds 10; seconds 299] (mark_hot 300 0 "c1" controller0).1)
  = "hot"
  ∧ get_state "c1"
      (run_ticks 1500 ([seconds 10; seconds 299] ++ seconds 305
                       :: [seconds 1799; seconds 1800])
         (mark_hot 300 0 "c1" controller0).1)
    = "warm"
  ∧ adaptive_state
      (run_ticks 1500 ([seconds 10; seconds 299] ++ seconds 305
                       :: [seconds 1799; seconds 1800] ++ seconds 1805 :: [])
         (mark_hot 300 0 "c1" controller0).1) !! "c1"
    = None.
Proof.
  destruct (C3_hot_warm_cold_schedule controller0 "c1" 0
              [seconds 10; seconds 299] (seconds 305)
              [seconds 1799; seconds 1800] (seconds 1805) [])
    as (H1 & _ & H3 & _ & H5 & _).
  - repeat constructor.
  - vm_compute. discriminate.
  - repeat constructor.
  - vm_compute. discriminate.
  - exact (conj H1 (conj H3 H5)).
Defined.

(** C3 as stated fails when the ticks are not in step with the mark.
    With the id marked at 0 and ticks every 10 s at 5 s, 15 s, ...,
    the id turns WARM at 305 s, so its WARM TTL runs to 1805 s: at
    1800 s, after 1800 s of uninterrupted ticks, it is still WARM. *)
Lemma C3_counterexample :
  ¬ decays_by_1800 (every (seconds 10) (seconds (-5)) 200) 0 "c1" controller0.
Proof.
  intros (_ & _ & Hcold).
  assert (H : state_at (every (seconds 10) (seconds (-5)) 200) 0 "c1"
                       controller0 (seconds 1800) = "cold")
    by (apply Hcold; vm_compute; discriminate).
  vm_compute in H. discriminate H.
Qed.

(** On that schedule the id is gone at the tick at 1805 s. *)
Example off_phase_ticks :
  state_at (every (seconds 10) (seconds (-5)) 200) 0 "c1" controller0
           (seconds 1804) = "warm"
  ∧ state_at (every (seconds 10) (seconds (-5)) 200) 0 "c1" controller0
             (seconds 1805) = "cold".
Proof. vm_compute. split; reflexivity. Qed.

(** A late first tick delays the end of the WARM phase: WARM since
    305 s, the id is still tracked after a tick at 1800 s. *)
Example late_tick_keeps_warm_at_1800 :
  get_state "c1"
    (run_ticks 1500 [seconds 305; seconds 1800]
       (mark_hot 300 0 "c1" controller0).1) = "warm".
Proof. vm_compute. reflexivity. Qed.

(** C4.  Across a cooldown tick the etag grows by exactly one when the
    state map changed, however many ids moved, and is unchanged when
    the map is unchanged; an explicit enable always adds one; an
    explicit disable adds one when it removed the id and nothing
    otherwise. *)
Theorem C4_etag_moves_once_per_change :
  (∀ warm_ttl now c,
      config_etag (cooldown_tick warm_ttl now c)
      = if decide (adaptive_state (cooldown_tick warm_ttl now c)
                   = adaptive_state c)
        then config_etag c else config_etag c + 1)
  ∧ (∀ hot_ttl now cid c,
        config_etag (tracing_enable hot_ttl now cid c).1 = config_etag c + 1)
  ∧ (∀ cid c,
        config_etag (tracing_disable cid c).1
        = if decide (adaptive_state (tracing_disable cid c).1 = adaptive_state c)
          then config_etag c else config_etag c + 1).
Proof.
  split; [|split].
  - intros. apply cooldown_tick_etag.
  - done.
  - intros. apply tracing_disable_etag.
Qed.

(** Three ids, two of them due: one tick, one step of the etag. *)
Example tick_coalesces_etag :
  let c := mkController
             (<["a" := mkEntry "hot" 10 0]>
                (<["b" := mkEntry "warm" 20 0]>
                   (<["c" := mkEntry "hot" 900 0]> ∅))) 7 in
  config_etag (cooldown_tick 1500 50 c) = 8
  ∧ get_state "a" (cooldown_tick 1500 50 c) = "warm"
  ∧ get_state "b" (cooldown_tick 1500 50 c) = "cold"
  ∧ get_state "c" (cooldown_tick 1500 50 c) = "hot"
  ∧ config_etag (cooldown_tick 1500 60 (cooldown_tick 1500 50 c)) = 8.
Proof. vm_compute. repeat split. Qed.

End ControllerClaims.

(** * The broadcast: registrations and fan-out *)

Section StreamingFacts.

Implicit Types (b : Broadcast) (l bucket dead : list nat) (q : nat)
  (qs : gmap nat (list TraceEntry)) (trace : TraceEntry).

Lemma filter_ext_elem {A} (P Q : A → Prop)
    `{∀ x, Decision (P x)} `{∀ x, Decision (Q x)} (l : list A) :
  (∀ x, x ∈ l → (P x ↔ Q x)) → filter P l = filter Q l.
Proof.
  induction l as [|x l IH]; intros Hext; [done|].
  rewrite !filter_cons.
  assert (Hx : P x ↔ Q x) by (apply Hext; left).
  rewrite IH by (intros y Hy; apply Hext; by right).
  destruct (decide (P x)) as [HP|HP], (decide (Q x)) as [HQ|HQ]; try done.
  - destruct HQ. by apply Hx.
  - destruct HP. by apply Hx.
Qed.

Lemma filter_all {A} (P : A → Prop) `{∀ x, Decision (P x)} (l : list A) :
  (∀ x, x ∈ l → P x) → filter P l = l.
Proof.
  induction l as [|x l IH]; intros Hall; [done|].
  rewrite filter_cons, decide_True by (apply Hall; left).
  rewrite IH; [done|]. intros y Hy. apply Hall. by right.
Qed.

(** [list.remove] on a list without repetition. *)
Lemma list_remove_None x l : list_remove x l = None ↔ x ∉ l.
Proof.
  induction l as [|y l IH]; cbn [list_remove].
  - split; [intros _; apply not_elem_of_nil | done].
  - destruct (bool_decide_reflect (y = x)) as [->|Hne].
    + split; [done|]. intros []. left.
    + rewrite fmap_None, IH, not_elem_of_cons.
      split; [intros Hx; split; [congruence | done] | by intros [_ Hx]].
Qed.

Lemma list_remove_Some x l l' :
  NoDup l → list_remove x l = Some l' → l' = filter (λ y, y ≠ x) l ∧ x ∈ l.
Proof.
  revert l'. induction l as [|y l IH]; intros l' Hnd; cbn [list_remove]; [done|].
  apply NoDup_cons in Hnd as [Hy Hnd].
  destruct (bool_decide_reflect (y = x)) as [->|Hne].
  - intros [= <-]. rewrite filter_cons, decide_False by tauto.
    split; [|left]. symmetry. apply filter_all.
    intros z Hz ->. contradiction.
  - intros Hrem. apply fmap_Some in Hrem as (l0 & Hrem & ->).
    destruct (IH l0 Hnd Hrem) as [-> Hin].
    rewrite filter_cons, decide_True by done. split; [done | by right].
Qed.

(** Removing by identity, total: the list unchanged when the handle is
    not in it. *)
Lemma list_remove_default x l :
  NoDup l → default l (list_remove x l) = filter (λ y, y ≠ x) l.
Proof.
  intros Hnd. destruct (list_remove x l) as [l'|] eqn:Hrem; cbn [default].
  - by destruct (list_remove_Some _ _ _ Hnd Hrem).
  - apply list_remove_None in Hrem. symmetry. apply filter_all.
    intros z Hz ->. contradiction.
Qed.

Lemma prune_filter dead l :
  NoDup l → prune dead l = filter (λ y, y ∉ dead) l.
Proof.
  revert l. induction dead as [|d dead IH]; intros l Hnd; cbn [prune].
  - symmetry. apply filter_all. intros y _. apply not_elem_of_nil.
  - rewrite list_remove_default by done.
    rewrite IH by by apply NoDup_filter.
    rewrite list_filter_filter. apply filter_ext_elem.
    intros y _. rewrite not_elem_of_cons. tauto.
Qed.

(** The fan-out pass over a bucket without repetition whose handles all
    name queues: a queue with room gets the trace appended, a full one
    is left alone and listed dead, queues outside the bucket are not
    touched. *)
Lemma fan_out_spec trace bucket qs dead :
  NoDup bucket →
  (∀ q, q ∈ bucket → is_Some (qs !! q)) →
  (fan_out trace bucket qs dead).2
  = dead ++ filter (λ q, is_full qs q = true) bucket
  ∧ (∀ q, q ∈ bucket →
       (fan_out trace bucket qs dead).1 !! q
       = if is_full qs q then qs !! q
         else Some (default [] (qs !! q) ++ [trace]))
  ∧ (∀ q, q ∉ bucket → (fan_out trace bucket qs dead).1 !! q = qs !! q).
Proof.
  revert qs dead. induction bucket as [|q0 rest IH]; intros qs dead Hnd Hall.
  - cbn. rewrite app_nil_r. split; [done|]. split; [|done].
    intros q Hq. by apply elem_of_nil in Hq.
  - apply NoDup_cons in Hnd as [Hq0 Hnd].
    destruct (Hall q0) as [items Hitems]; [left|].
    cbn [fan_out]. unfold put_nowait. rewrite Hitems.
    assert (Hfull0 : is_full qs q0 = (maxsize <=? length items)%nat).
    { unfold is_full. by rewrite Hitems. }
    rewrite filter_cons. destruct (maxsize <=? length items)%nat eqn:Hcap.
    + (* full: QueueFull, the handle goes on the dead list *)
      rewrite decide_True by done.
      destruct (IH qs (dead ++ [q0]) Hnd) as (Hd & Hin & Hout).
      { intros q Hq. apply Hall. by right. }
      split; [by rewrite Hd, <- app_assoc|]. split.
      * intros q [->|Hq]%elem_of_cons.
        -- rewrite Hout by done. by rewrite Hfull0.
        -- by apply Hin.
      * intros q [Hne Hq]%not_elem_of_cons. by apply Hout.
    + (* room: the trace is enqueued *)
      rewrite decide_False by congruence.
      set (qs1 := <[q0 := items ++ [trace]]> qs).
      assert (Hsame : ∀ q, q ≠ q0 → qs1 !! q = qs !! q).
      { intros q Hne. unfold qs1. by rewrite lookup_insert_ne. }
      destruct (IH qs1 dead Hnd) as (Hd & Hin & Hout).
      { intros q Hq. rewrite Hsame; [apply Hall; by right|].
        intros ->. contradiction. }
      assert (Hfull : ∀ q, q ∈ rest → is_full qs1 q = is_full qs q).
      { intros q Hq. unfold is_full. rewrite Hsame; [done|].
        intros ->. contradiction. }
      split; [|split].
      * rewrite Hd. f_equal. apply filter_ext_elem.
        intros q Hq. by rewrite Hfull.
      * intros q [->|Hq]%elem_of_cons.
        -- rewrite Hout by done. rewrite Hfull0. unfold qs1.
           by rewrite lookup_insert_eq, Hitems.
        -- rewrite Hin, Hfull by done. rewrite Hsame; [done|].
           intros ->. contradiction.
      * intros q [Hne Hq]%not_elem_of_cons. rewrite Hout by done.
        by apply Hsame.
Qed.

Lemma list_remove_sublist x l l' :
  list_remove x l = Some l' → l' `sublist_of` l.
Proof.
  revert l'. induction l as [|y l IH]; intros l'; cbn [list_remove]; [done|].
  destruct (bool_decide (y = x)).
  - intros [= <-]. by apply sublist_cons.
  - intros (l0 & Hrem & ->)%fmap_Some. apply sublist_skip. by apply IH.
Qed.

Lemma prune_sublist dead l : prune dead l `sublist_of` l.
Proof.
  revert l. induction dead as [|d dead IH]; intros l; cbn [prune]; [done|].
  etrans; [apply IH|].
  destruct (list_remove d l) as [l'|] eqn:Hrem; cbn [default]; [|done].
  by eapply list_remove_sublist.
Qed.

Lemma fan_out_keys trace bucket qs dead q :
  is_Some (qs !! q) → is_Some ((fan_out trace bucket qs dead).1 !! q).
Proof.
  revert qs dead. induction bucket as [|q0 rest IH]; intros qs dead Hq; [done|].
  cbn [fan_out]. unfold put_nowait.
  destruct (qs !! q0) as [items|] eqn:Hq0; [|by apply IH].
  destruct (maxsize <=? length items)%nat; [by apply IH|].
  apply IH. destruct (decide (q0 = q)) as [->|Hne].
  - by rewrite lookup_insert_eq.
  - by rewrite lookup_insert_ne.
Qed.

Lemma shrinks_refl b : shrinks b b.
Proof. split; [done|]. split; [done|]. intros cid bk Hbk. by exists bk. Qed.

Lemma shrinks_trans b1 b2 b3 : shrinks b1 b2 → shrinks b2 b3 → shrinks b1 b3.
Proof.
  intros (Hn1 & Hq1 & Hs1) (Hn2 & Hq2 & Hs2). split; [congruence|].
  split; [auto|]. intros cid bk3 Hbk3.
  destruct (Hs2 _ _ Hbk3) as (bk2 & Hbk2 & Hsub2).
  destruct (Hs1 _ _ Hbk2) as (bk1 & Hbk1 & Hsub1).
  exists bk1. split; [done|]. by etrans.
Qed.

(** Replacing one bucket by a part of itself, or dropping it. *)
Lemma shrinks_bucket b cid bucket bucket' ts qs :
  subscribers b !! cid = Some bucket →
  bucket' `sublist_of` bucket →
  (∀ q, is_Some (queues b !! q) → is_Some (qs !! q)) →
  shrinks b (mkBroadcast (<[cid := bucket']> (subscribers b)) ts qs (next_queue b))
  ∧ shrinks b (mkBroadcast (delete cid (subscribers b)) ts qs (next_queue b)).
Proof.
  intros Hbk Hsub Hqs. split.
  - split; [done|]. split; [done|]. cbn. intros cid' bk'.
    rewrite lookup_insert_Some. intros [[<- <-]|[Hne Hlk]]; eauto.
  - split; [done|]. split; [done|]. cbn. intros cid' bk'.
    rewrite lookup_delete_Some. intros [Hne Hlk]. eauto.
Qed.

Lemma unsubscribe_shrinks cid q b : shrinks b (unsubscribe cid q b).
Proof.
  unfold unsubscribe.
  destruct (subscribers b !! cid) as [bucket|] eqn:Hbk; [|apply shrinks_refl].
  destruct (list_remove q bucket) as [bucket'|] eqn:Hrem; [|apply shrinks_refl].
  apply list_remove_sublist in Hrem.
  destruct (shrinks_bucket b cid bucket bucket' (subscriber_timestamps b)
              (queues b) Hbk Hrem) as [Hins Hdel]; [done|].
  by destruct bucket'.
Qed.

Lemma notify_shrinks trace b : shrinks b (notify_subscribers trace b).
Proof.
  unfold notify_subscribers.
  destruct (subscribers b !! correlation_id trace) as [bucket|] eqn:Hbk;
    [|apply shrinks_refl].
  destruct (fan_out trace bucket (queues b) []) as [qs dead] eqn:Hfan.
  assert (Hqs : ∀ q, is_Some (queues b !! q) → is_Some (qs !! q)).
  { intros q Hq. pose proof (fan_out_keys trace bucket _ [] q Hq) as H.
    by rewrite Hfan in H. }
  pose proof (prune_sublist dead bucket) as Hsub.
  destruct (prune dead bucket) as [|q0 rest] eqn:Hpr.
  - by apply (shrinks_bucket b _ bucket [] _ qs Hbk).
  - by apply (shrinks_bucket b _ bucket (q0 :: rest) _ qs Hbk).
Qed.

Lemma cleanup_shrinks now b : shrinks b (cleanup_stale_subscribers now b).
Proof.
  split; [done|]. split; [done|]. cbn. intros cid bk Hbk.
  apply map_lookup_filter_Some_1_1 in Hbk. by exists bk.
Qed.

Lemma queue_get_shrinks q b item b' :
  queue_get q b = Some (item, b') → shrinks b b'.
Proof.
  unfold queue_get. destruct (queues b !! q) as [[|i items]|] eqn:Hq; try done.
  intros [= <- <-]. split; [done|]. split; cbn.
  - intros q' Hq'. destruct (decide (q = q')) as [->|Hne].
    + by rewrite lookup_insert_eq.
    + by rewrite lookup_insert_ne.
  - intros cid bk Hbk. by exists bk.
Qed.

Lemma shrinks_wf b b' : shrinks b b' → well_formed b → well_formed b'.
Proof.
  intros (Hn & Hqs & Hsub) [Hnd Hdisj Halloc]. split.
  - intros cid bk' Hbk'. destruct (Hsub _ _ Hbk') as (bk & Hbk & Hs).
    eapply sublist_NoDup; [|exact Hs]. by eapply Hnd.
  - intros cid1 cid2 bk1' bk2' q H1 H2 Hq1 Hq2.
    destruct (Hsub _ _ H1) as (bk1 & Hbk1 & Hs1).
    destruct (Hsub _ _ H2) as (bk2 & Hbk2 & Hs2).
    eapply (Hdisj cid1 cid2 bk1 bk2 q); eauto using elem_of_sublist.
  - intros cid bk' q Hbk' Hq. destruct (Hsub _ _ Hbk') as (bk & Hbk & Hs).
    destruct (Halloc cid bk q Hbk) as [Hlt Hsome]; [by eapply elem_of_sublist|].
    rewrite Hn. auto.
Qed.

Lemma shrinks_held cid q b b' : shrinks b b' → held cid q b → held cid q b'.
Proof.
  intros Hsh (Hwf & Hlt & Hown). split; [by eapply shrinks_wf|].
  destruct Hsh as (Hn & _ & Hsub). split; [by rewrite Hn|].
  intros cid' bk' Hbk' Hq. destruct (Hsub _ _ Hbk') as (bk & Hbk & Hs).
  eapply Hown; [exact Hbk|]. by eapply elem_of_sublist.
Qed.

Lemma well_formed_broadcast0 : well_formed broadcast0.
Proof. split; cbn; intros *; by rewrite lookup_empty. Qed.

(** A handle below the counter is not the one [subscribe] hands out. *)
Lemma registered_below b cid bucket q :
  well_formed b → subscribers b !! cid = Some bucket → q ∈ bucket →
  q ≠ next_queue b.
Proof. intros [_ _ Halloc] Hbk Hq. destruct (Halloc _ _ _ Hbk Hq). lia. Qed.

Lemma subscribe_lookup now cid b cid' bucket' :
  subscribers (subscribe now cid b).1 !! cid' = Some bucket' ↔
  (cid' = cid ∧ bucket' = bucket_of cid b ++ [next_queue b])
  ∨ (cid' ≠ cid ∧ subscribers b !! cid' = Some bucket').
Proof.
  unfold subscribe, bucket_of. cbn. rewrite lookup_insert_Some.
  split; intros [[? ?]|[? ?]]; subst; auto.
Qed.

Lemma elem_of_bucket_of q cid b :
  q ∈ bucket_of cid b ↔ ∃ bucket, subscribers b !! cid = Some bucket ∧ q ∈ bucket.
Proof.
  unfold bucket_of. destruct (subscribers b !! cid) as [bk|]; cbn.
  - split; [eauto|]. by intros (? & [= <-] & ?).
  - split; [by intros ?%elem_of_nil|]. by intros (? & ? & ?).
Qed.

Lemma subscribe_wf now cid b :
  well_formed b → well_formed (subscribe now cid b).1.
Proof.
  intros Hwf. pose proof Hwf as [Hnd Hdisj Halloc].
  assert (Hfresh : ∀ c, next_queue b ∉ bucket_of c b).
  { intros c (bk & Hbk & Hq)%elem_of_bucket_of.
    by eapply (registered_below b c bk). }
  assert (Hndb : ∀ c, NoDup (bucket_of c b)).
  { intros c. unfold bucket_of. destruct (subscribers b !! c) eqn:Hc; cbn.
    - by eapply Hnd.
    - constructor. }
  split.
  - intros c bk [[-> ->]|[Hne Hbk]]%subscribe_lookup; [|by eapply Hnd].
    apply NoDup_app. split; [done|]. split; [|apply NoDup_singleton].
    intros q Hq ->%list_elem_of_singleton. by eapply Hfresh.
  - intros c1 c2 bk1 bk2 q
      [[-> ->]|[Hne1 H1]]%subscribe_lookup
      [[-> ->]|[Hne2 H2]]%subscribe_lookup Hq1 Hq2; [done| | |].
    + apply elem_of_app in Hq1 as [Hq1|Hq1%list_elem_of_singleton].
      * apply elem_of_bucket_of in Hq1 as (bk & Hbk & Hq).
        symmetry. by eapply (Hdisj c2 cid bk2 bk q).
      * subst q. destruct (registered_below b c2 bk2 (next_queue b)); done.
    + apply elem_of_app in Hq2 as [Hq2|Hq2%list_elem_of_singleton].
      * apply elem_of_bucket_of in Hq2 as (bk & Hbk & Hq).
        by eapply (Hdisj c1 cid bk1 bk q).
      * subst q. destruct (registered_below b c1 bk1 (next_queue b)); done.
    + by eapply (Hdisj c1 c2 bk1 bk2 q).
  - assert (Hold : ∀ c bk q, subscribers b !! c = Some bk → q ∈ bk →
                   (q < S (next_queue b))%nat
                   ∧ is_Some (<[next_queue b := []]> (queues b) !! q)).
    { intros c bk q Hbk Hq. destruct (Halloc _ _ _ Hbk Hq) as [Hlt Hsome].
      split; [lia|]. by rewrite lookup_insert_ne by lia. }
    intros c bk q [[-> ->]|[Hne Hbk]]%subscribe_lookup Hq; cbn.
    + apply elem_of_app in Hq as [Hq|Hq%list_elem_of_singleton].
      * apply elem_of_bucket_of in Hq as (bk & Hbk & Hq). by eapply Hold.
      * subst q. split; [lia|]. by rewrite lookup_insert_eq.
    + by eapply Hold.
Qed.

(** The handle [subscribe] returns is registered under its id only. *)
Lemma subscribe_held now cid b :
  well_formed b → held cid (next_queue b) (subscribe now cid b).1.
Proof.
  intros Hwf. split; [by apply subscribe_wf|]. split; [cbn; lia|].
  intros c bk [[-> ->]|[Hne Hbk]]%subscribe_lookup Hq; [done|].
  destruct (registered_below b c bk (next_queue b)); done.
Qed.

(** A later [subscribe] by another task hands out a different handle. *)
Lemma subscribe_keeps_held now cid' cid q b :
  held cid q b → held cid q (subscribe now cid' b).1.
Proof.
  intros (Hwf & Hlt & Hown). split; [by apply subscribe_wf|].
  split; [cbn; lia|].
  intros c bk [[-> ->]|[Hne Hbk]]%subscribe_lookup Hq; [|by eapply Hown].
  apply elem_of_app in Hq as [Hq|Hq%list_elem_of_singleton]; [|lia].
  apply elem_of_bucket_of in Hq as (bk & Hbk & Hq). by eapply Hown.
Qed.

(** After [unsubscribe] the handle is in no bucket. *)
Lemma unsubscribe_unregisters cid q b :
  held cid q b → unregistered q (unsubscribe cid q b).
Proof.
  intros (Hwf & _ & Hown) c bk Hbk Hq.
  destruct (unsubscribe_shrinks cid q b) as (_ & _ & Hsub).
  destruct (Hsub _ _ Hbk) as (bk0 & Hbk0 & Hs).
  assert (c = cid) as -> by (eapply Hown; [exact Hbk0|by eapply elem_of_sublist]).
  revert Hbk. unfold unsubscribe. rewrite Hbk0.
  destruct (list_remove q bk0) as [bk1|] eqn:Hrem.
  - destruct (list_remove_Some _ _ _ (wf_nodup b Hwf _ _ Hbk0) Hrem) as [-> _].
    assert (Hnot : q ∉ filter (λ y, y ≠ q) bk0).
    { rewrite list_elem_of_filter. tauto. }
    destruct (filter _ bk0) eqn:Hf; cbn.
    + by rewrite lookup_delete_eq.
    + rewrite lookup_insert_eq. intros [= <-]. contradiction.
  - apply list_remove_None in Hrem. rewrite Hbk0. intros [= <-].
    apply Hrem. by eapply elem_of_sublist.
Qed.

Lemma unsubscribe_keeps_timestamps cid q b :
  subscriber_timestamps (unsubscribe cid q b) = subscriber_timestamps b.
Proof.
  unfold unsubscribe. destruct (subscribers b !! cid) as [bk|]; [|done].
  by destruct (list_remove q bk) as [[|]|].
Qed.

(** What [notify_subscribers] leaves: the bucket of the id without its
    full queues, the trace appended to the queues that had room, and
    nothing else moved. *)
Lemma notify_subscribers_spec trace b :
  well_formed b →
  bucket_of (correlation_id trace) (notify_subscribers trace b)
  = filter (λ q, is_full (queues b) q = false) (bucket_of (correlation_id trace) b)
  ∧ (∀ q, q ∈ bucket_of (correlation_id trace) b →
       queues (notify_subscribers trace b) !! q
       = if is_full (queues b) q then queues b !! q
         else Some (default [] (queues b !! q) ++ [trace]))
  ∧ (∀ q, q ∉ bucket_of (correlation_id trace) b →
       queues (notify_subscribers trace b) !! q = queues b !! q)
  ∧ (∀ cid, cid ≠ correlation_id trace →
       subscribers (notify_subscribers trace b) !! cid = subscribers b !! cid).
Proof.
  intros Hwf. unfold notify_subscribers, bucket_of.
  destruct (subscribers b !! correlation_id trace) as [bucket|] eqn:Hbk.
  2:{ rewrite Hbk. cbn. split; [done|]. split; [|done].
      intros q Hq. by apply elem_of_nil in Hq. }
  pose proof (wf_nodup b Hwf _ _ Hbk) as Hnd.
  destruct (fan_out_spec trace bucket (queues b) [] Hnd) as (Hdead & Hin & Hout).
  { intros q Hq. by destruct (wf_alloc b Hwf _ _ _ Hbk Hq). }
  destruct (fan_out trace bucket (queues b) []) as [qs dead] eqn:Hfan.
  cbn [fst snd app] in Hdead, Hin, Hout. subst dead.
  assert (Hpr : prune (filter (λ q, is_full (queues b) q = true) bucket) bucket
                = filter (λ q, is_full (queues b) q = false) bucket).
  { rewrite prune_filter by done. apply filter_ext_elem. intros q Hq.
    rewrite list_elem_of_filter. destruct (is_full (queues b) q); split; try done.
    - intros H. destruct H. done.
    - by intros _ [? _]. }
  rewrite Hpr. cbn [default].
  destruct (filter (λ q, is_full (queues b) q = false) bucket) as [|q0 rest] eqn:Hf;
    cbn [subscribers queues].
  - rewrite lookup_delete_eq. cbn. split; [done|]. split; [done|]. split; [done|].
    intros cid Hne. by rewrite lookup_delete_ne.
  - rewrite lookup_insert_eq. cbn. split; [done|]. split; [done|]. split; [done|].
    intros cid Hne. by rewrite lookup_insert_ne.
Qed.

End StreamingFacts.

Module StreamingExamples.

Example fan_out_to_both :
  let b' := notify_subscribers Samples.e0 Samples.three_listeners in
  waiting 0 b' = [Samples.e0] ∧ waiting 1 b' = [Samples.e0] ∧ waiting 2 b' = []
  ∧ bucket_of "c1" b' = [0; 1]%nat.
Proof. vm_compute. repeat split. Qed.

Example saturated_listener_dropped :
  let b' := notify_subscribers Samples.e0 Samples.saturated in
  waiting 0 b' = replicate 100 Samples.e0 ∧ waiting 1 b' = [Samples.e0]
  ∧ waiting 2 b' = [] ∧ bucket_of "c1" b' = [1%nat].
Proof. vm_compute. repeat split. Qed.

(** When the fan-out empties a bucket, [notify_subscribers] drops the
    activity timestamp with it. *)
Example notify_drops_timestamp :
  let b := mkBroadcast {["c1" := [0%nat]]} {["c1" := 10]}
                       {[0%nat := replicate 100 Samples.e0]} 1 in
  subscribers (notify_subscribers Samples.e0 b) !! "c1" = None
  ∧ subscriber_timestamps (notify_subscribers Samples.e0 b) !! "c1" = None.
Proof. vm_compute. split; reflexivity. Qed.

End StreamingExamples.

Section StreamingClaims.

Implicit Types (b : Broadcast) (q : nat) (trace : TraceEntry).

Lemma waiting_lookup q b items :
  queues b !! q = Some items → waiting q b = items.
Proof. unfold waiting. by intros ->. Qed.

Lemma is_full_waiting q b :
  is_full (queues b) q = (maxsize <=? length (waiting q b))%nat.
Proof. done. Qed.

(** C5: [unsubscribe] never touches [_subscriber_timestamps].  With
    one listener on "c1" subscribed at clock 100, unsubscribing it
    drops the bucket of "c1" and leaves the activity timestamp of "c1"
    in place. *)
Theorem C5_unsubscribe_keeps_timestamp :
  (∀ cid q b,
      subscriber_timestamps (unsubscribe cid q b) = subscriber_timestamps b)
  ∧ subscribers (unsubscribe "c1" 0 (subscribe 100 "c1" broadcast0).1) !! "c1"
    = None
  ∧ subscriber_timestamps
      (unsubscribe "c1" 0 (subscribe 100 "c1" broadcast0).1) !! "c1"
    = Some 100.
Proof.
  split; [apply unsubscribe_keeps_timestamps|].
  vm_compute. split; reflexivity.
Qed.

(** C8.  Let the registrations be well formed and [trace] be notified.
    Every listener registered under the id of [trace] whose queue has
    room has the trace appended to its queue and stays registered;
    every listener under that id whose queue is full keeps its queue as
    it was and is no longer registered afterwards; every listener under
    another id keeps its queue and its registration; and the bucket of
    the id afterwards is the old bucket without the full queues. *)
Theorem C8_notify_fan_out trace b :
  well_formed b →
  let cid := correlation_id trace in
  let b' := notify_subscribers trace b in
  (∀ q, q ∈ bucket_of cid b → (length (waiting q b) < maxsize)%nat →
        waiting q b' = waiting q b ++ [trace] ∧ q ∈ bucket_of cid b')
  ∧ (∀ q, q ∈ bucket_of cid b → (maxsize ≤ length (waiting q b))%nat →
          waiting q b' = waiting q b ∧ q ∉ bucket_of cid b')
  ∧ (∀ cid' q, cid' ≠ cid → q ∈ bucket_of cid' b →
          waiting q b' = waiting q b ∧ q ∈ bucket_of cid' b')
  ∧ bucket_of cid b'
    = filter (λ q, is_full (queues b) q = false) (bucket_of cid b).
Proof.
  intros Hwf cid b'.
  destruct (notify_subscribers_spec trace b Hwf) as (Hbk & Hin & Hout & Hoth).
  fold cid in Hbk, Hin, Hout, Hoth. fold b' in Hbk, Hin, Hout, Hoth.
  split; [|split; [|split]].
  - intros q Hq Hroom.
    assert (Hnf : is_full (queues b) q = false).
    { rewrite is_full_waiting. apply Nat.leb_gt. lia. }
    split.
    + unfold waiting at 1. rewrite (Hin q Hq), Hnf. done.
    + rewrite Hbk. apply list_elem_of_filter. done.
  - intros q Hq Hfull.
    assert (Hf : is_full (queues b) q = true).
    { rewrite is_full_waiting. apply Nat.leb_le. lia. }
    split.
    + unfold waiting. by rewrite (Hin q Hq), Hf.
    + rewrite Hbk, list_elem_of_filter. intros [Hnf _]. congruence.
  - intros cid' q Hne Hq. split.
    + unfold waiting. rewrite Hout; [done|].
      intros Hq'. apply elem_of_bucket_of in Hq as (bk1 & Hbk1 & Hq1).
      apply elem_of_bucket_of in Hq' as (bk2 & Hbk2 & Hq2).
      apply Hne. by eapply (wf_disjoint b Hwf cid' cid bk1 bk2 q).
    + unfold bucket_of. rewrite (Hoth cid' Hne). exact Hq.
  - exact Hbk.
Qed.

Lemma well_formed_three_listeners :
  well_formed Samples.three_listeners.
Proof. repeat apply subscribe_wf. apply well_formed_broadcast0. Qed.

(** The theorem at work on two listeners for "c1" and one for "c2". *)
Lemma C8_notify_fan_out_witness :
  waiting 0 (notify_subscribers Samples.e0
               Samples.three_listeners)
  = waiting 0 Samples.three_listeners ++ [Samples.e0]
  ∧ waiting 2 (notify_subscribers Samples.e0
                 Samples.three_listeners)
    = waiting 2 Samples.three_listeners.
Proof.
  destruct (C8_notify_fan_out Samples.e0
              Samples.three_listeners well_formed_three_listeners)
    as (Hroom & _ & Hother & _).
  split.
  - apply Hroom.
    + vm_compute. left.
    + vm_compute. lia.
  - apply (Hother "c2" 2%nat).
    + vm_compute. discriminate.
    + vm_compute. left.
Defined.

End StreamingClaims.

(** * The handlers: ingest bookkeeping and the /recent rate limit *)

Section EndpointsFacts.

Implicit Types (st : State) (trace : TraceEntry).

(** [insert_trace] writes no counter but [ingest_deduped]. *)
Lemma insert_trace_counters now trace t s :
  ingest_total (insert_trace now trace t s).1.2 = ingest_total s
  ∧ ingest_duplicates (insert_trace now trace t s).1.2 = ingest_duplicates s.
Proof.
  unfold insert_trace. destruct (sql_update _ _ _) as [[rs' rowcount]|]; [|done].
  destruct (0 <? rowcount); [done|].
  by destruct (sql_insert_or_ignore _ _ _).
Qed.

Lemma count_source_cons sid at_insert trace rest :
  count_source sid ((at_insert, trace) :: rest)
  = ((if bool_decide (source_id trace = sid) then 1 else 0)
     + count_source sid rest)%nat.
Proof.
  unfold count_source. rewrite filter_cons. cbn [snd].
  destruct (bool_decide_reflect (source_id trace = sid)).
  - by rewrite decide_True.
  - by rewrite decide_False.
Qed.

(** The loop of the batch handler: one window entry and one unit of
    lifetime total per trace, filed under its source; the cumulative
    counters wait for the end of the loop. *)
Lemma ingest_loop_bookkeeping now traces st acc :
  let st' := (ingest_loop now traces st acc).1 in
  ingest_total (stats st') = ingest_total (stats st)
  ∧ ingest_duplicates (stats st') = ingest_duplicates (stats st)
  ∧ recent_rate_window st' = recent_rate_window st
  ∧ (∀ sid, default 0 (source_ingest_totals st' !! sid)
            = default 0 (source_ingest_totals st !! sid)
              + Z.of_nat (count_source sid traces))
  ∧ (∀ sid, default [] (source_ingest_window st' !! sid)
            = default [] (source_ingest_window st !! sid)
              ++ replicate (count_source sid traces) now).
Proof.
  revert st acc. induction traces as [|[at_insert trace] rest IH]; intros st acc.
  - cbn. repeat split; intros; [lia | by rewrite app_nil_r].
  - cbn [ingest_loop].
    pose proof (insert_trace_counters at_insert trace (table st) (stats st))
      as [Htot Hdup].
    destruct (insert_trace at_insert trace (table st) (stats st))
      as [[t' s'] ok] eqn:Hins.
    cbn [fst snd] in Htot, Hdup.
    match goal with
    | |- context [ingest_loop now rest ?st1 ?acc1] =>
        destruct (IH st1 acc1) as (H1 & H2 & H3 & H4 & H5)
    end.
    cbn [stats recent_rate_window source_ingest_totals source_ingest_window]
      in H1, H2, H3, H4, H5.
    split; [congruence|]. split; [congruence|]. split; [done|]. split.
    + intros sid. rewrite H4, count_source_cons.
      destruct (bool_decide_reflect (source_id trace = sid)) as [->|Hne].
      * rewrite lookup_insert_eq. cbn [default from_option id]. lia.
      * rewrite lookup_insert_ne by done. cbn. lia.
    + intros sid. rewrite H5, count_source_cons.
      destruct (bool_decide_reflect (source_id trace = sid)) as [->|Hne].
      * rewrite lookup_insert_eq. cbn [default from_option id Nat.add replicate].
        by rewrite <- app_assoc.
      * by rewrite lookup_insert_ne by done.
Qed.

Lemma count_within_snoc now horizon window t :
  count_within now horizon (window ++ [t])
  = count_within now horizon window
    + (if bool_decide (now - t < horizon) then 1 else 0).
Proof.
  unfold count_within. rewrite filter_app, length_app, filter_cons, filter_nil.
  destruct (bool_decide_reflect (now - t < horizon)).
  - rewrite decide_True by done. cbn [length]. lia.
  - rewrite decide_False by done. cbn [length]. lia.
Qed.

Lemma count_within_outside now horizon window :
  Forall (λ t, horizon <= now - t) window → count_within now horizon window = 0.
Proof.
  intros Hall. unfold count_within.
  induction Hall as [|t w Ht _ IH]; [done|].
  rewrite filter_cons, decide_False by lia. exact IH.
Qed.

(** What any /recent call writes, accepted or not. *)
Lemma get_recent_traces_state now limit since_id source st :
  (get_recent_traces now limit since_id source st).1
  = mkState (table st) (bump_recent_requests (stats st))
            (recent_rate_window st ++ [now])
            (source_ingest_window st) (source_ingest_totals st) (broadcast st).
Proof. unfold get_recent_traces. by destruct (30 <? _). Qed.

(** The call is turned away exactly when thirty earlier calls are
    still inside the window. *)
Lemma get_recent_traces_limited now limit since_id source st :
  is_rate_limited (get_recent_traces now limit since_id source st).2
  = (30 <=? count_within now (seconds 60) (recent_rate_window st)).
Proof.
  unfold get_recent_traces. rewrite count_within_snoc.
  rewrite bool_decide_true by (unfold seconds; lia).
  destruct (30 <? _) eqn:Hlt; cbn.
  - symmetry. apply Z.leb_le. apply Z.ltb_lt in Hlt. lia.
  - symmetry. apply Z.leb_gt. apply Z.ltb_ge in Hlt. lia.
Qed.

(** The answer is the 429 failure or a page of traces. *)
Lemma get_recent_traces_answer now limit since_id source st :
  let r := (get_recent_traces now limit since_id source st).2 in
  (is_rate_limited r = true ∧ r = inl too_many_requests)
  ∨ (is_rate_limited r = false ∧ ∃ page, r = inr page).
Proof. unfold get_recent_traces. destruct (30 <? _); cbn; eauto. Qed.

Lemma serve_recent_answers calls st :
  Forall (λ r, (is_rate_limited r = true ∧ r = inl too_many_requests)
               ∨ (is_rate_limited r = false ∧ ∃ page, r = inr page))
         (serve_recent calls st).2.
Proof.
  revert st. induction calls as [|c rest IH]; intros st; [constructor|].
  cbn [serve_recent]. unfold call_recent.
  pose proof (get_recent_traces_answer (rc_now c) (rc_limit c) (rc_since_id c)
                (rc_source c) st) as Hans.
  destruct (get_recent_traces _ _ _ _ st) as [st1 r0]. cbn [snd] in Hans.
  specialize (IH st1). destruct (serve_recent rest st1) as [st2 rs].
  by constructor.
Qed.

(** A run of calls that all see [k] earlier requests inside their
    window and lie within 60 s of one another: the [n]-th of them sees
    [k + n]. *)
Lemma serve_recent_limited calls st k :
  Forall (λ c, count_within (rc_now c) (seconds 60) (recent_rate_window st)
               = Z.of_nat k) calls →
  Forall (λ c1, Forall (λ c2, rc_now c1 - rc_now c2 < seconds 60) calls) calls →
  ∀ n r, (serve_recent calls st).2 !! n = Some r →
         is_rate_limited r = bool_decide (30 ≤ k + n)%nat.
Proof.
  revert st k. induction calls as [|c rest IH]; intros st k Hcount Hnear n r.
  - cbn. by rewrite lookup_nil.
  - cbn [serve_recent]. unfold call_recent.
    pose proof (get_recent_traces_state (rc_now c) (rc_limit c) (rc_since_id c)
                  (rc_source c) st) as Hst.
    pose proof (get_recent_traces_limited (rc_now c) (rc_limit c) (rc_since_id c)
                  (rc_source c) st) as Hlim.
    destruct (get_recent_traces _ _ _ _ st) as [st1 r0]. cbn [fst snd] in Hst, Hlim.
    destruct (serve_recent rest st1) as [st2 rs] eqn:Hrest. cbn [snd].
    apply Forall_cons in Hcount as [Hc Hcount].
    apply Forall_cons in Hnear as [Hc_near Hnear].
    destruct n as [|n]; cbn.
    + intros [= <-]. rewrite Hlim, Hc.
      destruct (bool_decide_reflect (30 ≤ k + 0)%nat).
      * apply Z.leb_le. lia.
      * apply Z.leb_gt. lia.
    + intros Hr. replace (k + S n)%nat with (S k + n)%nat by lia.
      apply (IH st1 (S k)); [| |by rewrite Hrest].
      * rewrite Forall_forall in Hcount, Hnear |- *. intros c' Hc'.
        subst st1. cbn [recent_rate_window]. rewrite count_within_snoc.
        rewrite (Hcount c' Hc').
        specialize (Hnear c' Hc'). apply Forall_cons in Hnear as [Hcc _].
        rewrite bool_decide_true by done. lia.
      * rewrite Forall_forall in Hnear |- *. intros c' Hc'.
        specialize (Hnear c' Hc'). by apply Forall_cons in Hnear as [_ ?].
Qed.

End EndpointsFacts.

Module EndpointsExamples.

Example burst_outcomes :
  is_rate_limited <$> (serve_recent Samples.burst (state0 0)).2
  = replicate 30 false ++ [true].
Proof. vm_compute. reflexivity. Qed.

(** The window slides: a call 60 s after the first of thirty is
    accepted again. *)
Example accepted_after_window :
  is_rate_limited (get_recent_traces (seconds 60) 200 None None Samples.busy).2 = false.
Proof. vm_compute. reflexivity. Qed.

(** The source filter of /recent is a prefix match that ignores the
    case of ASCII letters. *)
Example source_prefix_filter :
  sql_like "WK-7" "wk%" = true ∧ sql_like "MA" "WK%" = false
  ∧ sql_like "WK" "WK%" = true ∧ sql_like "W" "WK%" = false.
Proof. vm_compute. repeat split. Qed.

(** /recent leaves out the catch-all correlation "-" and pages from the
    newest row back, oldest first within the page. *)
(** [_] takes one character, of however many bytes; case is folded
    for ASCII letters only. *)
Example like_counts_characters :
  sql_like "é" "_" = true ∧ sql_like "é" "__" = false
  ∧ sql_like "€x" "%_x" = true ∧ sql_like "€x" "%__x" = false
  ∧ sql_like "aéb" "a_b" = true ∧ sql_like "É" "é" = false.
Proof. vm_compute. repeat split. Qed.

Example recent_page :
  let row id cid := mkRow id "WK" cid 1000 "a" "->" "RPC" "/foo" None "unknown" None 0 in
  ri_id <$> select_recent 2 None None
              (mkTable [row 1 "c1"; row 2 "-"; row 3 "c2"; row 4 "c3"] 4)
  = [3; 4].
Proof. vm_compute. reflexivity. Qed.

End EndpointsExamples.

Section EndpointsClaims.

Implicit Types (st : State) (trace : TraceEntry).

(** C6 (amended).  A /recent request rejected by the rate limit leaves
    the stored traces, the per-source tables and the registrations as
    they were, and it is itself put on record: its clock reading is
    appended to the rate window and [recent_requests] grows by one. *)
Theorem C6_rejected_recent_is_recorded now limit since_id source st :
  is_rate_limited (get_recent_traces now limit since_id source st).2 = true →
  let st' := (get_recent_traces now limit since_id source st).1 in
  table st' = table st
  ∧ source_ingest_window st' = source_ingest_window st
  ∧ source_ingest_totals st' = source_ingest_totals st
  ∧ broadcast st' = broadcast st
  ∧ recent_rate_window st' = recent_rate_window st ++ [now]
  ∧ stats st' = bump_recent_requests (stats st).
Proof. intros _ st'. unfold st'. by rewrite get_recent_traces_state. Qed.

(** The theorem at work: the thirty-first request within a second. *)
Lemma C6_rejected_recent_is_recorded_witness :
  recent_rate_window
    (get_recent_traces 1000 200 None None Samples.busy).1
  = recent_rate_window Samples.busy ++ [1000]
  ∧ stats (get_recent_traces 1000 200 None None Samples.busy).1
    = bump_recent_requests (stats Samples.busy).
Proof.
  destruct (C6_rejected_recent_is_recorded 1000 200 None None
              Samples.busy) as (_ & _ & _ & _ & Hw & Hs).
  - vm_compute. reflexivity.
  - exact (conj Hw Hs).
Defined.

(** C6 as stated fails: the thirty-first request within a second is
    rejected, yet the rate window has grown and the counter moved. *)
Lemma C6_counterexample :
  ¬ no_mutation_if_rejected 1000 200 None None Samples.busy.
Proof.
  unfold no_mutation_if_rejected.
  pose proof (get_recent_traces_state 1000 200 None None Samples.busy)
    as Hst.
  pose proof (get_recent_traces_limited 1000 200 None None Samples.busy)
    as Hlim.
  destruct (get_recent_traces 1000 200 None None Samples.busy)
    as [st' r]. cbn [fst snd] in Hst, Hlim.
  intros H. destruct H as (Hw & _); [rewrite Hlim; vm_compute; reflexivity|].
  subst st'. cbn [recent_rate_window] in Hw.
  apply (f_equal length) in Hw. rewrite length_app in Hw. cbn in Hw. lia.
Qed.

(** C7.  Every /recent call is put on record, and it is answered with
    the 429 failure exactly when thirty or more requests on record lie
    less than 60 s before it.  Hence, for any run of calls that lie
    within 60 s of one another, served on a state whose recorded
    requests are all 60 s or more older than each of them: every call
    gets an answer; the calls up to the 30th are answered with a page
    of traces; the 31st and every later one is answered with the 429
    failure. *)
Theorem C7_recent_rate_limit calls st :
  Forall (λ c, Forall (λ t, seconds 60 <= rc_now c - t) (recent_rate_window st))
         calls →
  Forall (λ c1, Forall (λ c2, rc_now c1 - rc_now c2 < seconds 60) calls) calls →
  (∀ now limit since_id source st0,
      recent_rate_window (get_recent_traces now limit since_id source st0).1
      = recent_rate_window st0 ++ [now]
      ∧ is_rate_limited (get_recent_traces now limit since_id source st0).2
        = (30 <=? count_within now (seconds 60) (recent_rate_window st0)))
  ∧ length (serve_recent calls st).2 = length calls
  ∧ ∀ n r, (serve_recent calls st).2 !! n = Some r →
           if bool_decide (30 ≤ n)%nat then r = inl too_many_requests
           else ∃ page, r = inr page.
Proof.
  intros Hold Hnear. split; [|split].
  - intros. by rewrite get_recent_traces_state, get_recent_traces_limited.
  - clear. revert st. induction calls as [|c rest IH]; intros st; [done|].
    cbn [serve_recent]. destruct (call_recent c st) as [st1 r].
    specialize (IH st1). destruct (serve_recent rest st1) as [st2 rs].
    cbn in *. by rewrite IH.
  - intros n r Hr.
    assert (Hcount : Forall (λ c, count_within (rc_now c) (seconds 60)
                                   (recent_rate_window st) = Z.of_nat 0) calls).
    { eapply Forall_impl; [exact Hold|]. intros c Hc.
      by apply count_within_outside. }
    pose proof (serve_recent_limited calls st 0 Hcount Hnear n r Hr) as Hlim.
    pose proof (serve_recent_answers calls st) as Hans.
    rewrite Forall_forall in Hans.
    specialize (Hans r (list_elem_of_lookup_2 _ _ _ Hr)).
    cbn [Nat.add] in Hlim.
    destruct (bool_decide (30 ≤ n)%nat);
      destruct Hans as [[Hrl ->]|[Hrl Hpage]]; try done; congruence.
Qed.

(** The theorem at work on thirty-one calls one second apart: the
    30th gets a page, the 31st the failure. *)
Lemma C7_recent_rate_limit_witness :
  (∃ page, (serve_recent Samples.burst (state0 0)).2 !! 29%nat = Some (inr page))
  ∧ (serve_recent Samples.burst (state0 0)).2 !! 30%nat
    = Some (inl too_many_requests).
Proof.
  destruct (C7_recent_rate_limit Samples.burst (state0 0)) as (_ & Hlen & Hn).
  - apply Forall_forall. intros c _. constructor.
  - apply Forall_forall. intros c1 (k1 & -> & Hk1)%list_elem_of_fmap.
    apply Forall_forall. intros c2 (k2 & -> & Hk2)%list_elem_of_fmap.
    apply list_elem_of_In, in_seq in Hk1. apply list_elem_of_In, in_seq in Hk2.
    cbn [rc_now]. unfold seconds. lia.
  - split.
    + destruct (lookup_lt_is_Some_2 (serve_recent Samples.burst (state0 0)).2
                  29%nat) as [r Hr]; [rewrite Hlen; vm_compute; lia|].
      pose proof (Hn _ _ Hr) as Hpage.
      rewrite bool_decide_false in Hpage by lia.
      destruct Hpage as [page ->]. by exists page.
    + destruct (lookup_lt_is_Some_2 (serve_recent Samples.burst (state0 0)).2
                  30%nat) as [r Hr]; [rewrite Hlen; vm_compute; lia|].
      pose proof (Hn _ _ Hr) as Hfail.
      rewrite bool_decide_true in Hfail by lia. by subst r.
Defined.

(** C10.  The single-entry handler leaves the per-source window, the
    per-source totals and the counters [ingest_total] and
    [ingest_duplicates] as they were.  The batch handler files one
    window entry and one unit of lifetime total per trace under its
    source, and adds the inserted and duplicate counts of its response
    to the two counters. *)
Theorem C10_only_batch_ingest_keeps_books :
  (∀ now trace st,
      let st' := (ingest_single_trace now trace st).1 in
      source_ingest_window st' = source_ingest_window st
      ∧ source_ingest_totals st' = source_ingest_totals st
      ∧ ingest_total (stats st') = ingest_total (stats st)
      ∧ ingest_duplicates (stats st') = ingest_duplicates (stats st))
  ∧ (∀ now traces st,
        let st' := (ingest_traces now traces st).1 in
        let resp := (ingest_traces now traces st).2 in
        (∀ sid, default 0 (source_ingest_totals st' !! sid)
                = default 0 (source_ingest_totals st !! sid)
                  + Z.of_nat (count_source sid traces))
        ∧ (∀ sid, default [] (source_ingest_window st' !! sid)
                  = default [] (source_ingest_window st !! sid)
                    ++ replicate (count_source sid traces) now)
        ∧ ingest_total (stats st') = ingest_total (stats st) + inserted resp
        ∧ ingest_duplicates (stats st')
          = ingest_duplicates (stats st) + duplicates resp
        ∧ inserted resp + duplicates resp = Z.of_nat (length traces)).
Proof.
  split.
  - intros now trace st. unfold ingest_single_trace.
    pose proof (insert_trace_counters now trace (table st) (stats st)) as [Ht Hd].
    destruct (insert_trace now trace (table st) (stats st)) as [[t' s'] ok].
    cbn in *. done.
  - intros now traces st. unfold ingest_traces.
    pose proof (ingest_loop_bookkeeping now traces st 0) as (H1 & H2 & _ & H4 & H5).
    destruct (ingest_loop now traces st 0) as [st1 n]. cbn [fst snd] in *.
    split; [exact H4|]. split; [exact H5|].
    unfold add_ingest. cbn. rewrite H1, H2. repeat split; lia.
Qed.

(** One trace through each handler, on a fresh server. *)
Example single_versus_batch :
  (source_ingest_totals
     (ingest_single_trace 5 Samples.e0 (state0 0)).1 !! "WK" = None
   ∧ ingest_total (stats (ingest_single_trace 5 Samples.e0 (state0 0)).1)
     = 0)
  ∧ (source_ingest_totals
       (ingest_traces 5 [(5, Samples.e0)] (state0 0)).1 !! "WK" = Some 1
     ∧ ingest_total
         (stats (ingest_traces 5 [(5, Samples.e0)] (state0 0)).1) = 1).
Proof. vm_compute. repeat split. Qed.

End EndpointsClaims.

(** * The live stream: cleanup and the terminal marker *)

Section StreamFacts.

Implicit Types (b : Broadcast) (q : nat) (out : list Event).

Lemma run_other_held cid q o b : held cid q b → held cid q (run_other o b).
Proof.
  intros Hh. destruct o as [trace|now cid'|cid' q'|now]; cbn [run_other].
  - eapply shrinks_held; [apply notify_shrinks | done].
  - by apply subscribe_keeps_held.
  - eapply shrinks_held; [apply unsubscribe_shrinks | done].
  - eapply shrinks_held; [apply cleanup_shrinks | done].
Qed.

Lemma run_others_held cid q os b : held cid q b → held cid q (run_others os b).
Proof.
  revert b. induction os as [|o os IH]; intros b Hh; [done|].
  cbn [run_others foldl]. apply IH. by apply run_other_held.
Qed.

(** Whatever the tasks do through [streaming.py], registrations stay
    well formed. *)
Lemma run_others_wf os b : well_formed b → well_formed (run_others os b).
Proof.
  revert b. induction os as [|o os IH]; intros b Hwf; [done|].
  cbn [run_others foldl]. apply IH.
  destruct o as [trace|now cid'|cid' q'|now]; cbn [run_other].
  - eapply shrinks_wf; [apply notify_shrinks | done].
  - by apply subscribe_wf.
  - eapply shrinks_wf; [apply unsubscribe_shrinks | done].
  - eapply shrinks_wf; [apply cleanup_shrinks | done].
Qed.

Lemma marker_not_in_snoc out e :
  TimeoutMarker ∉ out → e ≠ TimeoutMarker → TimeoutMarker ∉ out ++ [e].
Proof.
  intros Hout He [Hin|Hin%list_elem_of_singleton]%elem_of_app; [done|].
  by apply He.
Qed.

(** The loop between [subscribe] and the end of the generator.  It
    always reports the handle; when it exits, the handle is in no
    bucket; it emits the marker last when it runs to completion and not
    at all when it is cut short. *)
Lemma stream_loop_spec cid q deadline ts b out :
  held cid q b →
  TimeoutMarker ∉ out →
  let o := stream_loop cid q deadline ts b out in
  handle o = Some q
  ∧ (exit o ≠ Suspended → unregistered q (final o))
  ∧ (exit o = Completed → last (emitted o) = Some TimeoutMarker)
  ∧ (exit o ≠ Completed → TimeoutMarker ∉ emitted o).
Proof.
  revert b out. induction ts as [|tn rest IH]; intros b out Hh Hout.
  - cbn. repeat split; done.
  - cbn [stream_loop]. destruct (turn_now tn <? deadline).
    + pose proof (run_others_held cid q (turn_others tn) b Hh) as Hh1.
      destruct (turn_fault tn).
      { cbn. repeat split; try done. intros _.
        by apply unsubscribe_unregisters. }
      destruct (queue_get q (run_others (turn_others tn) b))
        as [[trace b2]|] eqn:Hget.
      * assert (Hh2 : held cid q b2).
        { eapply shrinks_held; [by eapply queue_get_shrinks | done]. }
        assert (Hout' : TimeoutMarker ∉ out ++ [Data trace])
          by by apply marker_not_in_snoc.
        destruct (turn_close tn); [|by apply IH].
        cbn. repeat split; try done. intros _.
        by apply unsubscribe_unregisters.
      * assert (Hout' : TimeoutMarker ∉ out ++ [Keepalive])
          by by apply marker_not_in_snoc.
        destruct (turn_close tn); [|by apply IH].
        cbn. repeat split; try done. intros _.
        by apply unsubscribe_unregisters.
    + cbn. repeat split; try done.
      * intros _. by apply unsubscribe_unregisters.
      * intros _. apply last_snoc.
Qed.

(** The loop does exit: a turn whose clock has reached the deadline
    ends whatever run was still going. *)
Lemma stream_loop_exits cid q deadline ts tn b out :
  deadline <= turn_now tn →
  exit (stream_loop cid q deadline (ts ++ [tn]) b out) ≠ Suspended.
Proof.
  intros Hdl. revert b out. induction ts as [|t0 ts IH]; intros b out.
  - cbn. apply Z.ltb_ge in Hdl. by rewrite Hdl.
  - cbn [app stream_loop]. destruct (turn_now t0 <? deadline); [|done].
    destruct (turn_fault t0); [done|].
    destruct (queue_get q _) as [[trace b2]|]; destruct (turn_close t0);
      try done; apply IH.
Qed.

Lemma marker_not_replayed (existing : list TraceEntry) :
  TimeoutMarker ∉ Data <$> existing.
Proof. by intros (t & Ht & _)%list_elem_of_fmap. Qed.

End StreamFacts.

Module StreamExamples.

Example quiet_minute_run :
  let o := event_generator "c1" 60 Samples.quiet_minute (state0 0) in
  emitted o = [Data Samples.e0; Keepalive; TimeoutMarker]
  ∧ exit o = Completed
  ∧ subscribers (final o) = ∅.
Proof. vm_compute. repeat split. Qed.

Example disconnected_run :
  let o := event_generator "c1" 60 Samples.disconnected (state0 0) in
  emitted o = [Keepalive] ∧ exit o = Closed ∧ subscribers (final o) = ∅.
Proof. vm_compute. repeat split. Qed.

End StreamExamples.

Section StreamClaims.

(** C9 (amended).  Start the stream handler on well-formed
    registrations and let it run to an exit, be it the timeout, an
    exception or the consumer closing the generator.  If it had
    subscribed, its queue is registered under no id afterwards; if it
    ended before subscribing, the registrations are untouched.  When
    it ran to the timeout, the terminal marker is the last event
    emitted; when it was cut short by an exception or a disconnect, no
    terminal marker is emitted at all. *)
Theorem C9_stream_cleanup_and_marker cid timeout sc st :
  well_formed (broadcast st) →
  let o := event_generator cid timeout sc st in
  exit o ≠ Suspended →
  cleaned_up o
  ∧ (handle o = None → final o = broadcast st)
  ∧ (exit o = Completed → ends_with_marker o)
  ∧ (exit o ≠ Completed → TimeoutMarker ∉ emitted o).
Proof.
  intros Hwf o. subst o. unfold event_generator, cleaned_up, ends_with_marker.
  destruct (query_fault sc).
  { cbn. intros _. repeat split; try done. intros _. apply not_elem_of_nil. }
  set (existing := query_traces cid None None (table st)).
  destruct (match replay_close sc with
            | Some n => if (n <? length existing)%nat then Some n else None
            | None => None
            end) as [n|].
  { cbn. intros _. repeat split; try done. intros _. apply marker_not_replayed. }
  pose proof (subscribe_held (subscribe_now sc) cid (broadcast st) Hwf) as Hh.
  unfold subscribe in *. cbn [fst] in Hh.
  match goal with
  | |- exit (stream_loop ?c ?q ?d ?ts ?b ?out) ≠ _ → _ =>
      destruct (stream_loop_spec c q d ts b out Hh (marker_not_replayed existing))
        as (Hhandle & Hclean & Hlast & Hnone)
  end.
  intros Hexit. split; [|split; [|split]].
  - intros q. rewrite Hhandle. intros [= <-]. by apply Hclean.
  - rewrite Hhandle. done.
  - exact Hlast.
  - exact Hnone.
Qed.

Lemma well_formed_state0 boot : well_formed (broadcast (state0 boot)).
Proof. apply well_formed_broadcast0. Qed.

(** The theorem at work on a stream that sees one trace, idles and
    times out after 60 s. *)
Lemma C9_stream_cleanup_and_marker_witness :
  cleaned_up (event_generator "c1" 60 Samples.quiet_minute (state0 0))
  ∧ ends_with_marker
      (event_generator "c1" 60 Samples.quiet_minute (state0 0)).
Proof.
  destruct (C9_stream_cleanup_and_marker "c1" 60 Samples.quiet_minute
              (state0 0)) as (Hclean & _ & Hmark & _).
  - apply well_formed_state0.
  - vm_compute. discriminate.
  - split; [exact Hclean|]. apply Hmark. vm_compute. reflexivity.
Defined.

(** C9 as stated fails on the error path: when the wait is cancelled
    the handler unsubscribes and the exception leaves the generator
    before the last [yield]; nothing was emitted, so the events do not
    end with the terminal marker. *)
Lemma C9_counterexample :
  exit (event_generator "c1" 60 Samples.cancelled (state0 0)) = Raised
  ∧ ¬ ends_with_marker
        (event_generator "c1" 60 Samples.cancelled (state0 0)).
Proof. vm_compute. split; [reflexivity | discriminate]. Qed.

(** Every run is brought to an exit by a clock reading at or past the
    deadline. *)
Lemma event_generator_exits cid timeout sc st tn :
  start_now sc + seconds timeout <= turn_now tn →
  exit (event_generator cid timeout
          (mkScript (query_fault sc) (replay_close sc) (subscribe_now sc)
                    (start_now sc) (turns sc ++ [tn])) st) ≠ Suspended.
Proof.
  intros Hdl. unfold event_generator.
  cbn [query_fault replay_close subscribe_now start_now turns].
  destruct (query_fault sc); [done|].
  destruct (match replay_close sc with Some _ => _ | None => _ end); [done|].
  unfold subscribe. by apply stream_loop_exits.
Qed.

End StreamClaims.

(** * Further properties of the store *)

Section StoreExtras.

Implicit Types (e : TraceEntry) (r : Row) (rs : list Row) (t : Table) (s : Stats).

Lemma update_row_id e now r : r_id (update_row e now r) = r_id r.
Proof. unfold update_row. by destruct (soft_match e now r). Qed.

Lemma update_rows_ids e now rs : r_id <$> (update_row e now <$> rs) = r_id <$> rs.
Proof.
  induction rs as [|r rs IH]; [done|].
  cbn [fmap list_fmap]. by rewrite update_row_id, IH.
Qed.

Lemma StronglySorted_sublist {A} (R : relation A) (l1 l2 : list A) :
  l1 `sublist_of` l2 → StronglySorted R l2 → StronglySorted R l1.
Proof.
  induction 1 as [|x l1 l2 Hsub IH|x l1 l2 Hsub IH]; [done| |].
  - rewrite !StronglySorted_cons. intros [Hall Hs]. split; [|by apply IH].
    rewrite Forall_forall in Hall |- *. intros y Hy. apply Hall.
    by eapply elem_of_sublist.
  - rewrite StronglySorted_cons. intros [_ Hs]. by apply IH.
Qed.

Lemma StronglySorted_snoc_lt (ids : list Z) (bound : Z) :
  StronglySorted Z.lt ids → Forall (λ i, i <= bound) ids →
  StronglySorted Z.lt (ids ++ [bound + 1]).
Proof.
  intros Hs Hall. apply StronglySorted_app. split; [|split; [done|]].
  - intros x1 x2 Hx1 ->%list_elem_of_singleton.
    rewrite Forall_forall in Hall. specialize (Hall x1 Hx1). lia.
  - apply StronglySorted_cons. split; constructor.
Qed.

(** The four ways [insert_trace] ends: aborted by the UPDATE, absorbed
    as a soft duplicate, ignored by the INSERT, inserted. *)
Lemma insert_trace_cases now e t s :
  (insert_trace now e t s = (t, s, false)
   ∧ ((∃ x, x ∈ rows t ∧ soft_match e now x = true)
      ∨ unique_ok (rows t) = false))
  ∨ (insert_trace now e t s
     = (mkTable (update_row e now <$> rows t) (last_id t), bump_deduped s, false)
     ∧ ∃ x, x ∈ rows t ∧ soft_match e now x = true)
  ∨ (insert_trace now e t s = (mkTable (rows t) (last_id t + 1), s, false)
     ∧ Forall (λ r, soft_match e now r = false) (rows t))
  ∨ (insert_trace now e t s
     = (mkTable (rows t ++ [new_row e now (last_id t + 1)]) (last_id t + 1),
        s, true)
     ∧ Forall (λ r, soft_match e now r = false) (rows t)).
Proof.
  unfold insert_trace, sql_update, sql_insert_or_ignore.
  destruct (filter (λ r, soft_match e now r = true) (rows t)) as [|x l] eqn:Hf.
  - pose proof (filter_no_match_inv _ _ _ Hf) as Hno.
    rewrite (update_row_no_match _ _ _ Hno). cbn [length Z.of_nat].
    destruct (timestamp e); cbn [is_nan orb rows last_id].
    + destruct (unique_ok (rows t)); [|left; split; [done|by right]].
      cbn [Z.ltb Z.compare].
      destruct (existsb _ (rows t)); cbn; [right; right; left|right; right; right];
        by split.
    + cbn. right. right. left. by split.
  - assert (Hx : ∃ x, x ∈ rows t ∧ soft_match e now x = true).
    { assert (Hin : x ∈ filter (λ r, soft_match e now r = true) (rows t))
        by (rewrite Hf; left).
      apply list_elem_of_filter in Hin as [Hm Hin]. by exists x. }
    destruct (timestamp e).
    + destruct (unique_ok _); [|left; split; [done|by left]].
      right. left. by split.
    + left. split; [done|by left].
Qed.

(** The ids of the table after [insert_trace]. *)
Lemma insert_trace_ids now e t s :
  r_id <$> rows (insert_trace now e t s).1.1
  = (r_id <$> rows t)
    ++ (if (insert_trace now e t s).2 then [last_id t + 1] else [])
  ∧ last_id t <= last_id (insert_trace now e t s).1.1 <= last_id t + 1
  ∧ ((insert_trace now e t s).2 = true →
     last_id (insert_trace now e t s).1.1 = last_id t + 1).
Proof.
  destruct (insert_trace_cases now e t s)
    as [[-> _]|[[-> _]|[[-> _]|[-> _]]]]; cbn [fst snd rows last_id].
  - rewrite app_nil_r. split; [done|]. split; [lia|done].
  - rewrite update_rows_ids, app_nil_r. split; [done|]. split; [lia|done].
  - rewrite app_nil_r. split; [done|]. split; [lia|done].
  - rewrite fmap_app. split; [done|]. split; [lia|done].
Qed.

(** X1.  [insert_trace] never removes a row and never changes the id
    of a row; it returns [true] exactly when it appended one row, and
    that row gets the next id of the AUTOINCREMENT sequence.  The
    sequence moves by one whenever the INSERT statement runs, that is
    when no stored row is a live soft duplicate: also when the row is
    then ignored as a hard duplicate, which leaves a gap in the ids.
    It stays when the submission is absorbed or aborted by the
    UPDATE. *)
Theorem X1_insert_trace_appends_or_keeps now e t s :
  r_id <$> rows (insert_trace now e t s).1.1
  = (r_id <$> rows t)
    ++ (if (insert_trace now e t s).2 then [last_id t + 1] else [])
  ∧ ((insert_trace now e t s).2 = true →
     last_id (insert_trace now e t s).1.1 = last_id t + 1)
  ∧ (Forall (λ r, soft_match e now r = false) (rows t) →
     unique_ok (rows t) = true →
     last_id (insert_trace now e t s).1.1 = last_id t + 1)
  ∧ ((∃ r, r ∈ rows t ∧ soft_match e now r = true) →
     last_id (insert_trace now e t s).1.1 = last_id t).
Proof.
  destruct (insert_trace_ids now e t s) as (Hids & _ & Hnew).
  split; [done|]. split; [done|]. split.
  - intros Hno Hu. rewrite (insert_trace_no_match _ _ _ _ Hno Hu).
    by destruct (_ || _).
  - intros (r & Hr & Hm).
    destruct (insert_trace_cases now e t s)
      as [[-> _]|[[-> _]|[[_ Hno]|[_ Hno]]]]; [done|done| |];
      rewrite Forall_forall in Hno; rewrite (Hno r Hr) in Hm; discriminate.
Qed.

(** The same entry sent three times, more than 300 s apart, and then
    another one: the two ignored inserts use up the ids 2 and 3. *)
Example ignored_inserts_leave_a_gap :
  let t1 := (insert_trace 0 Samples.e0 empty_table (stats0 0)).1.1 in
  let t2 := (insert_trace (seconds 400) Samples.e0 t1 (stats0 0)).1.1 in
  let t3 := (insert_trace (seconds 800) Samples.e0 t2 (stats0 0)).1.1 in
  let t4 := (insert_trace (seconds 1200) Samples.e1 t3 (stats0 0)).1.1 in
  r_id <$> rows t3 = [1] ∧ last_id t3 = 3
  ∧ r_id <$> rows t4 = [1; 4] ∧ last_id t4 = 4.
Proof. vm_compute. repeat split. Qed.

(** The table invariant after [insert_trace]. *)
Lemma insert_trace_table_ok now e t s :
  table_ok t →
  table_ok (insert_trace now e t s).1.1
  ∧ last_id t <= last_id (insert_trace now e t s).1.1.
Proof.
  intros (Hu & Hsorted & Hbound).
  destruct (insert_trace_ids now e t s) as (Hids & Hlast & Hnew).
  pose proof (insert_trace_unique now e t s Hu) as Hu'.
  assert (Hb : Forall (λ i, i <= last_id t) (r_id <$> rows t))
    by by apply Forall_fmap.
  split; [split; [done|split]|lia].
  - rewrite Hids. destruct (insert_trace now e t s).2.
    + by apply StronglySorted_snoc_lt.
    + by rewrite app_nil_r.
  - apply (Forall_fmap r_id (λ i, i <= _)). rewrite Hids.
    destruct (insert_trace now e t s).2.
    + rewrite (Hnew eq_refl). apply Forall_app. split.
      * eapply Forall_impl; [exact Hb|]. intros i Hi. cbn in Hi. lia.
      * constructor; [lia | constructor].
    + rewrite app_nil_r.
      eapply Forall_impl; [exact Hb|]. intros i Hi. cbn in Hi. lia.
Qed.

Lemma table_ok_empty : table_ok empty_table.
Proof. split; [done|]. split; constructor. Qed.

(** X2.  [insert_trace] keeps the table as the schema wants it: the
    uniqueness constraint holds, ids ascend in row order and none
    exceeds the sequence, which never goes back. *)
Theorem X2_insert_trace_keeps_table_ok now e t s :
  table_ok t →
  table_ok (insert_trace now e t s).1.1
  ∧ last_id t <= last_id (insert_trace now e t s).1.1.
Proof. apply insert_trace_table_ok. Qed.

(** The invariant at work on the first insert into an empty store. *)
Lemma X2_insert_trace_keeps_table_ok_witness :
  table_ok (insert_trace 5500 Samples.e0 empty_table (stats0 0)).1.1
  ∧ last_id empty_table
    <= last_id (insert_trace 5500 Samples.e0 empty_table (stats0 0)).1.1.
Proof.
  apply (X2_insert_trace_keeps_table_ok 5500 Samples.e0 empty_table (stats0 0)).
  apply table_ok_empty.
Defined.

(** The stable insertion sort rearranges and sorts. *)
Lemma insert_sorted_perm {A} (before : A → A → bool) a (l : list A) :
  insert_sorted before a l ≡ₚ a :: l.
Proof.
  induction l as [|x l IH]; cbn [insert_sorted]; [done|].
  destruct (before a x); [done|]. rewrite IH. apply Permutation_swap.
Qed.

Lemma stable_sort_perm {A} (before : A → A → bool) (l : list A) :
  stable_sort before l ≡ₚ l.
Proof.
  induction l as [|a l IH]; [done|].
  cbn [stable_sort foldr]. rewrite insert_sorted_perm. by f_equiv.
Qed.

Lemma insert_sorted_sorted {A} (R : relation A) `{!Transitive R}
    (before : A → A → bool) a (l : list A) :
  (∀ x y, before x y = true → R x y) →
  (∀ x y, before x y = false → R y x) →
  StronglySorted R l → StronglySorted R (insert_sorted before a l).
Proof.
  intros Ht Hf. induction l as [|x l IH]; cbn [insert_sorted]; intros Hs.
  - apply StronglySorted_cons. split; constructor.
  - apply StronglySorted_cons in Hs as [Hall Hs].
    destruct (before a x) eqn:Hax.
    + apply StronglySorted_cons. split.
      * constructor; [by apply Ht|].
        eapply Forall_impl; [exact Hall|]. intros y Hy.
        etrans; [by apply Ht | done].
      * by apply StronglySorted_cons.
    + apply StronglySorted_cons. split; [|by apply IH].
      rewrite (insert_sorted_perm before a l).
      constructor; [by apply Hf | done].
Qed.

Lemma stable_sort_sorted {A} (R : relation A) `{!Transitive R}
    (before : A → A → bool) (l : list A) :
  (∀ x y, before x y = true → R x y) →
  (∀ x y, before x y = false → R y x) →
  StronglySorted R (stable_sort before l).
Proof.
  intros Ht Hf. induction l as [|a l IH]; [constructor|].
  cbn [stable_sort foldr]. by apply insert_sorted_sorted.
Qed.

Lemma order_by_timestamp_stable_sort rs :
  order_by_timestamp rs = stable_sort comes_before rs.
Proof.
  assert (Hins : ∀ r l, insert_by_timestamp r l
            = insert_sorted comes_before r l).
  { intros r l. induction l as [|x l IHl]; [done|].
    cbn [insert_by_timestamp insert_sorted]. by rewrite IHl. }
  unfold order_by_timestamp, stable_sort.
  induction rs as [|r rs IH]; [done|].
  cbn [foldr]. by rewrite IH, Hins.
Qed.

#[local] Instance by_timestamp_trans :
  Transitive (λ a b : Row, r_timestamp a <= r_timestamp b).
Proof. intros a b c. lia. Qed.

(** [query_traces] in terms of the WHERE clause as a proposition. *)
Lemma query_traces_filter cid src since t :
  query_traces cid src since t
  = row_to_entry
      <$> order_by_timestamp (filter (query_matches cid src since) (rows t)).
Proof.
  unfold query_traces. do 2 f_equal.
  apply list_filter_iff. intros r. unfold query_matches.
  rewrite !andb_true_iff, bool_decide_eq_true.
  destruct (truthy_str src), (truthy_num since);
    rewrite ?bool_decide_eq_true, ?Z.ltb_lt; tauto.
Qed.

(** Every entry [query_traces] returns has the id asked for. *)
Lemma query_traces_cid cid src since t trace :
  trace ∈ query_traces cid src since t → correlation_id trace = cid.
Proof.
  rewrite query_traces_filter, order_by_timestamp_stable_sort.
  intros (r & -> & Hr)%list_elem_of_fmap.
  rewrite stable_sort_perm in Hr.
  by apply list_elem_of_filter in Hr as [[? _] _].
Qed.

(** X3.  [query_traces] returns the stored entries that pass its
    filters (the correlation id, the source when one is given, the
    lower bound on the timestamp when one is given), each as often as
    it is stored, ordered by timestamp, oldest first. *)
Theorem X3_query_traces_sorted_and_complete cid src since t :
  StronglySorted (λ a b, float_le (timestamp a) (timestamp b))
                 (query_traces cid src since t)
  ∧ query_traces cid src since t
    ≡ₚ row_to_entry <$> filter (query_matches cid src since) (rows t).
Proof.
  rewrite query_traces_filter, order_by_timestamp_stable_sort. split.
  - apply (StronglySorted_fmap _ (λ a b : Row, r_timestamp a <= r_timestamp b)).
    + by intros x y.
    + apply stable_sort_sorted; [apply _| |].
      * intros x y. unfold comes_before.
        rewrite orb_true_iff, andb_true_iff, Z.ltb_lt, Z.eqb_eq. lia.
      * intros x y. unfold comes_before.
        rewrite orb_false_iff, Z.ltb_ge. lia.
  - by rewrite stable_sort_perm.
Qed.

(** Rows of one timestamp come by suffix, not by id. *)
Example query_orders_by_timestamp :
  let row id stamp suf src :=
    mkRow id src "c1" stamp suf "->" "RPC" "/foo" None "unknown" None 0 in
  (λ e, (timestamp e, suffix e))
    <$> query_traces "c1" (Some "WK") None
          (mkTable [row 1 30 "a" "WK"; row 2 10 "z" "WK"; row 3 20 "m" "MA";
                    row 4 10 "k" "WK"] 4)
  = [(Num 10, "k"); (Num 10, "z"); (Num 30, "a")].
Proof. vm_compute. reflexivity. Qed.

Lemma length_filter_split {A} (P : A → Prop) `{∀ x, Decision (P x)} (l : list A) :
  length l = (length (filter P l) + length (filter (λ x, ¬ P x) l))%nat.
Proof. by rewrite <- length_app, filter_app_complement. Qed.

Lemma table_ok_sublist t rs :
  rs `sublist_of` rows t → table_ok t → table_ok (mkTable rs (last_id t)).
Proof.
  intros Hsub (Hu & Hsorted & Hbound). split; [|split]; cbn [rows last_id].
  - apply unique_ok_NoDup. apply unique_ok_NoDup in Hu.
    eapply sublist_NoDup; [exact Hu|]. by apply fmap_sublist.
  - eapply StronglySorted_sublist; [|exact Hsorted]. by apply fmap_sublist.
  - rewrite Forall_forall in Hbound |- *. intros r Hr. apply Hbound.
    by eapply elem_of_sublist.
Qed.

(** X4.  [cleanup_old_traces] deletes the rows stored before the
    cutoff [now - TRACEHUB_RETENTION_HOURS * 3600 s] and no others, a
    row stored exactly at the cutoff staying; the survivors keep their
    order, the returned count is the number of rows deleted, the id
    sequence is not reset, a second sweep at the same clock deletes
    nothing, and the table stays as the schema wants it. *)
Theorem X4_cleanup_old_traces_retention hours now t :
  let cutoff := now - seconds (hours * 3600) in
  let t' := (cleanup_old_traces hours now t).1 in
  (∀ r, r ∈ rows t' ↔ r ∈ rows t ∧ cutoff <= r_created_at r)
  ∧ rows t' `sublist_of` rows t
  ∧ Z.of_nat (length (rows t))
    = Z.of_nat (length (rows t')) + (cleanup_old_traces hours now t).2
  ∧ last_id t' = last_id t
  ∧ (cleanup_old_traces hours now t').2 = 0
  ∧ (table_ok t → table_ok t').
Proof.
  intros cutoff t'. unfold t', cleanup_old_traces. cbn [fst snd rows last_id].
  fold cutoff. split; [|split; [|split; [|split; [done|split]]]].
  - intros r. rewrite list_elem_of_filter. split; intros [? ?]; split; (done || lia).
  - apply sublist_filter.
  - rewrite (length_filter_split (λ r, r_created_at r < cutoff) (rows t)). lia.
  - assert (Hnone : filter (λ r, r_created_at r < cutoff)
                      (filter (λ r, ¬ r_created_at r < cutoff) (rows t)) = []).
    { rewrite list_filter_filter.
      destruct (filter _ (rows t)) as [|r l] eqn:Hf; [done|].
      assert (Hr : r ∈ r :: l) by left. rewrite <- Hf in Hr.
      apply list_elem_of_filter in Hr as [[? ?] _]. done. }
    by rewrite Hnone.
  - apply table_ok_sublist, sublist_filter.
Qed.

(** X5.  Ids are not used again after a sweep: a row inserted after
    [cleanup_old_traces] has an id above the id of every row the table
    held before the sweep, the deleted ones included. *)
Theorem X5_ids_not_reused_after_cleanup hours now now' e t s :
  table_ok t →
  (insert_trace now' e (cleanup_old_traces hours now t).1 s).2 = true →
  ∃ r, rows (insert_trace now' e (cleanup_old_traces hours now t).1 s).1.1
       = rows (cleanup_old_traces hours now t).1 ++ [r]
       ∧ Forall (λ r0, r_id r0 < r_id r) (rows t).
Proof.
  intros (_ & _ & Hbound) Hins.
  destruct (insert_trace now' e (cleanup_old_traces hours now t).1 s)
    as [[t2 s2] b] eqn:Hcall.
  cbn [snd] in Hins. subst b.
  apply insert_trace_true in Hcall as (_ & _ & -> & _).
  eexists. split; [done|]. cbn [cleanup_old_traces fst last_id r_id new_row].
  eapply Forall_impl; [exact Hbound|]. intros r0 Hr0. cbn in Hr0. lia.
Qed.

Lemma table_ok_stored_e0 : table_ok Samples.stored_e0.
Proof.
  apply (insert_trace_table_ok 0 Samples.e0 empty_table (stats0 0)).
  apply table_ok_empty.
Qed.

(** The theorem at work: the only row (id 1) is swept two days later,
    the next row gets id 2. *)
Lemma X5_ids_not_reused_after_cleanup_witness :
  ∃ r, rows (insert_trace (seconds 172800) Samples.e0
               (cleanup_old_traces 24 (seconds 172800) Samples.stored_e0).1
               (stats0 0)).1.1
       = rows (cleanup_old_traces 24 (seconds 172800) Samples.stored_e0).1 ++ [r]
       ∧ Forall (λ r0, r_id r0 < r_id r) (rows Samples.stored_e0).
Proof.
  apply (X5_ids_not_reused_after_cleanup 24 (seconds 172800) (seconds 172800)
           Samples.e0 Samples.stored_e0 (stats0 0)).
  - apply table_ok_stored_e0.
  - vm_compute. reflexivity.
Defined.

Lemma rev_fmap {A B} (f : A → B) (l : list A) : rev (f <$> l) = f <$> rev l.
Proof.
  induction l as [|a l IH]; [done|].
  cbn [fmap list_fmap rev]. fold (f <$> l). by rewrite IH, fmap_app.
Qed.

(** The page of [select_recent]: the last rows that match, in table
    order. *)
Lemma select_recent_page limit since_id source t :
  let m := filter (recent_matches since_id source) (rows t) in
  let n := if limit <? 0 then length m else Z.to_nat limit in
  select_recent limit since_id source t
  = recent_item <$> drop (length m - n) m.
Proof.
  intros m n. unfold select_recent.
  match goal with
  | |- context [filter ?P (rows t)] =>
      assert (Hf : filter P (rows t) = m)
  end.
  { apply list_filter_iff. intros r. unfold recent_matches.
    rewrite !andb_true_iff, negb_true_iff, bool_decide_eq_false.
    destruct since_id, (truthy_str source); rewrite ?Z.ltb_lt; tauto. }
  rewrite Hf, rev_fmap. f_equal. subst n.
  destruct (limit <? 0).
  - by rewrite rev_involutive, Nat.sub_diag.
  - by rewrite firstn_rev, rev_involutive.
Qed.

(** X6.  The page of /recent on a table that satisfies the schema: it
    holds at most [limit] items when the limit is not negative; its
    ids ascend strictly (oldest first); each item is a stored row that
    passes the filters ([since_id], the source prefix, correlation id
    other than the catch-all); and a stored row that passes the filters
    and is left out has a smaller id than every item of the page, which
    then is full. *)
Theorem X6_select_recent_newest_page limit since_id source t :
  table_ok t →
  (0 <= limit →
   Z.of_nat (length (select_recent limit since_id source t)) <= limit)
  ∧ StronglySorted Z.lt (ri_id <$> select_recent limit since_id source t)
  ∧ (∀ i, i ∈ select_recent limit since_id source t →
       ∃ r, r ∈ rows t ∧ recent_matches since_id source r ∧ i = recent_item r)
  ∧ (∀ r, r ∈ rows t → recent_matches since_id source r →
       recent_item r ∈ select_recent limit since_id source t
       ∨ (Z.of_nat (length (select_recent limit since_id source t)) = limit
          ∧ Forall (λ i, r_id r < ri_id i)
                   (select_recent limit since_id source t))).
Proof.
  intros (_ & Hsorted & _). rewrite select_recent_page.
  set (m := filter (recent_matches since_id source) (rows t)).
  set (n := if limit <? 0 then length m else Z.to_nat limit).
  set (k := (length m - n)%nat).
  assert (Hm : StronglySorted Z.lt (r_id <$> m)).
  { eapply StronglySorted_sublist; [|exact Hsorted].
    apply fmap_sublist, sublist_filter. }
  assert (Hids : ri_id <$> (recent_item <$> drop k m) = r_id <$> drop k m).
  { rewrite <- list_fmap_compose. by apply list_fmap_ext. }
  split; [|split; [|split]].
  - intros Hlim. rewrite length_fmap, length_drop. subst k n.
    destruct (limit <? 0) eqn:Hneg; [apply Z.ltb_lt in Hneg; lia|]. lia.
  - rewrite Hids. eapply StronglySorted_sublist; [|exact Hm].
    apply fmap_sublist, sublist_drop.
  - intros i (r & -> & Hr)%list_elem_of_fmap.
    assert (Hrm : r ∈ m) by (eapply elem_of_sublist; [exact Hr|apply sublist_drop]).
    apply list_elem_of_filter in Hrm as [? ?]. by exists r.
  - intros r Hr Hmatch.
    assert (Hrm : r ∈ m) by by apply list_elem_of_filter.
    rewrite <- (take_drop k m) in Hrm. apply elem_of_app in Hrm as [Hold|Hnew].
    + right. split.
      * rewrite length_fmap, length_drop.
        assert (Hk : (0 < k)%nat).
        { destruct k; [|lia]. by apply elem_of_nil in Hold. }
        subst k n. destruct (limit <? 0) eqn:Hneg; [lia|].
        apply Z.ltb_ge in Hneg. lia.
      * apply Forall_fmap. rewrite Forall_forall. intros y Hy. cbn.
        rewrite <- (take_drop k m), fmap_app in Hm.
        apply (StronglySorted_app_1_elem_of _ _ _ _ _ Hm);
          by apply list_elem_of_fmap_2.
    + left. by apply list_elem_of_fmap_2.
Qed.

(** The theorem at work on the store that holds [e0]. *)
Lemma X6_select_recent_newest_page_witness :
  (0 <= 10 →
   Z.of_nat (length (select_recent 10 None None Samples.stored_e0)) <= 10)
  ∧ StronglySorted Z.lt (ri_id <$> select_recent 10 None None Samples.stored_e0)
  ∧ (∀ i, i ∈ select_recent 10 None None Samples.stored_e0 →
       ∃ r, r ∈ rows Samples.stored_e0 ∧ recent_matches None None r
            ∧ i = recent_item r)
  ∧ (∀ r, r ∈ rows Samples.stored_e0 → recent_matches None None r →
       recent_item r ∈ select_recent 10 None None Samples.stored_e0
       ∨ (Z.of_nat (length (select_recent 10 None None Samples.stored_e0)) = 10
          ∧ Forall (λ i, r_id r < ri_id i)
                   (select_recent 10 None None Samples.stored_e0))).
Proof.
  apply (X6_select_recent_newest_page 10 None None Samples.stored_e0).
  apply table_ok_stored_e0.
Defined.

End StoreExtras.

(** ** The controller beyond the claims *)

Section ControllerExtras.

Variables (hot_ttl warm_ttl : Z).

Implicit Types (c : Controller) (e : entry).

(** X7.  [cooldown_tick] only cools.  An entry it leaves has the
    [queried_at] it had, is untouched when it has not expired, and is
    HOT only if it was that very HOT entry before; an id it does not
    leave either was not tracked or was WARM and expired. *)
Theorem X7_cooldown_tick_only_cools now c cid :
  match adaptive_state (cooldown_tick warm_ttl now c) !! cid with
  | Some e' =>
      ∃ e, adaptive_state c !! cid = Some e
           ∧ queried_at e' = queried_at e
           ∧ (now < expires_at e → e' = e)
           ∧ (state e' = "hot" → e' = e)
  | None =>
      adaptive_state c !! cid = None
      ∨ ∃ e, adaptive_state c !! cid = Some e
             ∧ state e = "warm" ∧ expires_at e <= now
  end.
Proof.
  rewrite cooldown_tick_omap. cbn [adaptive_state]. rewrite lookup_omap.
  destruct (adaptive_state c !! cid) as [e|]; cbn; [|by left].
  unfold tick_entry.
  destruct (now <? expires_at e) eqn:Hexp.
  { exists e. by repeat split. }
  apply Z.ltb_ge in Hexp.
  destruct (bool_decide_reflect (state e = "hot")) as [Hh|Hh].
  { exists e. split; [done|]. split; [done|]. split; [intros; lia|].
    intros [=]. }
  destruct (bool_decide_reflect (state e = "warm")) as [Hw|Hw].
  { right. by exists e. }
  exists e. by repeat split.
Qed.

(** What [cooldown_tick] leaves has no transition due at the same
    instant, when WARM lasts. *)
Lemma tick_entry_settled now e e' :
  0 < warm_ttl → tick_entry warm_ttl now e = Some e' →
  transitions now e' = false.
Proof.
  intros Hw. unfold tick_entry, transitions.
  destruct (now <? expires_at e) eqn:Hexp.
  { intros [= <-]. by rewrite Hexp. }
  destruct (bool_decide_reflect (state e = "hot")) as [Hh|Hh].
  { intros [= <-]. cbn [expires_at].
    assert (Hlt : (now <? now + seconds warm_ttl) = true)
      by (apply Z.ltb_lt; unfold seconds; lia).
    by rewrite Hlt. }
  destruct (bool_decide_reflect (state e = "warm")) as [Hwm|Hwm]; [done|].
  intros [= <-]. rewrite Hexp. cbn [negb andb].
  by rewrite !bool_decide_eq_false_2.
Qed.

(** X8.  With a positive [ADAPTIVE_WARM_TTL], one [cooldown_tick] does
    all that is due at its instant: a second one at the same clock
    reading changes neither the state table nor the etag. *)
Theorem X8_cooldown_tick_settles now c :
  0 < warm_ttl →
  cooldown_tick warm_ttl now (cooldown_tick warm_ttl now c)
  = cooldown_tick warm_ttl now c.
Proof.
  intros Hw. rewrite (cooldown_tick_omap warm_ttl now (cooldown_tick _ _ _)).
  assert (Hset : ∀ k e, adaptive_state (cooldown_tick warm_ttl now c) !! k = Some e
                        → transitions now e = false).
  { intros k e. rewrite cooldown_tick_omap. cbn [adaptive_state].
    rewrite lookup_omap. destruct (adaptive_state c !! k) as [e0|]; [|done].
    cbn. by apply tick_entry_settled. }
  destruct (existsb _ _) eqn:Hch.
  { apply changed_spec in Hch as (k & e & Hk & Ht).
    by rewrite (Hset k e Hk) in Ht. }
  apply (omap_tick_fixed warm_ttl) in Hset. rewrite Hset.
  by destruct (cooldown_tick warm_ttl now c).
Qed.

End ControllerExtras.

(** The theorem at work on an id marked at 0 and ticked at its HOT
    expiry. *)
Lemma X8_cooldown_tick_settles_witness :
  cooldown_tick 1500 (seconds 300)
    (cooldown_tick 1500 (seconds 300) (mark_hot 300 0 "c1" controller0).1)
  = cooldown_tick 1500 (seconds 300) (mark_hot 300 0 "c1" controller0).1.
Proof.
  apply (X8_cooldown_tick_settles 1500 (seconds 300)
           (mark_hot 300 0 "c1" controller0).1).
  lia.
Defined.

(** Without it the second tick goes on: WARM starts expired. *)
Example zero_warm_ttl_second_tick :
  get_state "c1" (cooldown_tick 0 (seconds 300) (mark_hot 300 0 "c1" controller0).1)
  = "warm"
  ∧ get_state "c1"
      (cooldown_tick 0 (seconds 300)
         (cooldown_tick 0 (seconds 300) (mark_hot 300 0 "c1" controller0).1))
    = "cold".
Proof. vm_compute. split; reflexivity. Qed.

(** ** The /tracing/config entity tag *)

Section ConfigExtras.

Variables (warm_rate cold_rate : Q).

Implicit Types (c : Controller) (l : list ascii).

Lemma list_ascii_of_string_app (s1 s2 : string) :
  list_ascii_of_string (s1 +:+ s2)
  = list_ascii_of_string s1 ++ list_ascii_of_string s2.
Proof.
  induction s1 as [|a s1 IH]; [done|].
  change (String a s1 +:+ s2) with (String a (s1 +:+ s2)).
  cbn [list_ascii_of_string app]. by rewrite IH.
Qed.

Lemma lstrip_free ch l : Forall (λ d, d ≠ ch) l → lstrip ch l = l.
Proof.
  destruct 1 as [|d l Hd _]; [done|].
  cbn [lstrip]. by rewrite bool_decide_eq_false_2.
Qed.

Lemma lstrip_free_snoc ch l :
  Forall (λ d, d ≠ ch) l →
  lstrip ch (l ++ [ch]) = match l with [] => [] | _ => l ++ [ch] end.
Proof.
  destruct 1 as [|d l Hd _]; cbn [lstrip app].
  - by rewrite bool_decide_eq_true_2.
  - by rewrite bool_decide_eq_false_2.
Qed.

(** Stripping the quotes off a quoted string gives the string back,
    when it holds no quote itself. *)
Lemma strip_quoted (s : string) :
  Forall (λ d, d ≠ dquote) (list_ascii_of_string s) →
  strip dquote (quoted s) = s ∧ strip dquote s = s.
Proof.
  intros Hfree.
  assert (Hrev : Forall (λ d, d ≠ dquote) (rev (list_ascii_of_string s))).
  { rewrite Forall_forall in Hfree |- *. intros d Hd. apply Hfree.
    apply list_elem_of_In. apply list_elem_of_In in Hd. by apply in_rev. }
  split; unfold strip, quoted.
  - cbn [list_ascii_of_string]. rewrite list_ascii_of_string_app.
    cbn [list_ascii_of_string lstrip]. rewrite bool_decide_eq_true_2 by done.
    rewrite lstrip_free_snoc by done.
    destruct (list_ascii_of_string s) as [|d l] eqn:Hs.
    + cbn. by rewrite <- (string_of_list_ascii_of_string s), Hs.
    + rewrite rev_app_distr. change (rev [dquote]) with [dquote].
      cbn [app lstrip].
      rewrite bool_decide_eq_true_2 by done.
      rewrite lstrip_free by done. rewrite rev_involutive, <- Hs.
      apply string_of_list_ascii_of_string.
  - rewrite (lstrip_free _ _ Hfree), (lstrip_free _ _ Hrev), rev_involutive.
    apply string_of_list_ascii_of_string.
Qed.

Lemma pretty_N_char_free (x : N) : pretty_N_char x ≠ dquote.
Proof. unfold pretty_N_char. by repeat case_match. Qed.

Lemma pretty_N_go_free (x : N) (s : string) :
  Forall (λ d, d ≠ dquote) (list_ascii_of_string s) →
  Forall (λ d, d ≠ dquote) (list_ascii_of_string (pretty_N_go x s)).
Proof.
  revert s. induction (N.lt_wf_0 x) as [x _ IH]. intros s Hs.
  destruct (decide (x = 0)%N) as [->|Hx]; [by rewrite pretty_N_go_0|].
  rewrite pretty_N_go_step by lia. apply IH.
  - apply N.div_lt; lia.
  - cbn [list_ascii_of_string]. constructor; [apply pretty_N_char_free | done].
Qed.

(** [str(n)] of an integer holds no double quote. *)
Lemma pretty_Z_free (z : Z) :
  Forall (λ d, d ≠ dquote) (list_ascii_of_string (pretty z)).
Proof.
  assert (HN : ∀ n : N, Forall (λ d, d ≠ dquote) (list_ascii_of_string (pretty n))).
  { intros n. unfold pretty, pretty_N. destruct (decide (n = 0)%N).
    - by repeat constructor.
    - apply pretty_N_go_free. constructor. }
  destruct z as [|p|p]; unfold pretty, pretty_Z.
  - by repeat constructor.
  - apply HN.
  - rewrite list_ascii_of_string_app. apply Forall_app. split; [|apply HN].
    by repeat constructor.
Qed.

(** X9.  The entity tag round trip of /tracing/config.  A request that
    sends back, as [If-None-Match], the [ETag] header of an earlier
    response (or the bare ["etag"] of its body) is answered 304 without
    a body exactly when [_config_etag] has not moved since, and 200
    with a body otherwise; the first request, without the header, is
    answered 200. *)
Theorem X9_tracing_config_etag_round_trip now now' h c c' :
  let first := tracing_config warm_rate cold_rate now h c in
  let again := tracing_config warm_rate cold_rate now'
                 (Some (cr_etag_header first)) c' in
  cr_status again = (if decide (config_etag c' = config_etag c) then 304 else 200)
  ∧ (is_Some (cr_body again) ↔ config_etag c' ≠ config_etag c)
  ∧ (∀ body, cr_body first = Some body →
       cr_status (tracing_config warm_rate cold_rate now' (Some (cb_etag body)) c')
       = (if decide (config_etag c' = config_etag c) then 304 else 200))
  ∧ cr_status (tracing_config warm_rate cold_rate now None c) = 200.
Proof.
  intros first again.
  destruct (strip_quoted (pretty (config_etag c)) (pretty_Z_free _))
    as [Hquoted Hbare].
  assert (Hhdr : cr_etag_header first = quoted (pretty (config_etag c))).
  { unfold first, tracing_config. by destruct (match h with Some _ => _ | None => _ end). }
  assert (Hcmp : bool_decide (pretty (config_etag c) = pretty (config_etag c'))
                 = bool_decide (config_etag c' = config_etag c)).
  { apply bool_decide_ext. split; [intros H%(inj pretty); done | by intros ->]. }
  split; [|split; [|split]].
  - unfold again, tracing_config. rewrite Hhdr, Hquoted, Hcmp.
    destruct (decide (config_etag c' = config_etag c)) as [He|He].
    + by rewrite bool_decide_eq_true_2.
    + by rewrite bool_decide_eq_false_2.
  - unfold again, tracing_config. rewrite Hhdr, Hquoted, Hcmp.
    destruct (decide (config_etag c' = config_etag c)) as [He|He].
    + rewrite bool_decide_eq_true_2 by done. cbn. split; [by intros [? [=]]|done].
    + rewrite bool_decide_eq_false_2 by done. cbn. split; [done|eauto].
  - intros body Hbody.
    assert (Hb : cb_etag body = pretty (config_etag c)).
    { revert Hbody. unfold first, tracing_config.
      destruct (match h with Some _ => _ | None => _ end); cbn; [done|].
      by intros [= <-]. }
    unfold tracing_config. rewrite Hb, Hbare, Hcmp.
    destruct (decide (config_etag c' = config_etag c)) as [He|He].
    + by rewrite bool_decide_eq_true_2.
    + by rewrite bool_decide_eq_false_2.
  - done.
Qed.

(** X10.  The body of /tracing/config lists the HOT ids and no others,
    each at rate 1 with the whole seconds left until its expiry, never
    negative; [get_trace_rate] agrees: it is 1 for the ids listed, and
    the WARM or the COLD rate for all others. *)
Theorem X10_tracing_config_lists_hot now c :
  ∃ body,
    cr_body (tracing_config warm_rate cold_rate now None c) = Some body
    ∧ cb_default_rate body = cold_rate ∧ cb_warm_rate body = warm_rate
    ∧ ∀ cid,
        match cb_hot_correlations body !! cid with
        | Some info =>
            get_state cid c = "hot" ∧ hi_rate info = 1%Q ∧ 0 <= hi_ttl info
            ∧ get_trace_rate warm_rate cold_rate cid c = 1%Q
            ∧ ∃ e, adaptive_state c !! cid = Some e
                   ∧ (now <= expires_at e →
                      seconds (hi_ttl info) <= expires_at e - now
                      < seconds (hi_ttl info + 1))
                   ∧ (expires_at e <= now → hi_ttl info = 0)
        | None =>
            get_state cid c ≠ "hot"
            ∧ (get_trace_rate warm_rate cold_rate cid c = warm_rate
               ∨ get_trace_rate warm_rate cold_rate cid c = cold_rate)
        end.
Proof.
  eexists. split; [reflexivity|]. cbn [cb_default_rate cb_warm_rate cb_hot_correlations].
  split; [done|]. split; [done|]. intros cid.
  rewrite lookup_omap. unfold get_trace_rate, get_state.
  destruct (adaptive_state c !! cid) as [e|]; cbn; [|split; [done|by right]].
  destruct (bool_decide_reflect (state e = "hot")) as [Hh|Hh].
  2:{ split; [done|]. destruct (bool_decide (state e = "warm")); auto. }
  cbn [hi_rate hi_ttl]. unfold remaining_ttl.
  split; [done|]. split; [done|]. split; [lia|]. split; [done|].
  exists e. split; [done|]. unfold seconds. split.
  - intros Hle.
    pose proof (Z.quot_rem' (expires_at e - now) 1000) as Hqr.
    pose proof (Z.rem_bound_pos (expires_at e - now) 1000) as Hrem.
    pose proof (Z.quot_pos (expires_at e - now) 1000) as Hpos.
    lia.
  - intros Hle.
    assert (Z.quot (expires_at e - now) 1000 <= 0); [|lia].
    apply Z.quot_le_upper_bound; lia.
Qed.

End ConfigExtras.

(** ** The broadcast tables beyond the claims *)

Section BroadcastExtras.

Implicit Types (b : Broadcast) (l bucket dead : list nat) (q : nat)
  (qs : gmap nat (list TraceEntry)) (trace : TraceEntry).

Lemma fan_out_bounded trace bucket qs dead :
  (∀ q items, qs !! q = Some items → (length items ≤ maxsize)%nat) →
  ∀ q items, (fan_out trace bucket qs dead).1 !! q = Some items →
             (length items ≤ maxsize)%nat.
Proof.
  revert qs dead. induction bucket as [|q0 bucket IH]; intros qs dead Hb; [done|].
  cbn [fan_out]. unfold put_nowait.
  destruct (qs !! q0) as [items0|] eqn:Hq0; [|by apply IH].
  destruct (maxsize <=? length items0)%nat eqn:Hfull; [by apply IH|].
  apply Nat.leb_gt in Hfull. apply IH. intros q items.
  destruct (decide (q0 = q)) as [<-|Hne].
  - rewrite lookup_insert_eq. intros [= <-]. rewrite length_app. cbn. lia.
  - rewrite lookup_insert_ne by done. apply Hb.
Qed.

Lemma notify_bounded trace b : bounded b → bounded (notify_subscribers trace b).
Proof.
  intros Hb. unfold notify_subscribers.
  destruct (subscribers b !! correlation_id trace) as [bucket|]; [|done].
  pose proof (fan_out_bounded trace bucket (queues b) [] Hb) as Hfan.
  destruct (fan_out trace bucket (queues b) []) as [qs dead].
  by destruct (prune dead bucket).
Qed.

Lemma subscribe_bounded now cid b : bounded b → bounded (subscribe now cid b).1.
Proof.
  intros Hb q items. cbn.
  destruct (decide (next_queue b = q)) as [<-|Hne].
  - rewrite lookup_insert_eq. intros [= <-]. cbn. lia.
  - rewrite lookup_insert_ne by done. apply Hb.
Qed.

Lemma unsubscribe_queues cid q b : queues (unsubscribe cid q b) = queues b.
Proof.
  unfold unsubscribe. destruct (subscribers b !! cid) as [bucket|]; [|done].
  by destruct (list_remove q bucket) as [[|? ?]|].
Qed.

Lemma run_other_bounded o b : bounded b → bounded (run_other o b).
Proof.
  intros Hb. destruct o as [trace|now cid|cid q|now]; cbn [run_other].
  - by apply notify_bounded.
  - by apply subscribe_bounded.
  - unfold bounded. by rewrite unsubscribe_queues.
  - exact Hb.
Qed.

(** X11.  No queue ever holds more than [maxsize] = 100 traces:
    whatever [subscribe], [unsubscribe], [notify_subscribers] and
    [cleanup_stale_subscribers] calls are made, in any order, and
    whatever is taken out with [queue.get()], the bound stays. *)
Theorem X11_queues_stay_bounded os b :
  bounded b →
  bounded (run_others os b)
  ∧ ∀ q item b', queue_get q (run_others os b) = Some (item, b') → bounded b'.
Proof.
  intros Hb.
  assert (Hrun : bounded (run_others os b)).
  { revert b Hb. induction os as [|o os IH]; intros b Hb; [done|].
    cbn [run_others foldl]. apply IH. by apply run_other_bounded. }
  split; [done|]. intros q item b'. unfold queue_get.
  destruct (queues (run_others os b) !! q) as [[|i items]|] eqn:Hq; try done.
  intros [= <- <-] q' items'. cbn.
  destruct (decide (q = q')) as [<-|Hne].
  - rewrite lookup_insert_eq. intros [= <-].
    specialize (Hrun q _ Hq). cbn in Hrun. lia.
  - rewrite lookup_insert_ne by done. apply Hrun.
Qed.

Lemma bounded_broadcast0 : bounded broadcast0.
Proof. intros q items. cbn. by rewrite lookup_empty. Qed.

(** The bound at work: a listener that is sent 150 traces holds 100. *)
Lemma X11_queues_stay_bounded_witness :
  bounded (run_others (OtherSubscribe 0 "c1"
                         :: replicate 150 (OtherNotify Samples.e0)) broadcast0)
  ∧ length (waiting 0 (run_others (OtherSubscribe 0 "c1"
                         :: replicate 150 (OtherNotify Samples.e0)) broadcast0))
    = 100%nat.
Proof.
  split; [|vm_compute; reflexivity].
  apply (X11_queues_stay_bounded
           (OtherSubscribe 0 "c1" :: replicate 150 (OtherNotify Samples.e0))
           broadcast0).
  apply bounded_broadcast0.
Defined.

Lemma list_remove_snoc x l : x ∉ l → list_remove x (l ++ [x]) = Some l.
Proof.
  induction l as [|y l IH]; intros Hx; cbn [app list_remove].
  - by rewrite bool_decide_eq_true_2.
  - apply not_elem_of_cons in Hx as [Hne Hx].
    rewrite bool_decide_eq_false_2 by done. by rewrite IH.
Qed.

(** X12.  [subscribe] followed by [unsubscribe] of the queue it
    returned leaves every bucket as it was before; what stays behind
    is the activity timestamp of the id, set by the [subscribe], and
    the handle, which is not handed out again. *)
Theorem X12_subscribe_unsubscribe_round_trip now cid b :
  well_formed b →
  let b' := unsubscribe cid (subscribe now cid b).2 (subscribe now cid b).1 in
  (∀ cid', bucket_of cid' b' = bucket_of cid' b)
  ∧ subscriber_timestamps b' = <[cid := now]> (subscriber_timestamps b)
  ∧ next_queue b' = S (next_queue b)
  ∧ (subscribe now cid b).2 = next_queue b.
Proof.
  intros Hwf b'.
  assert (Hfresh : next_queue b ∉ default [] (subscribers b !! cid)).
  { destruct (subscribers b !! cid) as [bk|] eqn:Hbk; cbn; [|apply not_elem_of_nil].
    intros Hq. by eapply registered_below. }
  assert (Hts : subscriber_timestamps b' = <[cid := now]> (subscriber_timestamps b))
    by (unfold b'; by rewrite unsubscribe_keeps_timestamps).
  split; [|split; [done|split; [|done]]].
  - intros cid'. unfold b', unsubscribe, subscribe, bucket_of.
    cbn [fst snd subscribers]. rewrite lookup_insert_eq.
    rewrite list_remove_snoc by done.
    destruct (subscribers b !! cid) as [bk|] eqn:Hbk; cbn [default from_option id].
    + destruct bk as [|q0 bk]; cbn [subscribers].
      * destruct (decide (cid = cid')) as [<-|Hne].
        -- by rewrite lookup_delete_eq, Hbk.
        -- by rewrite lookup_delete_ne, lookup_insert_ne.
      * destruct (decide (cid = cid')) as [<-|Hne].
        -- by rewrite lookup_insert_eq, Hbk.
        -- by rewrite !lookup_insert_ne.
    + cbn [subscribers]. destruct (decide (cid = cid')) as [<-|Hne].
      * by rewrite lookup_delete_eq, Hbk.
      * by rewrite lookup_delete_ne, lookup_insert_ne.
  - unfold b', unsubscribe, subscribe. cbn [fst snd subscribers].
    rewrite lookup_insert_eq, list_remove_snoc by done.
    by destruct (default [] (subscribers b !! cid)).
Qed.

Lemma X12_subscribe_unsubscribe_round_trip_witness :
  (∀ cid', bucket_of cid'
             (unsubscribe "c2" (subscribe 7 "c2" Samples.three_listeners).2
                          (subscribe 7 "c2" Samples.three_listeners).1)
           = bucket_of cid' Samples.three_listeners)
  ∧ subscriber_timestamps
      (unsubscribe "c2" (subscribe 7 "c2" Samples.three_listeners).2
                   (subscribe 7 "c2" Samples.three_listeners).1)
    = <["c2" := 7]> (subscriber_timestamps Samples.three_listeners)
  ∧ next_queue
      (unsubscribe "c2" (subscribe 7 "c2" Samples.three_listeners).2
                   (subscribe 7 "c2" Samples.three_listeners).1)
    = S (next_queue Samples.three_listeners)
  ∧ (subscribe 7 "c2" Samples.three_listeners).2
    = next_queue Samples.three_listeners.
Proof.
  apply (X12_subscribe_unsubscribe_round_trip 7 "c2" Samples.three_listeners).
  apply well_formed_three_listeners.
Defined.

End BroadcastExtras.

Section DeliveryExtras.

Implicit Types (b : Broadcast) (q : nat) (trace : TraceEntry)
  (traces : list TraceEntry).

(** One [notify_subscribers] seen from a listener with room. *)
Lemma notify_listener trace b cid q :
  well_formed b → q ∈ bucket_of cid b →
  (length (waiting q b)
   + (if decide (correlation_id trace = cid) then 1 else 0) ≤ maxsize)%nat →
  waiting q (notify_subscribers trace b)
  = waiting q b ++ (if decide (correlation_id trace = cid) then [trace] else [])
  ∧ q ∈ bucket_of cid (notify_subscribers trace b).
Proof.
  intros Hwf Hq Hroom.
  destruct (notify_subscribers_spec trace b Hwf) as (Hbk & Hin & Hout & Hframe).
  destruct (decide (correlation_id trace = cid)) as [<-|Hne].
  - assert (Hfull : is_full (queues b) q = false).
    { rewrite is_full_waiting. apply Nat.leb_gt. lia. }
    split.
    + unfold waiting at 1. rewrite (Hin q Hq), Hfull. done.
    + rewrite Hbk. apply list_elem_of_filter. by split.
  - assert (Hnot : q ∉ bucket_of (correlation_id trace) b).
    { intros Hq'. apply Hne.
      apply elem_of_bucket_of in Hq as (bk & Hbk1 & Hq1).
      apply elem_of_bucket_of in Hq' as (bk' & Hbk2 & Hq2).
      by apply (wf_disjoint b Hwf _ _ _ _ q Hbk2 Hbk1). }
    split.
    + unfold waiting. by rewrite (Hout q Hnot), app_nil_r.
    + unfold bucket_of. rewrite Hframe by done. exact Hq.
Qed.

Lemma notify_all_wf traces b : well_formed b → well_formed (notify_all traces b).
Proof.
  revert b. induction traces as [|trace traces IH]; intros b Hwf; [done|].
  cbn [notify_all foldl]. apply IH.
  eapply shrinks_wf; [apply notify_shrinks | done].
Qed.

(** [drain] takes the oldest items of the queue, in order. *)
Lemma drain_take n q b : (drain n q b).1 = take n (waiting q b).
Proof.
  revert b. induction n as [|n IH]; intros b; [done|].
  cbn [drain]. unfold queue_get, waiting at 1.
  destruct (queues b !! q) as [[|item items]|] eqn:Hq; cbn; try done.
  specialize (IH (mkBroadcast (subscribers b) (subscriber_timestamps b)
                              (<[q := items]> (queues b)) (next_queue b))).
  destruct (drain n q _) as [got b''] eqn:Hd. cbn in *. rewrite IH.
  unfold waiting. cbn. by rewrite lookup_insert_eq.
Qed.

(** X13.  Delivery is first in, first out, without loss or
    duplication, while the listener has room: after a run of
    [notify_subscribers] calls the queue of a listener of [cid] holds
    what it held, followed by the traces of [cid] among those notified,
    in the order of the calls; the listener is still registered, and
    that many [queue.get()] calls return them in that order. *)
Theorem X13_delivery_is_fifo traces b cid q :
  well_formed b → q ∈ bucket_of cid b →
  (length (waiting q b)
   + length (filter (λ tr, correlation_id tr = cid) traces) ≤ maxsize)%nat →
  let sent := filter (λ tr, correlation_id tr = cid) traces in
  waiting q (notify_all traces b) = waiting q b ++ sent
  ∧ q ∈ bucket_of cid (notify_all traces b)
  ∧ (drain (length (waiting q b ++ sent)) q (notify_all traces b)).1
    = waiting q b ++ sent.
Proof.
  intros Hwf Hq Hroom sent.
  assert (Hmain : waiting q (notify_all traces b) = waiting q b ++ sent
                  ∧ q ∈ bucket_of cid (notify_all traces b)).
  { subst sent. revert b Hwf Hq Hroom.
    induction traces as [|trace traces IH]; intros b Hwf Hq Hroom.
    { cbn. by rewrite app_nil_r. }
    cbn [notify_all foldl]. rewrite filter_cons in Hroom |- *.
    destruct (notify_listener trace b cid q Hwf Hq) as [Hwait Hin].
    { destruct (decide (correlation_id trace = cid)); cbn in Hroom |- *; lia. }
    assert (Hwf' : well_formed (notify_subscribers trace b))
      by (eapply shrinks_wf; [apply notify_shrinks | done]).
    destruct (IH (notify_subscribers trace b) Hwf' Hin) as [Hw' Hin'].
    { rewrite Hwait, length_app.
      destruct (decide (correlation_id trace = cid)); cbn in Hroom |- *; lia. }
    split; [|exact Hin'].
    unfold notify_all in Hw'. rewrite Hw', Hwait, <- app_assoc.
    by destruct (decide (correlation_id trace = cid)). }
  destruct Hmain as [Hw Hin]. split; [done|]. split; [done|].
  by rewrite drain_take, Hw, firstn_all.
Qed.

(** Three traces of the id to a fresh listener. *)
Lemma X13_delivery_is_fifo_witness :
  waiting 0 (notify_all [Samples.e0; Samples.e1; Samples.e0]
                        (subscribe 0 "c1" broadcast0).1)
  = waiting 0 (subscribe 0 "c1" broadcast0).1
    ++ filter (λ tr, correlation_id tr = "c1") [Samples.e0; Samples.e1; Samples.e0]
  ∧ 0%nat ∈ bucket_of "c1" (notify_all [Samples.e0; Samples.e1; Samples.e0]
                                       (subscribe 0 "c1" broadcast0).1)
  ∧ (drain (length (waiting 0 (subscribe 0 "c1" broadcast0).1
                    ++ filter (λ tr, correlation_id tr = "c1")
                         [Samples.e0; Samples.e1; Samples.e0]))
           0 (notify_all [Samples.e0; Samples.e1; Samples.e0]
                         (subscribe 0 "c1" broadcast0).1)).1
    = waiting 0 (subscribe 0 "c1" broadcast0).1
      ++ filter (λ tr, correlation_id tr = "c1") [Samples.e0; Samples.e1; Samples.e0].
Proof.
  apply (X13_delivery_is_fifo [Samples.e0; Samples.e1; Samples.e0]
           (subscribe 0 "c1" broadcast0).1 "c1" 0%nat).
  - apply subscribe_wf, well_formed_broadcast0.
  - vm_compute. by left.
  - vm_compute. lia.
Defined.

Lemma lookup_filter_key {A} (f : string → bool) (m : gmap string A) k :
  filter (λ kv, f kv.1 = false) m !! k = if f k then None else m !! k.
Proof.
  rewrite map_lookup_filter. destruct (m !! k) as [x|]; cbn.
  - destruct (f k) eqn:Hf.
    + by rewrite option_guard_False by (cbn; congruence).
    + by rewrite option_guard_True by done.
  - by destruct (f k).
Qed.

(** X14.  [cleanup_stale_subscribers] goes by the activity timestamp
    alone.  An id whose last [subscribe] is more than 300 s old loses
    its bucket and its timestamp, whether or not queues are still
    registered in the bucket, and a later [notify_subscribers] for the
    id reaches no queue; an id without a timestamp, or with one not
    older than that, keeps both. *)
Theorem X14_sweep_goes_by_timestamp now b cid ts :
  subscriber_timestamps b !! cid = Some ts →
  ts < now - seconds 300 →
  let b' := cleanup_stale_subscribers now b in
  subscribers b' !! cid = None
  ∧ subscriber_timestamps b' !! cid = None
  ∧ (∀ trace, correlation_id trace = cid → notify_subscribers trace b' = b')
  ∧ queues b' = queues b
  ∧ (∀ cid', is_stale (now - seconds 300) b cid' = false →
       subscribers b' !! cid' = subscribers b !! cid'
       ∧ subscriber_timestamps b' !! cid' = subscriber_timestamps b !! cid').
Proof.
  intros Hts Hold b'.
  assert (Hstale : is_stale (now - seconds 300) b cid = true).
  { unfold is_stale. rewrite Hts. by apply bool_decide_eq_true_2. }
  assert (Hsub : subscribers b' !! cid = None).
  { unfold b', cleanup_stale_subscribers. cbn [subscribers].
    by rewrite lookup_filter_key, Hstale. }
  split; [done|]. split; [|split; [|split; [done|]]].
  - unfold b', cleanup_stale_subscribers. cbn [subscriber_timestamps].
    by rewrite lookup_filter_key, Hstale.
  - intros trace <-. unfold notify_subscribers. by rewrite Hsub.
  - intros cid' Hfresh. unfold b', cleanup_stale_subscribers.
    cbn [subscribers subscriber_timestamps].
    by rewrite !lookup_filter_key, Hfresh.
Qed.

(** Listeners registered in the first second and still connected are
    swept at 301 s, and miss what is notified after. *)
Lemma X14_sweep_goes_by_timestamp_witness :
  subscribers (cleanup_stale_subscribers (seconds 301)
                 Samples.three_listeners) !! "c1" = None
  ∧ subscriber_timestamps (cleanup_stale_subscribers (seconds 301)
                             Samples.three_listeners) !! "c1" = None
  ∧ (∀ trace, correlation_id trace = "c1" →
       notify_subscribers trace
         (cleanup_stale_subscribers (seconds 301) Samples.three_listeners)
       = cleanup_stale_subscribers (seconds 301) Samples.three_listeners)
  ∧ queues (cleanup_stale_subscribers (seconds 301) Samples.three_listeners)
    = queues Samples.three_listeners
  ∧ (∀ cid', is_stale (seconds 301 - seconds 300) Samples.three_listeners cid'
             = false →
       subscribers (cleanup_stale_subscribers (seconds 301)
                      Samples.three_listeners) !! cid'
       = subscribers Samples.three_listeners !! cid'
       ∧ subscriber_timestamps (cleanup_stale_subscribers (seconds 301)
                                  Samples.three_listeners) !! cid'
         = subscriber_timestamps Samples.three_listeners !! cid').
Proof.
  apply (X14_sweep_goes_by_timestamp (seconds 301) Samples.three_listeners "c1"
           (default 0 (subscriber_timestamps Samples.three_listeners !! "c1"))).
  - vm_compute. reflexivity.
  - vm_compute. reflexivity.
Defined.

End DeliveryExtras.

(** ** The handlers beyond the claims *)

Section ReadExtras.

Variables (hot_ttl warm_ttl : Z).

Implicit Types (c : Controller) (e : entry) (t : Table).

(** An id marked at [now] is still tracked after any ticks that come
    before [now + hot_ttl + warm_ttl]. *)
Lemma entry_after_tracked now ticks e :
  Forall (λ tk, tk < now + seconds hot_ttl + seconds warm_ttl) ticks →
  (state e = "hot" ∧ expires_at e = now + seconds hot_ttl)
  ∨ (state e = "warm" ∧ now + seconds hot_ttl + seconds warm_ttl <= expires_at e) →
  ∃ e', entry_after warm_ttl ticks (Some e) = Some e'
        ∧ (state e' = "hot" ∨ state e' = "warm").
Proof.
  intros Hticks. revert e.
  induction Hticks as [|tk ticks Htk _ IH]; intros e Hinv.
  { exists e. split; [done|]. destruct Hinv as [[? _]|[? _]]; auto. }
  cbn [entry_after foldl]. cbn [mbind option_bind]. unfold tick_entry.
  destruct (tk <? expires_at e) eqn:Hexp; [by apply IH|].
  apply Z.ltb_ge in Hexp.
  destruct Hinv as [[Hs He]|[Hs He]]; [|lia].
  rewrite Hs. cbn. apply IH. right. cbn. split; [done|]. lia.
Qed.

(** X15.  The [adaptive_hint] of GET /traces/{id}.  A response carries
    it exactly when the id was COLD before the call; the call leaves
    the id HOT; and a second read of the id never carries it, whatever
    cooldown ticks came in between, as long as these came before
    [ADAPTIVE_HOT_TTL + ADAPTIVE_WARM_TTL] had passed since the first
    read. *)
Theorem X15_get_traces_hint_once now now' cid source source' c t t' ticks :
  Forall (λ tk, tk < now + seconds hot_ttl + seconds warm_ttl) ticks →
  let first := get_traces hot_ttl now cid source c t in
  let second := get_traces hot_ttl now' cid source'
                  (run_ticks warm_ttl ticks first.1) t' in
  (is_Some (tr_adaptive_hint first.2) ↔ get_state cid c = "cold")
  ∧ get_state cid first.1 = "hot"
  ∧ tr_adaptive_hint second.2 = None
  ∧ get_state cid second.1 = "hot".
Proof.
  intros Hticks first second. split; [|split; [|split]].
  - unfold first, get_traces. cbn [snd tr_adaptive_hint].
    destruct (bool_decide_reflect (get_state cid c = "cold")) as [Hc|Hc].
    + split; [done|eauto].
    + split; [by intros [? [=]]|done].
  - unfold first, get_traces. cbn [fst].
    by rewrite (get_state_lookup _ _ _ (mark_hot_lookup hot_ttl now cid c)).
  - unfold second, get_traces. cbn [snd tr_adaptive_hint].
    destruct (entry_after_tracked now ticks
                (mkEntry "hot" (now + seconds hot_ttl) now) Hticks)
      as (e' & He' & Hstate); [left; by split|].
    assert (Hlook : adaptive_state (run_ticks warm_ttl ticks first.1) !! cid
                    = Some e').
    { rewrite run_ticks_lookup. unfold first, get_traces. cbn [fst].
      by rewrite mark_hot_lookup. }
    rewrite (get_state_lookup _ _ _ Hlook).
    rewrite bool_decide_eq_false_2; [done|].
    destruct Hstate as [-> | ->]; discriminate.
  - unfold second, get_traces. cbn [fst].
    by rewrite (get_state_lookup _ _ _ (mark_hot_lookup hot_ttl now' cid _)).
Qed.

End ReadExtras.

(** A first read at 0, ticks every 10 s for ten minutes, a second read
    at 10 minutes: the hint comes once. *)
Lemma X15_get_traces_hint_once_witness :
  (is_Some (tr_adaptive_hint
              (get_traces 300 0 "c1" None controller0 Samples.stored_e0).2)
   ↔ get_state "c1" controller0 = "cold")
  ∧ get_state "c1" (get_traces 300 0 "c1" None controller0 Samples.stored_e0).1
    = "hot"
  ∧ tr_adaptive_hint
      (get_traces 300 (seconds 600) "c1" None
         (run_ticks 1500 (every (seconds 10) 0 60)
            (get_traces 300 0 "c1" None controller0 Samples.stored_e0).1)
         Samples.stored_e0).2
    = None
  ∧ get_state "c1"
      (get_traces 300 (seconds 600) "c1" None
         (run_ticks 1500 (every (seconds 10) 0 60)
            (get_traces 300 0 "c1" None controller0 Samples.stored_e0).1)
         Samples.stored_e0).1
    = "hot".
Proof.
  apply (X15_get_traces_hint_once 300 1500 0 (seconds 600) "c1" None None
           controller0 Samples.stored_e0 Samples.stored_e0
           (every (seconds 10) 0 60)).
  apply Forall_forall. intros tk Htk. unfold every in Htk.
  apply list_elem_of_fmap in Htk as (k & -> & Hk).
  apply list_elem_of_In, in_seq in Hk. unfold seconds. lia.
Defined.

Section IngestExtras.

Implicit Types (st : State) (trace : TraceEntry).

(** The store and the registrations through the loop of
    [ingest_traces]; [new_ids] are the ids of the rows inserted. *)
Lemma ingest_loop_store now traces st acc :
  ∃ new_ids : list Z,
    (ingest_loop now traces st acc).2 = acc + Z.of_nat (length new_ids)
    ∧ (length new_ids ≤ length traces)%nat
    ∧ r_id <$> rows (table (ingest_loop now traces st acc).1)
      = (r_id <$> rows (table st)) ++ new_ids
    ∧ StronglySorted Z.lt new_ids
    ∧ Forall (λ i, last_id (table st) < i
                   <= last_id (table (ingest_loop now traces st acc).1))
             new_ids
    ∧ last_id (table st) + Z.of_nat (length new_ids)
      <= last_id (table (ingest_loop now traces st acc).1)
      <= last_id (table st) + Z.of_nat (length traces)
    ∧ (table_ok (table st) → table_ok (table (ingest_loop now traces st acc).1))
    ∧ (new_ids = [] → broadcast (ingest_loop now traces st acc).1 = broadcast st).
Proof.
  revert st acc. induction traces as [|[at_insert trace] traces IH]; intros st acc.
  { exists []. cbn. rewrite app_nil_r.
    split; [lia|]. split; [lia|]. split; [done|]. split; [constructor|].
    split; [constructor|]. split; [lia|]. done. }
  cbn [ingest_loop].
  destruct (insert_trace_ids at_insert trace (table st) (stats st))
    as (Hids & Hlast & Hnew).
  pose proof (insert_trace_table_ok at_insert trace (table st) (stats st)) as Hok.
  destruct (insert_trace at_insert trace (table st) (stats st))
    as [[t' s'] ok] eqn:Hins.
  cbn [fst snd] in Hids, Hlast, Hnew, Hok.
  match goal with
  | |- context [ingest_loop now traces ?st1 ?acc1] =>
      destruct (IH st1 acc1)
        as (ids' & Hacc & Hk & Hids' & Hsorted' & Hin' & Hlast' & Hok' & Hb')
  end.
  cbn [table broadcast] in Hids', Hin', Hlast', Hok', Hb'.
  cbn [length]. rewrite Hacc, Hids', Hids.
  destruct ok.
  - specialize (Hnew eq_refl). exists ((last_id (table st) + 1) :: ids').
    rewrite <- app_assoc. cbn [length app].
    split; [lia|]. split; [lia|]. split; [done|]. split.
    { apply StronglySorted_cons. split; [|done].
      eapply Forall_impl; [exact Hin'|]. intros i Hi. cbn in Hi. lia. }
    split.
    { constructor; [lia|].
      eapply Forall_impl; [exact Hin'|]. intros i Hi. cbn in Hi |- *. lia. }
    split; [lia|]. split; [|done]. intros Ht. apply Hok'. by apply Hok.
  - exists ids'. rewrite app_nil_r.
    split; [lia|]. split; [lia|]. split; [done|]. split; [done|]. split.
    { eapply Forall_impl; [exact Hin'|]. intros i Hi. cbn in Hi |- *. lia. }
    split; [lia|]. split; [intros Ht; apply Hok'; by apply Hok|done].
Qed.

(** X16.  POST /ingest only appends to the store.  The rows that were
    there keep their ids and their order; exactly [inserted] rows are
    added behind them, with ids that ascend and lie above the sequence
    as it was; the sequence moves by at least [inserted] and at most
    [accepted], the length of the batch, since an ignored hard
    duplicate uses up an id; [inserted] lies between 0 and [accepted];
    and a table that satisfied the schema still does. *)
Theorem X16_ingest_traces_appends now traces st :
  let st' := (ingest_traces now traces st).1 in
  let resp := (ingest_traces now traces st).2 in
  (∃ new_ids,
      r_id <$> rows (table st') = (r_id <$> rows (table st)) ++ new_ids
      ∧ Z.of_nat (length new_ids) = inserted resp
      ∧ StronglySorted Z.lt new_ids
      ∧ Forall (λ i, last_id (table st) < i <= last_id (table st')) new_ids)
  ∧ last_id (table st) + inserted resp <= last_id (table st')
    <= last_id (table st) + accepted resp
  ∧ 0 <= inserted resp <= accepted resp
  ∧ accepted resp = Z.of_nat (length traces)
  ∧ (table_ok (table st) → table_ok (table st')).
Proof.
  intros st' resp. unfold st', resp, ingest_traces.
  destruct (ingest_loop_store now traces st 0)
    as (ids & Hacc & Hk & Hids & Hsorted & Hin & Hlast & Hok & _).
  destruct (ingest_loop now traces st 0) as [st1 n].
  cbn [fst snd] in *. cbn [table inserted accepted]. subst n.
  rewrite Z.add_0_l.
  split; [by exists ids|]. split; [done|]. split; [lia|]. split; done.
Qed.

(** A batch of three, the second a hard duplicate of the first sent
    400 s later: two rows, ids 1 and 3. *)
Example batch_with_hard_duplicate :
  let st := (ingest_traces 0
               [(0, Samples.e0); (seconds 400, Samples.e0);
                (seconds 800, Samples.e1)] (state0 0)) in
  r_id <$> rows (table st.1) = [1; 3] ∧ last_id (table st.1) = 3
  ∧ inserted st.2 = 2 ∧ accepted st.2 = 3.
Proof. vm_compute. repeat split. Qed.

(** X17.  Traces that were not inserted are not broadcast: a batch
    whose response says [inserted = 0], and a single trace whose
    response says [inserted = false], leave the registrations and
    every queue as they were. *)
Theorem X17_duplicates_are_not_broadcast now traces trace st :
  (inserted (ingest_traces now traces st).2 = 0 →
   broadcast (ingest_traces now traces st).1 = broadcast st)
  ∧ ((ingest_single_trace now trace st).2 = false →
     broadcast (ingest_single_trace now trace st).1 = broadcast st).
Proof.
  split.
  - unfold ingest_traces.
    destruct (ingest_loop_store now traces st 0)
      as (ids & Hacc & _ & _ & _ & _ & _ & _ & Hb).
    destruct (ingest_loop now traces st 0) as [st1 n].
    cbn [fst snd] in *. cbn [table inserted broadcast]. intros ->.
    apply Hb. destruct ids; [done|]. cbn [length] in Hacc. lia.
  - unfold ingest_single_trace.
    destruct (insert_trace now trace (table st) (stats st)) as [[t' s'] ok].
    cbn [fst snd broadcast]. by intros ->.
Qed.

(** A listener of "c1" gets [e0] when it is first ingested, and
    nothing when the same batch is sent again. *)
Example resent_batch_is_silent :
  let st0 := mkState empty_table (stats0 0) [] ∅ ∅
               (subscribe 0 "c1" broadcast0).1 in
  let st1 := (ingest_traces 5 [(5, Samples.e0)] st0).1 in
  let st2 := (ingest_traces 6 [(6, Samples.e0)] st1).1 in
  waiting 0 (broadcast st1) = [Samples.e0]
  ∧ inserted (ingest_traces 6 [(6, Samples.e0)] st1).2 = 0
  ∧ waiting 0 (broadcast st2) = [Samples.e0].
Proof. vm_compute. repeat split. Qed.

End IngestExtras.

Section StatsExtras.

Implicit Types (st : State).

Lemma insert_sorted_filter {A} (before : A → A → bool) (P : A → Prop)
    `{∀ x, Decision (P x)} a (l : list A) :
  (∀ x, P a → before a x = false → ¬ P x) →
  filter P (insert_sorted before a l) = filter P (a :: l).
Proof.
  intros Hskip. induction l as [|x l IH]; [done|].
  cbn [insert_sorted]. destruct (before a x) eqn:Hax; [done|].
  rewrite (filter_cons P x), IH, !(filter_cons P a), (filter_cons P x).
  destruct (decide (P a)) as [Ha|Ha]; [|done].
  destruct (decide (P x)) as [Hx|Hx]; [|done].
  by destruct (Hskip x Ha Hax).
Qed.

(** The sort by rpm keeps sources of equal rpm in the order they had. *)
Lemma sort_by_rpm_stable (v : Z) (l : list SourceStat) :
  filter (λ s, ss_rpm s = v) (stable_sort (λ a x, ss_rpm x <=? ss_rpm a) l)
  = filter (λ s, ss_rpm s = v) l.
Proof.
  induction l as [|a l IH]; [done|].
  cbn [stable_sort foldr]. rewrite insert_sorted_filter.
  - fold (stable_sort (λ a x, ss_rpm x <=? ss_rpm a) l).
    by rewrite !(filter_cons _ a), IH.
  - intros x Ha Hb Hx. apply Z.leb_gt in Hb. lia.
Qed.

#[local] Instance by_rpm_trans :
  Transitive (λ a b : SourceStat, ss_rpm b <= ss_rpm a).
Proof. intros a b c. lia. Qed.

Lemma count_within_bounds now horizon window :
  0 <= count_within now horizon window <= Z.of_nat (length window).
Proof.
  unfold count_within. split; [lia|].
  apply inj_le, length_filter.
Qed.

(** X18.  GET /stats/sources ranks the sources by their ingest rate
    over the last minute, highest first, sources of equal rate staying
    in the order of the sorted ids; it lists each source of the totals
    or of the window once; and each line gives the total of the source,
    and an rpm that is at least 0 and at most rp5m. *)
Theorem X18_stats_sources_ranking now st :
  StronglySorted (λ a b, ss_rpm b <= ss_rpm a) (stats_sources now st)
  ∧ NoDup (ss_source_id <$> stats_sources now st)
  ∧ (∀ sid, sid ∈ ss_source_id <$> stats_sources now st
            ↔ is_Some (source_ingest_totals st !! sid)
              ∨ is_Some (source_ingest_window st !! sid))
  ∧ Forall (λ s, s = source_stat now st (ss_source_id s)
                 ∧ ss_total s = default 0 (source_ingest_totals st !! ss_source_id s)
                 ∧ 0 <= ss_rpm s <= ss_rp5m s)
           (stats_sources now st)
  ∧ (∀ v, filter (λ s, ss_rpm s = v) (stats_sources now st)
          = filter (λ s, ss_rpm s = v) (source_stat now st <$> source_ids st)).
Proof.
  assert (Hperm : ss_source_id <$> stats_sources now st
                  ≡ₚ elements (dom (source_ingest_totals st)
                               ∪ dom (source_ingest_window st))).
  { unfold stats_sources. rewrite stable_sort_perm, <- list_fmap_compose.
    assert (Hid : ∀ l : list string,
               ss_source_id ∘ source_stat now st <$> l = l).
    { intros l. induction l as [|sid l IH]; [done|].
      cbn [fmap list_fmap]. f_equal. exact IH. }
    rewrite Hid. unfold source_ids. apply stable_sort_perm. }
  split; [|split; [|split; [|split]]].
  - unfold stats_sources. apply stable_sort_sorted; [apply _| |].
    + intros x y. by rewrite Z.leb_le.
    + intros x y. rewrite Z.leb_gt. lia.
  - rewrite Hperm. apply NoDup_elements.
  - intros sid. rewrite Hperm, elem_of_elements, elem_of_union, !elem_of_dom.
    done.
  - unfold stats_sources. rewrite stable_sort_perm. apply Forall_fmap.
    apply Forall_forall. intros sid _. cbn.
    split; [done|]. split; [done|]. apply count_within_bounds.
  - intros v. unfold stats_sources. apply sort_by_rpm_stable.
Qed.

(** Three sources, one of them known by its total only. *)
Example sources_ranked :
  let st := mkState empty_table (stats0 0) []
              (<["MA" := [seconds 100; seconds 290]]>
                 (<["WK" := [seconds 250; seconds 280; seconds 290]]> ∅))
              (<["MA" := 7]> (<["WK" := 3]> (<["ZZ" := 1]> ∅))) broadcast0 in
  stats_sources (seconds 300) st
  = [mkSourceStat "WK" 3 3 3; mkSourceStat "MA" 7 1 2; mkSourceStat "ZZ" 1 0 0].
Proof. vm_compute. reflexivity. Qed.

End StatsExtras.

(** ** The maintenance loop *)

Section MaintenanceExtras.

Variables (warm_ttl retention_hours : Z).

Implicit Types (sv : Server) (w : Wake) (wakes : list Wake).

(** Counting inside a horizon is not affected by an earlier trim to a
    horizon at least as long. *)
Lemma count_within_trimmed now trimmed_at short long (window : list Z) :
  trimmed_at <= now → short <= long →
  count_within now short (filter (λ t, trimmed_at - t < long) window)
  = count_within now short window.
Proof.
  intros Hclock Hlong. unfold count_within. do 2 f_equal.
  rewrite list_filter_filter. apply list_filter_iff. intros t. lia.
Qed.

Lemma trim_source_windows_lookup now (windows : gmap string (list Z)) sid :
  default [] (trim_source_windows now windows !! sid)
  = filter (λ t, now - t < seconds 300) (default [] (windows !! sid)).
Proof.
  unfold trim_source_windows. rewrite lookup_omap.
  destruct (windows !! sid) as [win|]; cbn; [|done].
  by destruct (filter _ win).
Qed.

(** X19.  Housekeeping does not change what the rate limit and the
    per-source rates say afterwards.  On a clock that does not go
    back, a /recent request is rejected after a wake-up of the
    maintenance loop exactly when it would have been without it, and
    every source has the same rpm and total. *)
Theorem X19_housekeeping_keeps_rates tick w sv now limit since_id source :
  wake_trim w <= now →
  let st := sv_state sv in
  let st' := sv_state (maintenance warm_ttl retention_hours tick w sv) in
  is_rate_limited (get_recent_traces now limit since_id source st').2
  = is_rate_limited (get_recent_traces now limit since_id source st).2
  ∧ ∀ sid, ss_rpm (source_stat now st' sid) = ss_rpm (source_stat now st sid)
           ∧ ss_total (source_stat now st' sid) = ss_total (source_stat now st sid).
Proof.
  intros Hclock st st'. unfold st', maintenance. fold st.
  rewrite !get_recent_traces_limited. unfold source_stat. cbn [ss_rpm ss_total].
  destruct (bool_decide (tick `mod` 6 = 0)), (bool_decide (tick `mod` 360 = 0));
    cbn [sv_state recent_rate_window source_ingest_window source_ingest_totals];
    try done.
  all: unfold trim_rate_window; rewrite count_within_trimmed by (done || lia).
  all: split; [done|]; intros sid; split; [|done].
  all: rewrite trim_source_windows_lookup.
  all: apply count_within_trimmed; [done | unfold seconds; lia].
Qed.





End MaintenanceExtras.

(** After a busy minute, a wake-up at 61 s, a request at 62 s. *)
Lemma X19_housekeeping_keeps_rates_witness :
  is_rate_limited
    (get_recent_traces (seconds 62) 200 None None
       (sv_state (maintenance 1500 24 6
                    (mkWake (seconds 61) (seconds 61) (seconds 61) (seconds 61))
                    (mkServer Samples.busy controller0)))).2
  = is_rate_limited
      (get_recent_traces (seconds 62) 200 None None
         (sv_state (mkServer Samples.busy controller0))).2
  ∧ ∀ sid,
      ss_rpm (source_stat (seconds 62)
                (sv_state (maintenance 1500 24 6
                    (mkWake (seconds 61) (seconds 61) (seconds 61) (seconds 61))
                    (mkServer Samples.busy controller0))) sid)
      = ss_rpm (source_stat (seconds 62)
                  (sv_state (mkServer Samples.busy controller0)) sid)
      ∧ ss_total (source_stat (seconds 62)
                    (sv_state (maintenance 1500 24 6
                        (mkWake (seconds 61) (seconds 61) (seconds 61) (seconds 61))
                        (mkServer Samples.busy controller0))) sid)
        = ss_total (source_stat (seconds 62)
                      (sv_state (mkServer Samples.busy controller0)) sid).
Proof.
  apply (X19_housekeeping_keeps_rates 1500 24 6
           (mkWake (seconds 61) (seconds 61) (seconds 61) (seconds 61))
           (mkServer Samples.busy controller0) (seconds 62) 200 None None).
  vm_compute. discriminate.
Defined.

(** ** The sender of the client *)

Section ClientExtras.

Implicit Types (reply : nat → Reply) (batch : list TraceEntry)
  (spins : list Spin).

Lemma posts_post (acts : list Act) : posts (Post :: acts) = S (posts acts).
Proof. unfold posts. by rewrite filter_cons, decide_True. Qed.

Lemma posts_other (a : Act) (acts : list Act) :
  a ≠ Post → posts (a :: acts) = posts acts.
Proof. intros Ha. unfold posts. by rewrite filter_cons, decide_False. Qed.

Lemma posts_nil : posts [] = 0%nat.
Proof. done. Qed.

Lemma attempts_posts rc reply remaining attempt :
  (posts (attempts rc reply remaining attempt) ≤ remaining)%nat.
Proof.
  revert attempt. induction remaining as [|k IH]; intros attempt; [done|].
  cbn [attempts]. rewrite posts_post. apply le_n_S.
  specialize (IH (S attempt)).
  destruct (reply attempt) as [code|].
  - destruct (bool_decide (code = 200)); [rewrite posts_nil; lia|].
    destruct (bool_decide (code = 401 ∨ code = 403)).
    + rewrite posts_other, posts_nil by done. lia.
    + by rewrite posts_other.
  - destruct (bool_decide (Z.of_nat attempt = rc)); by rewrite posts_other.
Qed.

Lemma attempts_stop rc reply remaining attempt j code :
  reply (attempt + j)%nat = Status code →
  code = 200 ∨ code = 401 ∨ code = 403 →
  (posts (attempts rc reply remaining attempt) ≤ S j)%nat.
Proof.
  intros Hreply Hfinal. revert attempt j Hreply.
  induction remaining as [|k IH]; intros attempt j Hreply;
    [cbn [attempts]; rewrite posts_nil; lia|].
  cbn [attempts]. rewrite posts_post. apply le_n_S.
  destruct j as [|j].
  - rewrite Nat.add_0_r in Hreply. rewrite Hreply.
    destruct (bool_decide_reflect (code = 200)); [done|].
    rewrite bool_decide_eq_true_2 by (destruct Hfinal as [?|?]; done).
    by rewrite posts_other.
  - rewrite Nat.add_succ_r in Hreply. specialize (IH (S attempt) j Hreply).
    destruct (reply attempt) as [code'|].
    + destruct (bool_decide (code' = 200)); [rewrite posts_nil; lia|].
      destruct (bool_decide (code' = 401 ∨ code' = 403)).
      * rewrite posts_other, posts_nil by done. lia.
      * by rewrite posts_other.
    + destruct (bool_decide (Z.of_nat attempt = rc)); by rewrite posts_other.
Qed.

Lemma attempts_sleeps rc reply remaining attempt :
  Z.of_nat attempt + Z.of_nat remaining = rc + 1 →
  Forall (λ a, ∀ ms, a = Sleep ms → 100 <= ms <= 100 * rc)
         (attempts rc reply remaining attempt).
Proof.
  revert attempt. induction remaining as [|k IH]; intros attempt Hrange;
    [constructor|].
  cbn [attempts]. constructor; [done|].
  specialize (IH (S attempt)).
  destruct (reply attempt) as [code|].
  - destruct (bool_decide (code = 200)); [constructor|].
    destruct (bool_decide (code = 401 ∨ code = 403)).
    + constructor; [done|constructor].
    + constructor; [done|]. apply IH. lia.
  - destruct (bool_decide_reflect (Z.of_nat attempt = rc)).
    + constructor; [done|]. apply IH. lia.
    + constructor; [|apply IH; lia]. intros ms [= <-]. lia.
Qed.

(** X21.  The retry discipline of [_send_batch].  A batch is posted at
    most [retry_count + 1] times; nothing is posted after an answer
    200, 401 or 403; an empty batch is not posted at all; and a pause
    after a failed attempt lasts between 100 ms and
    [100 * retry_count] ms. *)
Theorem X21_send_batch_retries rc reply batch :
  (posts (send_batch rc reply batch) ≤ Z.to_nat (rc + 1))%nat
  ∧ (∀ j code, reply j = Status code →
       code = 200 ∨ code = 401 ∨ code = 403 →
       (posts (send_batch rc reply batch) ≤ S j)%nat)
  ∧ send_batch rc reply [] = []
  ∧ Forall (λ a, ∀ ms, a = Sleep ms → 100 <= ms <= 100 * rc)
           (send_batch rc reply batch).
Proof.
  unfold send_batch. destruct batch as [|entry batch].
  { rewrite posts_nil. split; [lia|]. split; [intros; lia|].
    split; [done|constructor]. }
  split; [apply attempts_posts|]. split; [|split; [done|]].
  - intros j code Hreply Hfinal. by apply (attempts_stop _ _ _ 0%nat j code).
  - destruct (decide (0 <= rc + 1)) as [Hrc|Hrc].
    + apply attempts_sleeps. lia.
    + replace (Z.to_nat (rc + 1)) with 0%nat by lia. constructor.
Qed.

(** Two connection errors, then a 200: three posts, pauses of 100 ms
    and 200 ms. *)
Example send_batch_backs_off :
  send_batch 2 (λ k, if (k <? 2)%nat then Raises else Status 200) [Samples.e0]
  = [Post; Sleep 100; Post; Sleep 200; Post].
Proof. vm_compute. reflexivity. Qed.

(** A 500 on the last attempt ends the run without a word. *)
Example send_batch_gives_up_silently :
  send_batch 1 (λ _, Status 500) [Samples.e0]
  = [Post; PrintIngestFailed 500; Post; PrintIngestFailed 500].
Proof. vm_compute. reflexivity. Qed.

Lemma sender_loop_from_spec bs fi spins batch last_flush :
  concat (sender_loop_from bs fi spins batch last_flush)
  = batch ++ omap spin_item spins
  ∧ (Z.of_nat (length batch) < Z.max 1 bs →
     Forall (λ sent, sent ≠ [] ∧ Z.of_nat (length sent) <= Z.max 1 bs)
            (sender_loop_from bs fi spins batch last_flush)).
Proof.
  revert batch last_flush.
  induction spins as [|sp spins IH]; intros batch last_flush.
  { cbn [sender_loop_from omap list_omap]. rewrite app_nil_r.
    destruct batch as [|entry batch]; cbn [concat]; [done|].
    rewrite app_nil_r. split; [done|]. intros Hlen.
    constructor; [|constructor]. split; [done|lia]. }
  cbn [sender_loop_from omap list_omap].
  set (batch1 := match spin_item sp with
                 | Some entry => batch ++ [entry]
                 | None => batch
                 end).
  assert (Hconcat : batch1 ++ omap spin_item spins
                    = batch ++ match spin_item sp with
                               | Some entry => entry :: omap spin_item spins
                               | None => omap spin_item spins
                               end).
  { subst batch1. destruct (spin_item sp); [by rewrite <- app_assoc|done]. }
  assert (Hgrow : (length batch1 ≤ S (length batch))%nat).
  { subst batch1. destruct (spin_item sp); [rewrite length_app; cbn; lia|lia]. }
  rewrite <- Hconcat. clearbody batch1.
  destruct (_ && _) eqn:Hflush.
  - destruct (IH [] (spin_now sp)) as [Hc Hall].
    cbn [concat]. rewrite Hc. split; [done|]. intros Hlen.
    apply andb_true_iff in Hflush as [_ Hne].
    constructor; [|apply Hall; cbn; lia].
    split; [by destruct batch1|lia].
  - destruct (IH batch1 last_flush) as [Hc Hall]. split; [done|].
    intros Hlen. apply Hall.
    destruct batch1 as [|entry rest]; [cbn; lia|].
    rewrite andb_true_r in Hflush. apply orb_false_iff in Hflush as [Hfull _].
    apply Z.leb_gt in Hfull. lia.
Qed.

(** X22.  The batches of [_sender_loop].  What is handed to
    [_send_batch], batch after batch, is what was taken from the
    queue, each entry once and in the order it was taken; no batch is
    empty, and none is longer than [batch_size] (than one entry, when
    [batch_size] is below 1). *)
Theorem X22_sender_loop_batches bs fi started spins :
  concat (sender_loop bs fi started spins) = omap spin_item spins
  ∧ Forall (λ sent, sent ≠ [] ∧ Z.of_nat (length sent) <= Z.max 1 bs)
           (sender_loop bs fi started spins).
Proof.
  unfold sender_loop.
  destruct (sender_loop_from_spec bs fi spins [] started) as [Hc Hall].
  split; [done|]. apply Hall. cbn. lia.
Qed.

(** Batches of two; the third entry leaves with the final flush. *)
Example sender_loop_run :
  sender_loop 2 1000 0
    [mkSpin (Some Samples.e0) 10; mkSpin None 110; mkSpin (Some Samples.e1) 210;
     mkSpin (Some Samples.e0) 310]
  = [[Samples.e0; Samples.e1]; [Samples.e0]].
Proof. vm_compute. reflexivity. Qed.

End ClientExtras.

(** ** The stream beyond the claims *)

Section StreamExtras.

Implicit Types (b : Broadcast) (q : nat) (out : list Event).

(** What waits in a queue held for [cid] are traces of [cid], whatever
    the other tasks do. *)
Lemma run_other_pure cid q o b :
  held cid q b →
  Forall (λ tr, correlation_id tr = cid) (waiting q b) →
  Forall (λ tr, correlation_id tr = cid) (waiting q (run_other o b)).
Proof.
  intros (Hwf & Hlt & Hown) Hpure.
  destruct o as [trace|now cid'|cid' q'|now]; cbn [run_other].
  - destruct (notify_subscribers_spec trace b Hwf) as (_ & Hin & Hout & _).
    destruct (decide (q ∈ bucket_of (correlation_id trace) b)) as [Hq|Hq].
    + unfold waiting at 1. rewrite (Hin q Hq).
      destruct (is_full (queues b) q); [exact Hpure|].
      cbn. apply Forall_app. split; [exact Hpure|].
      constructor; [|constructor].
      apply elem_of_bucket_of in Hq as (bk & Hbk & Hqbk).
      by apply (Hown _ _ Hbk).
    + unfold waiting at 1. by rewrite (Hout q Hq).
  - unfold waiting, subscribe. cbn [fst queues].
    rewrite lookup_insert_ne by lia. exact Hpure.
  - unfold waiting. by rewrite unsubscribe_queues.
  - exact Hpure.
Qed.

Lemma run_others_pure cid q os b :
  held cid q b →
  Forall (λ tr, correlation_id tr = cid) (waiting q b) →
  Forall (λ tr, correlation_id tr = cid) (waiting q (run_others os b)).
Proof.
  revert b. induction os as [|o os IH]; intros b Hheld Hpure; [done|].
  cbn [run_others foldl]. apply IH.
  - by apply run_other_held.
  - by apply run_other_pure.
Qed.

Lemma stream_loop_for_id cid q deadline ts b out :
  held cid q b →
  Forall (λ tr, correlation_id tr = cid) (waiting q b) →
  Forall (for_id cid) out →
  Forall (for_id cid) (emitted (stream_loop cid q deadline ts b out))
  ∧ out `prefix_of` emitted (stream_loop cid q deadline ts b out).
Proof.
  revert b out. induction ts as [|tn ts IH]; intros b out Hheld Hpure Hout;
    cbn [stream_loop].
  { by split. }
  destruct (turn_now tn <? deadline).
  2:{ cbn [emitted]. split; [|by apply prefix_app_r].
      apply Forall_app. split; [done|]. by repeat constructor. }
  pose proof (run_others_held cid q (turn_others tn) b Hheld) as Hheld1.
  pose proof (run_others_pure cid q (turn_others tn) b Hheld Hpure) as Hpure1.
  destruct (turn_fault tn); [by split|].
  destruct (queue_get q (run_others (turn_others tn) b)) as [[trace b2]|] eqn:Hget.
  - assert (Hitem : correlation_id trace = cid
                    ∧ Forall (λ tr, correlation_id tr = cid) (waiting q b2)).
    { revert Hget Hpure1. unfold queue_get, waiting at 1.
      destruct (queues _ !! q) as [[|item items]|]; try done.
      intros [= -> <-]. cbn [default from_option id].
      intros [Hitem Hrest]%Forall_cons. split; [done|].
      unfold waiting. cbn. by rewrite lookup_insert_eq. }
    destruct Hitem as [Hitem Hpure2].
    assert (Hout' : Forall (for_id cid) (out ++ [Data trace])).
    { apply Forall_app. split; [done|]. by repeat constructor. }
    destruct (turn_close tn).
    + cbn [emitted]. split; [done|]. by apply prefix_app_r.
    + destruct (IH b2 (out ++ [Data trace])) as [Hall Hpre]; try done.
      { eapply shrinks_held; [|exact Hheld1]. by eapply queue_get_shrinks. }
      split; [done|]. etrans; [|exact Hpre]. by apply prefix_app_r.
  - assert (Hout' : Forall (for_id cid) (out ++ [Keepalive])).
    { apply Forall_app. split; [done|]. by repeat constructor. }
    destruct (turn_close tn).
    + cbn [emitted]. split; [done|]. by apply prefix_app_r.
    + destruct (IH (run_others (turn_others tn) b) (out ++ [Keepalive]))
        as [Hall Hpre]; try done.
      split; [done|]. etrans; [|exact Hpre]. by apply prefix_app_r.
Qed.

(** X23.  A stream carries the traces of its own correlation id only,
    whatever other clients, ingests and sweeps go on meanwhile; and
    once it has subscribed, what it has emitted begins with the stored
    traces of the id, oldest first. *)
Theorem X23_stream_carries_its_id_only cid timeout sc st :
  well_formed (broadcast st) →
  Forall (for_id cid) (emitted (event_generator cid timeout sc st))
  ∧ (is_Some (handle (event_generator cid timeout sc st)) →
     (Data <$> query_traces cid None None (table st))
       `prefix_of` emitted (event_generator cid timeout sc st)).
Proof.
  intros Hwf. unfold event_generator.
  destruct (query_fault sc).
  { cbn. split; [constructor|by intros [? [=]]]. }
  assert (Hreplay : Forall (for_id cid)
                      (Data <$> query_traces cid None None (table st))).
  { apply Forall_fmap, Forall_forall. intros trace Htrace. cbn.
    by eapply query_traces_cid. }
  destruct (match replay_close sc with Some _ => _ | None => _ end) as [n|].
  - cbn [emitted handle]. split; [|by intros [? [=]]].
    rewrite fmap_take. rewrite Forall_forall in Hreplay |- *.
    intros ev Hev. apply Hreplay.
    eapply elem_of_sublist; [exact Hev|apply sublist_take].
  - pose proof (subscribe_held (subscribe_now sc) cid (broadcast st) Hwf) as Hheld.
    destruct (subscribe (subscribe_now sc) cid (broadcast st)) as [b queue] eqn:Hsub.
    assert (Hq : queue = next_queue (broadcast st) ∧ waiting queue b = []).
    { revert Hsub. unfold subscribe. intros [= <- <-].
      split; [done|]. unfold waiting. cbn. by rewrite lookup_insert_eq. }
    destruct Hq as [-> Hempty]. cbn [fst] in Hheld.
    destruct (stream_loop_for_id cid (next_queue (broadcast st))
                (start_now sc + seconds timeout) (turns sc) b
                (Data <$> query_traces cid None None (table st)))
      as [Hall Hpre]; try done.
    by rewrite Hempty.
Qed.

Lemma X23_stream_carries_its_id_only_witness :
  Forall (for_id "c1")
         (emitted (event_generator "c1" 60 Samples.quiet_minute (state0 0)))
  ∧ (is_Some (handle (event_generator "c1" 60 Samples.quiet_minute (state0 0))) →
     (Data <$> query_traces "c1" None None (table (state0 0)))
       `prefix_of` emitted (event_generator "c1" 60 Samples.quiet_minute
                                            (state0 0))).
Proof.
  apply (X23_stream_carries_its_id_only "c1" 60 Samples.quiet_minute (state0 0)).
  apply well_formed_state0.
Defined.

End StreamExtras.

(** ** From the store back to the readers *)

Section ServeExtras.

Implicit Types (e : TraceEntry) (t : Table) (s : Stats).

(** X24.  What [insert_trace] inserts can be read back.  When it
    returns [true], [query_traces] for the id returns the entry, as it
    was sent but for an empty [data] dict, which comes back as none;
    the new row has the highest id of the table; and /recent, asked
    for at least one item after an id the table already had, ends its
    page with the new row, unless the entry has the catch-all
    correlation id. *)
Theorem X24_inserted_trace_is_served now e t s :
  table_ok t →
  (insert_trace now e t s).2 = true →
  let t' := (insert_trace now e t s).1.1 in
  let row := new_row e now (last_id t + 1) in
  row_to_entry row ∈ query_traces (correlation_id e) None None t'
  ∧ (data e ≠ Some [] → row_to_entry row = e)
  ∧ Forall (λ r, r_id r < r_id row) (rows t)
  ∧ (∀ limit since_id,
       0 < limit → correlation_id e ≠ "-" →
       (∀ i, since_id = Some i → i <= last_id t) →
       last (select_recent limit since_id None t') = Some (recent_item row)).
Proof.
  intros (_ & _ & Hbound) Hins t' row.
  pose proof (insert_trace_true_number _ _ _ _ Hins) as Hnum.
  destruct (insert_trace now e t s) as [[t1 s1] ok] eqn:Hcall.
  cbn [fst snd] in Hins, t'. subst ok t'.
  apply insert_trace_true in Hcall as (_ & _ & -> & _).
  split; [|split; [|split]].
  - rewrite query_traces_filter, order_by_timestamp_stable_sort.
    apply list_elem_of_fmap_2. rewrite stable_sort_perm.
    apply list_elem_of_filter. split.
    + by repeat split.
    + cbn [rows]. apply elem_of_app. right. by left.
  - intros Hdata. unfold row, row_to_entry, new_row. cbn.
    destruct e as [? ? stamp ? ? ? ? d ? ?]. cbn in *.
    rewrite <- (number_spec _ Hnum).
    by destruct d as [[|kv rest]|].
  - eapply Forall_impl; [exact Hbound|]. intros r Hr. cbn in *. lia.
  - intros limit since_id Hlimit Hcid Hsince.
    rewrite select_recent_page. cbn [rows].
    assert (Hrow : recent_matches since_id None row).
    { split; [|split; [done|exact Hcid]].
      destruct since_id as [i|]; [|done].
      specialize (Hsince i eq_refl). cbn. lia. }
    rewrite filter_app, filter_cons, decide_True, filter_nil by done.
    set (m0 := filter (recent_matches since_id None) (rows t)).
    assert (Hneg : (limit <? 0) = false) by (apply Z.ltb_ge; lia).
    rewrite Hneg, length_app. cbn [length].
    rewrite drop_app_le by lia. rewrite fmap_app. cbn [fmap list_fmap].
    apply last_snoc.
Qed.

Lemma X24_inserted_trace_is_served_witness :
  row_to_entry (new_row Samples.e0 0 (last_id empty_table + 1))
    ∈ query_traces (correlation_id Samples.e0) None None
        (insert_trace 0 Samples.e0 empty_table (stats0 0)).1.1
  ∧ (data Samples.e0 ≠ Some [] →
     row_to_entry (new_row Samples.e0 0 (last_id empty_table + 1)) = Samples.e0)
  ∧ Forall (λ r, r_id r < r_id (new_row Samples.e0 0 (last_id empty_table + 1)))
           (rows empty_table)
  ∧ (∀ limit since_id,
       0 < limit → correlation_id Samples.e0 ≠ "-" →
       (∀ i, since_id = Some i → i <= last_id empty_table) →
       last (select_recent limit since_id None
               (insert_trace 0 Samples.e0 empty_table (stats0 0)).1.1)
       = Some (recent_item (new_row Samples.e0 0 (last_id empty_table + 1)))).
Proof.
  apply (X24_inserted_trace_is_served 0 Samples.e0 empty_table (stats0 0)).
  - apply table_ok_empty.
  - vm_compute. reflexivity.
Defined.

End ServeExtras.
